(** * parlaylib examples: the concurrent hash map and the 3-D convex hull

    A shallow embedding of [examples/convex_hash_map.h],
    [examples/convex_hull_3d.h] and the driver of
    [examples/convex_hull_3d.cpp], with the properties of their
    specification stated and proved over it, and of the three example
    applications of [benchmark/bench_examples.cpp] (word count, prime
    sieve, maximum contiguous subsequence sum).

    Conventions of the embedding.
    - The code is run under one schedule: the closures of a [par_do3] or of
      a [parallel_for] run one after the other, in program order.  Under
      that schedule a compare-and-swap is a test followed by a write.
    - A loop of the source is a [Fixpoint] on a fuel argument; [Spin] is the
      answer of a loop that has not left within its fuel.  Each operation
      of the map runs its loops with a fuel that is enough whenever the loop
      of the source leaves at all ([insert_and_set_total],
      [remove_spin_for_ever], [get_value_spin_for_ever]).
    - Table indices ([unsigned long], always below the table size) are
      [nat]; point identifiers ([int]) are [Z]. *)

From Stdlib Require Import ZArith Lia.
From stdpp Require Import base tactics option list strings sorting.

Local Open Scope nat_scope.

(** ** Results of loops *)

Inductive res (A : Type) : Type :=
| Val (a : A)
| Spin.
Arguments Val {A} a.
Arguments Spin {A}.

(** * The hash map of [convex_hash_map.h] *)

Module convex_hash_map.

Section defs.
Context {K V : Type} `{!EqDecision K, !EqDecision V, !Inhabited K, !Inhabited V}.

(** [struct entry]: three flags, a key and a value.  The constructor
    [entry()] clears the flags and leaves [key] and [value] unwritten; every
    read of them in the source is guarded by [taken], which is set together
    with the write, so the inhabitant standing for the unwritten member is
    never observed. *)
Record entry : Type := Entry {
  taken : bool;
  check : bool;
  removed : bool;
  key : K;
  value : V
}.

Definition entry0 : entry := Entry false false false inhabitant inhabitant.

#[export] Instance entry_inhabited : Inhabited entry := populate entry0.

(** [struct convex_hash_map]: the size [m], the hash function and the slots
    [R].  (The member [equal] is never used: the source compares keys with
    [==].) *)
Record t : Type := Map {
  m : nat;
  hash : K → nat;
  R : list entry
}.

(** The constructor: [m = 100 + static_cast<index>(1.5 * size)], that is
    [100 + floor (3 * size / 2)], and [m] fresh entries. *)
Definition make (size : nat) (h : K → nat) : t :=
  let m := 100 + (3 * size) / 2 in
  Map m h (replicate m entry0).

Definition start_index (M : t) (k : K) : nat := hash M k mod m M.

Definition next_index (M : t) (h : nat) : nat :=
  if decide (h + 1 = m M) then 0 else h + 1.

Definition set_R (M : t) (R' : list entry) : t := Map (m M) (hash M) R'.

(** *** [insert_and_set] *)

(** The first loop: claim the first free slot from the home slot on.
    [Val (Some i)]: the compare-and-swap on [R[i].taken] succeeded;
    [Val None]: the probe came back to [start] (the table is overfull). *)
Fixpoint claim_loop (fuel : nat) (M : t) (start i : nat) : res (option nat) :=
  match fuel with
  | 0 => Spin
  | S fuel' =>
      if taken (R M !!! i) then
        let i' := next_index M i in
        if decide (i' = start) then Val None
        else claim_loop fuel' M start i'
      else Val (Some i)
  end.

Definition set_taken (e : entry) : entry :=
  Entry true (check e) (removed e) (key e) (value e).
Definition set_key_value (k : K) (v : V) (e : entry) : entry :=
  Entry (taken e) (check e) (removed e) k v.
Definition set_check (e : entry) : entry :=
  Entry (taken e) true (removed e) (key e) (value e).
Definition set_removed (e : entry) : entry :=
  Entry (taken e) (check e) true (key e) (value e).

(** The second loop: from the home slot, through the claimed slots; a slot
    with the key [k] whose [check] flag is already set ends it with [false],
    one whose flag is clear gets it set. *)
Fixpoint verify_loop (fuel : nat) (M : t) (k : K) (i : nat) : res (bool * t) :=
  match fuel with
  | 0 => Spin
  | S fuel' =>
      let e := R M !!! i in
      if taken e then
        if decide (key e = k) then
          if check e then Val (false, M)
          else verify_loop fuel' (set_R M (<[i := set_check e]> (R M))) k
                 (next_index M i)
        else verify_loop fuel' M k (next_index M i)
      else Val (true, M)
  end.

(** What [insert_and_set] hands back: the returned [bool] and the lines it
    wrote to [std::cout]. *)
Definition outcome : Type := bool * list string.
Definition Inserted : outcome := (true, []).
Definition LostRace : outcome := (false, []).
Definition CapacityExceeded : outcome := (false, ["Hash table overfull"%string]).

(** The claim of slot [i] and the two writes [R[i].key = k; R[i].value = v]. *)
Definition write_slot (M : t) (i : nat) (k : K) (v : V) : t :=
  set_R M (<[i := set_key_value k v (set_taken (R M !!! i))]> (R M)).

Definition insert_and_set (k : K) (v : V) (M : t) : res (outcome * t) :=
  let start := start_index M k in
  match claim_loop (m M) M start start with
  | Spin => Spin
  | Val None => Val (CapacityExceeded, M)
  | Val (Some i) =>
      let M1 := write_slot M i k v in
      match verify_loop (2 * m M) M1 k start with
      | Spin => Spin
      | Val (b, M2) => Val ((b, []), M2)
      end
  end.

(** *** [remove] *)

Fixpoint remove_loop (fuel : nat) (M : t) (k : K) (i : nat) : res (bool * t) :=
  match fuel with
  | 0 => Spin
  | S fuel' =>
      let e := R M !!! i in
      if negb (taken e) then Val (false, M)
      else if negb (removed e) && bool_decide (key e = k) then
        Val (true, set_R M (<[i := set_removed e]> (R M)))
      else remove_loop fuel' M k (next_index M i)
  end.

Definition remove (k : K) (M : t) : res (bool * t) :=
  remove_loop (m M) M k (start_index M k).

(** *** [get_value] *)

Fixpoint get_value_loop (fuel : nat) (M : t) (k : K) (v : V) (i : nat)
  : res (option V) :=
  match fuel with
  | 0 => Spin
  | S fuel' =>
      let e := R M !!! i in
      if taken e then
        if bool_decide (key e = k) && bool_decide (value e ≠ v)
        then Val (Some (value e))
        else get_value_loop fuel' M k v (next_index M i)
      else Val None
  end.

Definition get_value (k : K) (v : V) (M : t) : res (option V) :=
  get_value_loop (m M) M k v (start_index M k).

(** *** [keys] *)

(** Modelled from the spec: [parlay::map_maybe] is the runtime's stream
    compaction, which keeps, in order, the payloads of the non-empty
    optionals. *)
Definition map_maybe {A B : Type} (l : list A) (f : A → option B) : list B :=
  omap f l.

Definition live (e : entry) : bool := taken e && negb (removed e).

Definition keys (M : t) : list K :=
  map_maybe (R M) (λ x, if live x then Some (key x) else None).

End defs.

Arguments entry : clear implicits.
Arguments t : clear implicits.

End convex_hash_map.

(** * The hull builder of [convex_hull_3d.h] *)

(** Arithmetic of the predicates.  The coordinates are [float] ([real] in
    the source), a [vect] holds [double]s.  The operations are a parameter
    of the development: what is proved of the builder for every input holds
    however they round. *)
Class FloatOps : Type := {
  real : Type;
  double : Type;
  real_zero : real;
  fsub : real → real → real;
  fmul : real → real → real;
  to_double : real → double;
  dadd : double → double → double;
  dmul : double → double → double;
  dge0 : double → bool
}.

(** Exact arithmetic on integers: the value of the floating-point operations
    on coordinates that are small integers. *)
Definition ZOps : FloatOps := {|
  real := Z; double := Z; real_zero := 0%Z;
  fsub := Z.sub; fmul := Z.mul; to_double := λ a, a;
  dadd := Z.add; dmul := Z.mul; dge0 := λ d, (0 <=? d)%Z
|}.

(** The arithmetic of the machine on coordinates that are integers.  Every
    operation returns the exact result rounded to the nearest value with 24
    significant bits ([float]) or 53 significant bits ([double]), a tie
    going to the value whose last bit is even.  Such a value is an integer
    again, so the carrier is [Z]; the magnitudes met on the inputs below
    stay far inside the exponent range of both types. *)
Definition round_to (bits z : Z) : Z :=
  let a := Z.abs z in
  let e := (Z.log2 a + 1 - bits)%Z in
  if (e <=? 0)%Z then z
  else
    let q := Z.shiftr a e in
    let r := Z.land a (Z.ones e) in
    let half := Z.shiftl 1 (e - 1) in
    let q' := if (half <? r)%Z || ((r =? half)%Z && Z.odd q) then (q + 1)%Z else q in
    (Z.sgn z * Z.shiftl q' e)%Z.

Definition FltOps : FloatOps := {|
  real := Z; double := Z; real_zero := 0%Z;
  fsub := λ a b, round_to 24 (a - b);
  fmul := λ a b, round_to 24 (a * b);
  to_double := λ a, a;
  dadd := λ a b, round_to 53 (a + b);
  dmul := λ a b, round_to 53 (a * b);
  dge0 := λ d, (0 <=? d)%Z
|}.

Inductive status : Type :=
| Returned            (* the call returned *)
| BadOptionalAccess   (* [.value()] on an empty optional threw *)
| Hang                (* a loop of the hash map never leaves *)
| OutOfFuel.          (* the recursion is deeper than the fuel *)

Module Convex_Hull_3d.

Definition point_id : Type := Z.
Definition tri : Type := (point_id * point_id * point_id)%type.
Definition edge : Type := (point_id * point_id)%type.

Section hull.
Context `{ops : FloatOps}.

Record point : Type := Point { id : point_id; x : real; y : real; z : real }.

#[export] Instance point_inhabited : Inhabited point :=
  populate (Point 0%Z real_zero real_zero real_zero).

(** [operator<] of [point]. *)
Definition point_lt (p q : point) : bool := (id p <? id q)%Z.

Record vect : Type := Vect { vx : double; vy : double; vz : double }.

Definition Points : Type := list point.

Record triangle : Type := Triangle {
  t : tri;
  pid : point_id;
  conflicts : Points
}.

#[export] Instance triangle_inhabited : Inhabited triangle :=
  populate (Triangle (0, 0, 0)%Z 0%Z []).

(** A [shared_ptr<triangle>] is the address of the record in the free
    store; [==] on shared pointers compares addresses. *)
Definition triangle_ptr : Type := nat.

Definition get_normal_vect (a b c : point) : vect :=
  Vect (to_double (fsub (fmul (fsub (y b) (y a)) (fsub (z c) (z a)))
                        (fmul (fsub (z b) (z a)) (fsub (y c) (y a)))))
       (to_double (fsub (fmul (fsub (z b) (z a)) (fsub (x c) (x a)))
                        (fmul (fsub (x b) (x a)) (fsub (z c) (z a)))))
       (to_double (fsub (fmul (fsub (x b) (x a)) (fsub (y c) (y a)))
                        (fmul (fsub (y b) (y a)) (fsub (x c) (x a))))).

Definition dot (v1 v2 : vect) : double :=
  dadd (dadd (dmul (vx v1) (vx v2)) (dmul (vy v1) (vy v2))) (dmul (vz v1) (vz v2)).

Definition is_above (a : point) (normal : vect) (target : point) : bool :=
  let dist :=
    dot (Vect (to_double (fsub (x a) (x target)))
              (to_double (fsub (y a) (y target)))
              (to_double (fsub (z a) (z target)))) normal in
  dge0 dist.

(** ** The runtime's primitives *)

(** Modelled from the spec: [parlay::tabulate n f] is the sequence
    [f 0, ..., f (n-1)]. *)
Definition tabulate {A : Type} (n : nat) (f : nat → A) : list A :=
  f <$> seq 0 n.

(** Modelled from the spec: [parlay::pack] is the runtime's stream
    compaction, which keeps, in order, the elements whose flag is set. *)
Fixpoint pack {A : Type} (p : list A) (keep : list bool) : list A :=
  match p, keep with
  | a :: p', b :: keep' => if b then a :: pack p' keep' else pack p' keep'
  | _, _ => []
  end.

(** Modelled from the spec: [parlay::merge] is the runtime's merge of two
    sorted sequences, here with [operator<] of [point]; an element of the
    second sequence goes first only when it is smaller. *)
Fixpoint merge (a : Points) : Points → Points :=
  fix merge_a (b : Points) : Points :=
    match a, b with
    | [], _ => b
    | _, [] => a
    | p :: a', q :: b' =>
        if point_lt q p then q :: merge_a b' else p :: merge a' b
    end.

(** ** The state: the members of [struct Convex_Hull_3d], the free store and
    the console *)

Record state : Type := State {
  map_facets : convex_hash_map.t edge triangle_ptr;
  points : Points;
  convex_hull : convex_hash_map.t tri bool;
  n : point_id;
  heap : list triangle;
  cout : list string
}.

Definition set_map_facets (s : state) (M : convex_hash_map.t edge triangle_ptr) : state :=
  State M (points s) (convex_hull s) (n s) (heap s) (cout s).
Definition set_convex_hull (s : state) (H : convex_hash_map.t tri bool) : state :=
  State (map_facets s) (points s) H (n s) (heap s) (cout s).
Definition print (s : state) (lines : list string) : state :=
  State (map_facets s) (points s) (convex_hull s) (n s) (heap s) (cout s ++ lines).

(** [std::make_shared<triangle>(...)]: a new record in the free store. *)
Definition make_shared (tr : triangle) (s : state) : triangle_ptr * state :=
  (length (heap s),
   State (map_facets s) (points s) (convex_hull s) (n s) (heap s ++ [tr]) (cout s)).

Definition deref (s : state) (p : triangle_ptr) : triangle := heap s !!! p.

Definition run : Type := state → status * state.

Definition and_then (a b : run) : run :=
  λ s, match a s with
       | (Returned, s') => b s'
       | other => other
       end.

Definition point_at (s : state) (i : point_id) : point := points s !!! Z.to_nat i.

Definition min_conflicts (s : state) (tp : triangle_ptr) : point_id :=
  match conflicts (deref s tp) with
  | [] => n s
  | p :: _ => id p
  end.

Definition get_visible_points (s : state) (tr : tri) (pd : point_id) (p : Points)
  : Points :=
  let normal := get_normal_vect (point_at s tr.1.1) (point_at s tr.1.2) (point_at s tr.2) in
  let is_convex_above := is_above (point_at s tr.1.1) normal (point_at s pd) in
  let keep := tabulate (length p) (λ i,
    negb (eqb is_convex_above (is_above (point_at s tr.1.1) normal (p !!! i)))) in
  pack p keep.

(** The two removals and the insertion into the hull set; the returned
    [bool] is dropped by the source. *)
Definition hull_remove (k : tri) : run :=
  λ s, match convex_hash_map.remove k (convex_hull s) with
       | Spin => (Hang, s)
       | Val (_, H) => (Returned, set_convex_hull s H)
       end.

Definition hull_insert_and_set (k : tri) (v : bool) : run :=
  λ s, match convex_hash_map.insert_and_set k v (convex_hull s) with
       | Spin => (Hang, s)
       | Val ((_, out), H) => (Returned, print (set_convex_hull s H) out)
       end.

(** The deduplicated merge of two conflict lists, as [process_ridge] computes
    it. *)
Definition uni_dedup (c1 c2 : Points) : Points :=
  let uni := merge c1 c2 in
  let keep := tabulate (length uni) (λ i,
    negb (bool_decide (i = 0))
    && negb (bool_decide (id (uni !!! i) = id (uni !!! (i - 1))))) in
  pack uni keep.

(** The lambda [check_edge] of [process_ridge]; [rec] is [process_ridge]
    itself, with the fuel left for the calls below. *)
Definition check_edge (rec : triangle_ptr → edge → triangle_ptr → run)
    (e : edge) (tp : triangle_ptr) : run :=
  λ s,
    let key := if (e.1 <? e.2)%Z then e else (e.2, e.1) in
    match convex_hash_map.insert_and_set key tp (map_facets s) with
    | Spin => (Hang, s)
    | Val ((b, out), M) =>
        let s1 := print (set_map_facets s M) out in
        if b then (Returned, s1)
        else match convex_hash_map.get_value e tp (map_facets s1) with
             | Spin => (Hang, s1)
             | Val None => (BadOptionalAccess, s1)
             | Val (Some other) => rec tp e other s1
             end
    end.

Fixpoint process_ridge (fuel : nat) (t1 : triangle_ptr) (r : edge)
    (t2 : triangle_ptr) : run :=
  λ s,
    match fuel with
    | 0 => (OutOfFuel, s)
    | S fuel' =>
        if bool_decide (length (conflicts (deref s t1)) = 0)
           && bool_decide (length (conflicts (deref s t2)) = 0)
        then (Returned, s)
        else if bool_decide (min_conflicts s t2 = min_conflicts s t1) then
          and_then (hull_remove (t (deref s t1)))
                   (hull_remove (t (deref s t2))) s
        else if (min_conflicts s t2 <? min_conflicts s t1)%Z then
          process_ridge fuel' t2 r t1 s
        else
          let pd := min_conflicts s t1 in
          let tr : tri := (r.1, r.2, pd) in
          let c := uni_dedup (conflicts (deref s t1)) (conflicts (deref s t2)) in
          let '(t_new, s1) :=
            make_shared (Triangle tr (pid (deref s t1))
                           (get_visible_points s tr (pid (deref s t1)) c)) s in
          and_then (hull_remove (t (deref s t1)))
            (and_then (hull_insert_and_set tr true)
              (and_then (process_ridge fuel' t_new r t2)
                (and_then (check_edge (process_ridge fuel') (r.1, pd) t_new)
                          (check_edge (process_ridge fuel') (r.2, pd) t_new)))) s1
    end.

(** ** The constructor and the top-level function *)

Definition init_tri : list tri :=
  [(0, 1, 2); (1, 2, 3); (0, 2, 3); (0, 1, 3)]%Z.
Definition remain : list point_id := [3; 0; 1; 2]%Z.

(** [struct bound] and the table [share_info]. *)
Definition share_info : list (nat * nat * edge) :=
  [(0, 1, (1, 2)%Z); (0, 2, (0, 2)%Z); (0, 3, (0, 1)%Z);
   (1, 2, (2, 3)%Z); (1, 3, (1, 3)%Z); (2, 3, (0, 3)%Z)].

Section hashes.
Variable hash_edge : edge → nat.
Variable hash_tri : tri → nat.

Definition init_state (P : Points) : state :=
  State (convex_hash_map.make (6 * length P) hash_edge)
        P
        (convex_hash_map.make (6 * length P) hash_tri)
        (Z.of_nat (length P))
        [] [].

(** The four records of the seed tetrahedron, made in the order of the
    loop index. *)
Definition make_seed (i : nat) (target_points : Points) (s : state) : state :=
  (make_shared (Triangle (init_tri !!! i) (remain !!! i)
                  (get_visible_points s (init_tri !!! i) (remain !!! i) target_points))
     s).2.

(** The constructor.  The free store is empty before the four seed records
    are made, so [t[i]] is the address [i]. *)
Definition construct (fuel : nat) (P : Points) : status * state :=
  let target_points :=
    pack P (tabulate (length P) (λ i, bool_decide (3 < i))) in
  and_then (hull_insert_and_set (init_tri !!! 0) true)
    (and_then (hull_insert_and_set (init_tri !!! 1) true)
      (and_then (hull_insert_and_set (init_tri !!! 2) true)
        (and_then (hull_insert_and_set (init_tri !!! 3) true)
          (λ s,
            let s4 := foldl (λ s i, make_seed i target_points s) s (seq 0 4) in
            foldl (λ a '(t1_idx, t2_idx, e),
                     and_then a (process_ridge fuel t1_idx e t2_idx))
                  (λ s, (Returned, s)) share_info s4))))
    (init_state P).

(** [convex_hull_3d]: the keys of the hull set when the constructor
    returns. *)
Definition convex_hull_3d (fuel : nat) (P : Points) : status * list tri :=
  let '(st, s) := construct fuel P in
  (st, match st with
       | Returned => convex_hash_map.keys (convex_hull s)
       | _ => []
       end).

End hashes.
End hull.

Arguments point : clear implicits.
Arguments point ops : rename.

End Convex_Hull_3d.

(** * The driver of [convex_hull_3d.cpp] *)

Module Driver.
Section main.

(** [std::stoi] on the argument: [None] when it throws.  The standard
    library is not part of the repository. *)
Variable stoi : string → option Z.

(** The lines the rest of [main] writes to [std::cout] once [n] is parsed
    (timings, worker count, number of triangles). *)
Variable body : Z → list string.

Definition usage : string := "Usage: <n>".

(** [main]: the lines written to [std::cout] and the exit status.  [argv]
    holds the program name and the arguments, so [argc] is its length.
    Control that reaches the end of [main] returns 0. *)
Definition main (argv : list string) : list string * Z :=
  let argc := length argv in
  if negb (bool_decide (argc = 2)) then ([usage], 0%Z)
  else
    match stoi (argv !!! 1) with
    | None => ([usage], 1%Z)
    | Some n => (body n, 0%Z)
    end.

End main.
End Driver.

(** * Vocabulary of the properties *)

Module MapSpec.
Import convex_hash_map.
Section spec.
Context {K V : Type} `{!EqDecision K, !EqDecision V, !Inhabited K, !Inhabited V}.
Implicit Types (M : t K V) (k : K) (v : V) (e : entry K V).

(** The slot reached from slot [i] after [d] steps of [next_index]. *)
Definition probe M (i d : nat) : nat := (i + d) mod m M.

(** The slot at distance [d] on the probe chain of [k]. *)
Definition slot_of M k (d : nat) : entry K V := R M !!! probe M (start_index M k) d.

(** What the constructor establishes and every operation keeps. *)
Definition wf M : Prop := length (R M) = m M ∧ 0 < m M.

Definition has_room M : Prop := ∃ j, j < m M ∧ taken (R M !!! j) = false.
Definition full M : Prop := ∀ j, j < m M → taken (R M !!! j) = true.
Definition has_key M k : Prop :=
  ∃ j, j < m M ∧ taken (R M !!! j) = true ∧ key (R M !!! j) = k.

Definition taken_count M : nat := length (filter (λ e, taken e = true) (R M)).

(** Where each scan stops. *)
Definition stop_claim e : bool := negb (taken e).
Definition stop_verify k e : bool :=
  negb (taken e) || (bool_decide (key e = k) && check e).
Definition stop_remove k e : bool :=
  negb (taken e) || (negb (removed e) && bool_decide (key e = k)).
Definition stop_get_value k v e : bool :=
  negb (taken e) || (bool_decide (key e = k) && bool_decide (value e ≠ v)).

(** [d] is the first distance from [i] at which [stop] holds. *)
Definition first_stop M (stop : entry K V → bool) (i d : nat) : Prop :=
  stop (R M !!! probe M i d) = true
  ∧ ∀ d', d' < d → stop (R M !!! probe M i d') = false.

(** Two tables that differ at most in [check] flags, and the other way
    round in [removed] flags. *)
Definition same_but_check M M' : Prop :=
  m M' = m M ∧ hash M' = hash M ∧ length (R M') = length (R M)
  ∧ ∀ j, taken (R M' !!! j) = taken (R M !!! j)
        ∧ removed (R M' !!! j) = removed (R M !!! j)
        ∧ key (R M' !!! j) = key (R M !!! j)
        ∧ value (R M' !!! j) = value (R M !!! j).
Definition same_but_removed M M' : Prop :=
  m M' = m M ∧ hash M' = hash M ∧ length (R M') = length (R M)
  ∧ ∀ j, taken (R M' !!! j) = taken (R M !!! j)
        ∧ check (R M' !!! j) = check (R M !!! j)
        ∧ key (R M' !!! j) = key (R M !!! j)
        ∧ value (R M' !!! j) = value (R M !!! j).

(** No live entry (claimed and not removed) holds the key [k]. *)
Definition no_live M k : Prop :=
  ∀ j, j < m M → live (R M !!! j) = true → key (R M !!! j) ≠ k.

(** The invariant of a table that is only used through its operations, one
    call after the other: a claimed slot is reached from the home slot of
    its key through claimed slots; a key that is present has a slot with
    the [check] flag set; a free slot has its [check] and [removed] flags
    clear. *)
Definition chained M : Prop :=
  ∀ j, j < m M → taken (R M !!! j) = true →
    ∃ d, d < m M ∧ probe M (start_index M (key (R M !!! j))) d = j
         ∧ ∀ d', d' < d → taken (slot_of M (key (R M !!! j)) d') = true.
Definition checked M : Prop :=
  ∀ k, has_key M k →
    ∃ j, j < m M ∧ taken (R M !!! j) = true ∧ key (R M !!! j) = k
         ∧ check (R M !!! j) = true.
Definition clean M : Prop :=
  ∀ j, j < m M → taken (R M !!! j) = false →
    check (R M !!! j) = false ∧ removed (R M !!! j) = false.
Definition Inv M : Prop := wf M ∧ chained M ∧ checked M ∧ clean M.

(** The part of the invariant that every call keeps, also a call that
    fills the last free slot. *)
Definition linked M : Prop := wf M ∧ chained M ∧ clean M.

(** A sequence of [insert_and_set] calls, one after the other, and the
    outcomes it should give: the first call of a key is [Inserted], every
    later one [LostRace]. *)
Fixpoint insert_all (calls : list (K * V)) (M : t K V)
  : res (list outcome * t K V) :=
  match calls with
  | [] => Val ([], M)
  | (k, v) :: calls' =>
      match insert_and_set k v M with
      | Spin => Spin
      | Val (o, M1) =>
          match insert_all calls' M1 with
          | Spin => Spin
          | Val (os, M2) => Val (o :: os, M2)
          end
      end
  end.

(** A sequence of calls of the two updating operations, with the returned
    values dropped. *)
Inductive call : Type :=
| CallInsert (k : K) (v : V)
| CallRemove (k : K).

Fixpoint run_calls (cs : list call) (M : t K V) : res (t K V) :=
  match cs with
  | [] => Val M
  | CallInsert k v :: cs' =>
      match insert_and_set k v M with
      | Spin => Spin
      | Val (_, M') => run_calls cs' M'
      end
  | CallRemove k :: cs' =>
      match remove k M with
      | Spin => Spin
      | Val (_, M') => run_calls cs' M'
      end
  end.

Fixpoint first_wins (seen : list K) (calls : list (K * V)) : list outcome :=
  match calls with
  | [] => []
  | (k, _) :: calls' =>
      (if bool_decide (k ∈ seen) then LostRace else Inserted)
        :: first_wins (k :: seen) calls'
  end.

End spec.
End MapSpec.

(** Small tables to run the operations on: keys and values are numbers, a
    key hashes to itself, [size] is 0 (so the table has 100 slots). *)
Module MapExamples.
Import convex_hash_map.

Definition M0 : t nat nat := make 0 (λ k, k).

Definition after {K V} (r : res (outcome * t K V)) (M : t K V) : t K V :=
  match r with Val (_, M') => M' | Spin => M end.
Definition after_remove {K V} (r : res (bool * t K V)) (M : t K V) : t K V :=
  match r with Val (_, M') => M' | Spin => M end.

(** [insert_and_set(7, 1)] on the empty table, then [remove(7)]. *)
Definition M1 : t nat nat := Eval vm_compute in after (insert_and_set 7 1 M0) M0.
Definition M2 : t nat nat := Eval vm_compute in after_remove (remove 7 M1) M1.

(** A full table: a hundred calls [insert_and_set(7, 1)]. *)
Definition Mfull : t nat nat :=
  Eval vm_compute in
    match MapSpec.insert_all (replicate 100 (7, 1)) M0 with
    | Val (_, M) => M
    | Spin => M0
    end.

(** The table after the calls [insert_and_set(0, 0)], ...,
    [insert_and_set(99, 0)]: a hundred different keys. *)
Definition hundred_keys : list (nat * nat) := (λ k, (k, 0)) <$> seq 0 100.
Definition Mdistinct : t nat nat :=
  Eval vm_compute in
    match MapSpec.insert_all hundred_keys M0 with
    | Val (_, M) => M
    | Spin => M0
    end.

(** The table after the first 99 of these calls: one slot is free. *)
Definition M99 : t nat nat :=
  Eval vm_compute in
    match MapSpec.insert_all (take 99 hundred_keys) M0 with
    | Val (_, M) => M
    | Spin => M0
    end.

End MapExamples.

Module HullSpec.
Import convex_hash_map Convex_Hull_3d.
Section spec.
Context `{ops : FloatOps}.

(** Conflict lists in increasing order of identifier. *)
Definition id_lt (p q : point ops) : Prop := (id p < id q)%Z.
Definition id_le (p q : point ops) : Prop := (id p ≤ id q)%Z.
Definition sorted_ids (c : Points) : Prop := StronglySorted id_lt c.
Definition weakly_sorted (c : Points) : Prop := StronglySorted id_le c.

(** Every record of the free store has a sorted conflict list. *)
Definition heap_sorted (s : state) : Prop :=
  Forall (λ tr, sorted_ids (conflicts tr)) (heap s).

(** A step that keeps [heap_sorted], whatever its status. *)
Definition keeps_sorted (a : run) : Prop :=
  ∀ s, heap_sorted s → heap_sorted (a s).2.

(** What the flags of [process_ridge] keep of a merged list whose first
    element is [prev]: the elements whose identifier differs from the one
    before. *)
Fixpoint dedup_after (prev : point ops) (l : Points) : Points :=
  match l with
  | [] => []
  | q :: l' =>
      if bool_decide (id q = id prev) then dedup_after q l'
      else q :: dedup_after q l'
  end.

(** ** The lookup of [check_edge] as the specification words it

    The specification has the lookup after a lost race address the ridge
    by its canonical key.  These are [check_edge], [process_ridge] and the
    constructor with that one change ([get_value (key, tp)] for
    [get_value (e, tp)]), to compare the source with. *)
Definition check_edge_by_key (rec : triangle_ptr → edge → triangle_ptr → run)
    (e : edge) (tp : triangle_ptr) : run :=
  λ s,
    let key := if (e.1 <? e.2)%Z then e else (e.2, e.1) in
    match insert_and_set key tp (map_facets s) with
    | Spin => (Hang, s)
    | Val ((b, out), M) =>
        let s1 := print (set_map_facets s M) out in
        if b then (Returned, s1)
        else match get_value key tp (map_facets s1) with
             | Spin => (Hang, s1)
             | Val None => (BadOptionalAccess, s1)
             | Val (Some other) => rec tp e other s1
             end
    end.

Fixpoint process_ridge_by_key (fuel : nat) (t1 : triangle_ptr) (r : edge)
    (t2 : triangle_ptr) : run :=
  λ s,
    match fuel with
    | 0 => (OutOfFuel, s)
    | S fuel' =>
        if bool_decide (length (conflicts (deref s t1)) = 0)
           && bool_decide (length (conflicts (deref s t2)) = 0)
        then (Returned, s)
        else if bool_decide (min_conflicts s t2 = min_conflicts s t1) then
          and_then (hull_remove (t (deref s t1)))
                   (hull_remove (t (deref s t2))) s
        else if (min_conflicts s t2 <? min_conflicts s t1)%Z then
          process_ridge_by_key fuel' t2 r t1 s
        else
          let pd := min_conflicts s t1 in
          let tr : tri := (r.1, r.2, pd) in
          let c := uni_dedup (conflicts (deref s t1)) (conflicts (deref s t2)) in
          let '(t_new, s1) :=
            make_shared (Triangle tr (pid (deref s t1))
                           (get_visible_points s tr (pid (deref s t1)) c)) s in
          and_then (hull_remove (t (deref s t1)))
            (and_then (hull_insert_and_set tr true)
              (and_then (process_ridge_by_key fuel' t_new r t2)
                (and_then (check_edge_by_key (process_ridge_by_key fuel') (r.1, pd) t_new)
                          (check_edge_by_key (process_ridge_by_key fuel') (r.2, pd) t_new))))
            s1
    end.

Definition construct_by_key (hash_edge : edge → nat) (hash_tri : tri → nat)
    (fuel : nat) (P : Points) : status * state :=
  let target_points :=
    pack P (tabulate (length P) (λ i, bool_decide (3 < i))) in
  and_then (hull_insert_and_set (init_tri !!! 0) true)
    (and_then (hull_insert_and_set (init_tri !!! 1) true)
      (and_then (hull_insert_and_set (init_tri !!! 2) true)
        (and_then (hull_insert_and_set (init_tri !!! 3) true)
          (λ s,
            let s4 := foldl (λ s i, make_seed i target_points s) s (seq 0 4) in
            foldl (λ a '(t1_idx, t2_idx, e),
                     and_then a (process_ridge_by_key fuel t1_idx e t2_idx))
                  (λ s, (Returned, s)) share_info s4))))
    (init_state hash_edge hash_tri P).

(** The input contract on identifiers: the point at position [i] has the
    identifier [i]. *)
Definition dense_ids (P : Points) : Prop :=
  ∀ i p, P !! i = Some p → id p = Z.of_nat i.

(** What the builder maintains when the identifiers are dense.  Every
    conflict list is sorted and holds identifiers below [n]; every entry of
    the ridge map points into the free store, at a record whose conflict
    identifiers exceed the larger end of the key. *)
Definition above (c : point_id) (tr : triangle) : Prop :=
  Forall (λ p, (c < id p)%Z) (conflicts tr).

Definition entry_ok (s : state) (x : entry edge triangle_ptr) : Prop :=
  value x < length (heap s) ∧ above (key x).2 (deref s (value x)).

Definition good (s : state) : Prop :=
  Forall (λ tr, sorted_ids (conflicts tr)
                ∧ Forall (λ p, (id p < n s)%Z) (conflicts tr)) (heap s)
  ∧ (length (R (map_facets s)) = m (map_facets s) ∧ 0 < m (map_facets s))
  ∧ ∀ j, j < m (map_facets s) → taken (R (map_facets s) !!! j) = true →
         entry_ok s (R (map_facets s) !!! j).

(** The arguments of a [process_ridge] call. *)
Definition ridge_ok (s : state) (t1 : triangle_ptr) (r : edge) (t2 : triangle_ptr)
  : Prop :=
  (r.1 < r.2)%Z ∧ t1 < length (heap s) ∧ t2 < length (heap s)
  ∧ above r.2 (deref s t1) ∧ above r.2 (deref s t2).

(** How a state evolves: the free store only grows. *)
Definition extends (s s' : state) : Prop :=
  heap s `prefix_of` heap s' ∧ n s' = n s.

(** Two implementations of [process_ridge] agree on the calls the builder
    makes, and keep what it maintains. *)
Definition agree (f g : triangle_ptr → edge → triangle_ptr → run) : Prop :=
  ∀ t1 r t2 s, good s → ridge_ok s t1 r t2 →
    f t1 r t2 s = g t1 r t2 s
    ∧ ((f t1 r t2 s).1 = Returned →
       good (f t1 r t2 s).2 ∧ extends s (f t1 r t2 s).2).

(** The record that [process_ridge] makes in its last branch. *)
Definition new_record (s : state) (t1 : triangle_ptr) (r : edge) (t2 : triangle_ptr)
  : triangle :=
  let pd := min_conflicts s t1 in
  Triangle (r.1, r.2, pd) (pid (deref s t1))
    (get_visible_points s (r.1, r.2, pd) (pid (deref s t1))
       (uni_dedup (conflicts (deref s t1)) (conflicts (deref s t2)))).

(** A step of the source and the same step with the lookup by key give
    the same result on [s], and a returning step keeps [good] and only
    extends the free store. *)
Definition run_ok (a a' : run) (s : state) : Prop :=
  a s = a' s ∧ ((a s).1 = Returned → good (a s).2 ∧ extends s (a s).2).

(** The same on every good state with the property [Q]. *)
Definition steps_ok (Q : state → Prop) (a a' : run) : Prop :=
  ∀ s, good s → Q s → run_ok a a' s.

Definition stable (Q : state → Prop) : Prop :=
  ∀ s s', Q s → extends s s' → Q s'.

(** The free store only grows, and the input stays as it is. *)
Definition grows (s s' : state) : Prop :=
  heap s `prefix_of` heap s' ∧ n s' = n s ∧ points s' = points s.

(** ** What the builder keeps on inputs with dense identifiers *)

(** A facet of the hull set: three identifiers of the input, in increasing
    order. *)
Definition facet_ok (bound : point_id) (f : tri) : Prop :=
  (0 ≤ f.1.1 ∧ f.1.1 < f.1.2 ∧ f.1.2 < f.2 ∧ f.2 < bound)%Z.

Definition hull_ok (s : state) : Prop :=
  ∀ j, j < m (convex_hull s) → taken (R (convex_hull s) !!! j) = true →
       facet_ok (n s) (key (R (convex_hull s) !!! j)).

Definition sound (s : state) : Prop :=
  good s ∧ MapSpec.linked (map_facets s) ∧ MapSpec.wf (convex_hull s) ∧ hull_ok s.

(** The entries of the ridge map of [s'] are those of [s], or new ones
    whose key and value satisfy [Q]. *)
Definition news (Q : edge → triangle_ptr → Prop) (s s' : state) : Prop :=
  m (map_facets s') = m (map_facets s)
  ∧ ∀ j, j < m (map_facets s) → taken (R (map_facets s') !!! j) = true →
      (taken (R (map_facets s) !!! j) = true
       ∧ key (R (map_facets s') !!! j) = key (R (map_facets s) !!! j)
       ∧ value (R (map_facets s') !!! j) = value (R (map_facets s) !!! j))
      ∨ Q (key (R (map_facets s') !!! j)) (value (R (map_facets s') !!! j)).

Definition step (Q : edge → triangle_ptr → Prop) (s s' : state) : Prop :=
  sound s' ∧ extends s s' ∧ news Q s s'.

(** A bound on the depth of the calls below [process_ridge(t1, r, t2)]:
    the smaller of the two priorities grows with every second call. *)
Definition depth (s : state) (t1 t2 : triangle_ptr) : nat :=
  2 * Z.to_nat (n s - Z.min (min_conflicts s t1) (min_conflicts s t2))
  + (if (min_conflicts s t2 <? min_conflicts s t1)%Z then 2 else 1).

(** The run [a] from [s] does not throw; it does not run out of fuel when
    [enough] holds; and when it returns, [Post] holds of the final state. *)
Definition safe (enough : Prop) (a : run) (s : state) (Post : state → Prop) : Prop :=
  (a s).1 ≠ BadOptionalAccess
  ∧ (enough → (a s).1 ≠ OutOfFuel)
  ∧ ((a s).1 = Returned → Post (a s).2).

(** The contract of [process_ridge] with the fuel [fuel]. *)
Definition ridge_safe (fuel : nat) (rec : triangle_ptr → edge → triangle_ptr → run)
  : Prop :=
  ∀ t1 r t2 s, sound s → ridge_ok s t1 r t2 → (0 ≤ r.1)%Z →
    safe (depth s t1 t2 ≤ fuel) (rec t1 r t2) s
         (step (λ _ v, length (heap s) ≤ v) s).

End spec.

(** ** General position *)




End HullSpec.

(** Inputs to run the hull builder on.  The hash functions are arbitrary
    ones. *)
Module HullExamples.
Import Convex_Hull_3d.

Definition hash_edge (e : edge) : nat := Z.to_nat (e.1 * 31 + e.2).
Definition hash_tri (f : tri) : nat := Z.to_nat (f.1.1 * 961 + f.1.2 * 31 + f.2).

Definition points_of (ids : list Z) (xyz : list (Z * Z * Z)) : list (point ZOps) :=
  zip_with (λ i '(a, b, c), @Point ZOps i a b c) ids xyz.

(** A tetrahedron. *)
Definition P4 : list (point ZOps) :=
  points_of [0; 1; 2; 3]%Z [(0, 0, 0); (10, 0, 0); (0, 10, 0); (0, 0, 10)]%Z.

(** Six points in general position, identifiers in order. *)
Definition xyz6 : list (Z * Z * Z) :=
  [(0, 0, 0); (10, 0, 0); (0, 10, 0); (0, 0, 10); (9, 8, 7); (-3, -4, -5)]%Z.
Definition P6 : list (point ZOps) := points_of [0; 1; 2; 3; 4; 5]%Z xyz6.

(** The state after the set-up of the constructor on [P6] (with no fuel the
    first [process_ridge] stops at once): the seed records 2 and 3 both
    have the conflict list [[5]]. *)
Definition seeded6 : state :=
  Eval vm_compute in (construct hash_edge hash_tri 0 P6).2.

(** Six points in general position whose last two identifiers are out of
    order. *)
Definition xyz_swapped : list (Z * Z * Z) :=
  [(4, 6, 8); (4, 1, 5); (4, 0, 5); (3, 3, 3); (0, 4, 9); (2, 5, 4)]%Z.
Definition Pswapped : list (point ZOps) :=
  points_of [0; 1; 2; 3; 5; 4]%Z xyz_swapped.

Definition machine_points_of (ids : list Z) (xyz : list (Z * Z * Z))
  : list (point FltOps) :=
  zip_with (λ i '(a, b, c), @Point FltOps i a b c) ids xyz.

(** An empty builder state, and the state after [check_edge({5, 4}, 0)]:
    the ridge map holds record 0 under the key [{4, 5}]. *)
Definition empty6 : state := init_state hash_edge hash_tri P6.
Definition one_edge : state :=
  Eval vm_compute in (check_edge (process_ridge 1) (5, 4)%Z 0 empty6).2.

End HullExamples.

(** * The example applications of [benchmark/bench_examples.cpp] *)

Module Bench.

(** ** The runtime's primitives *)

(** [parlay::monoid]: a combining function and the value for the empty
    sequence. *)
Record monoid (T : Type) : Type := Monoid { f : T → T → T; identity : T }.
Arguments Monoid {T} f identity.
Arguments f {T} _ _ _.
Arguments identity {T} _.

(** Modelled from the spec: [parlay::dseq n g], a delayed sequence, is the
    sequence [g 0, ..., g (n-1)]. *)
Definition dseq {T : Type} (n : nat) (g : nat → T) : list T := g <$> seq 0 n.

(** Modelled from the spec: [parlay::reduce] is the runtime's parallel
    reduce with a monoid.  It combines the elements in their order, grouped
    in a way the runtime chooses, and returns the identity for an empty
    sequence.  [grouped mo l x]: [x] is the result of one such grouping of
    [l]. *)
Inductive grouped {T : Type} (mo : monoid T) : list T → T → Prop :=
| grouped_nil : grouped mo [] (identity mo)
| grouped_one x : grouped mo [x] x
| grouped_split l1 l2 x1 x2 :
    l1 ≠ [] → l2 ≠ [] → grouped mo l1 x1 → grouped mo l2 x2 →
    grouped mo (l1 ++ l2) (f mo x1 x2).

(** The reduce that goes through the sequence from left to right. *)
Definition reduce_serial (T : Type) (l : list T) (mo : monoid T) : T :=
  match l with
  | [] => identity mo
  | x :: l' => foldl (f mo) x l'
  end.

(** Modelled from the spec: [parlay::pack_index] is the runtime's stream
    compaction on indices; it returns, in increasing order, the indices
    whose flag is set. *)
Fixpoint pack_index_from (i : nat) (flags : list bool) : list nat :=
  match flags with
  | [] => []
  | b :: flags' =>
      if b then i :: pack_index_from (S i) flags' else pack_index_from (S i) flags'
  end.
Definition pack_index (flags : list bool) : list nat := pack_index_from 0 flags.

(** [parlay::pair_monoid] and [parlay::addm<size_t>]. *)
Definition addm : monoid nat := Monoid Nat.add 0.
Definition pair_monoid {A B : Type} (ma : monoid A) (mb : monoid B) : monoid (A * B) :=
  Monoid (λ a b, (f ma a.1 b.1, f mb a.2 b.2)) (identity ma, identity mb).

(** ** Word count *)

(** Characters are their codes.  [std::isspace] in the "C" locale holds of
    the space (32) and of [\t], [\n], [\v], [\f], [\r] (9 to 13). *)
Definition char : Type := Z.
Definition newline : char := 10%Z.
Definition isspace (c : char) : bool :=
  ((9 <=? c) && (c <=? 13) || (c =? 32))%Z.

(** The conversion of a [bool] to [size_t]. *)
Definition of_bool (b : bool) : nat := if b then 1 else 0.

Section apps.

(** The reduce of the runtime. *)
Variable reduce : ∀ T : Type, list T → monoid T → T.

(** [wc]: the numbers of line breaks, of words and of characters.  The
    counters are [size_t]; none exceeds the length of the sequence. *)
Definition wc (s : list char) : nat * nat * nat :=
  let f := dseq (length s) (λ i,
    let is_line_break := bool_decide (s !!! i = newline) in
    let word_start :=
      (bool_decide (i = 0) || isspace (s !!! (i - 1))) && negb (isspace (s !!! i)) in
    (of_bool is_line_break, of_bool word_start)) in
  let m := pair_monoid addm addm in
  let r := reduce _ f m in
  (r.1, r.2, length s).

(** ** Maximum contiguous subsequence sum *)

(** The element type [T] of [mcss] is [int] in [bench_mcss], its one use:
    32 bits in two's complement.  [wrap z] is the value of the type that
    differs from [z] by a multiple of 2^32, which is what the addition of
    the machine leaves when a sum does not fit. *)
Definition int_min : Z := (-2147483648)%Z.
Definition int_max : Z := 2147483647%Z.
Definition wrap (z : Z) : Z := ((z + 2147483648) mod 4294967296 - 2147483648)%Z.
Definition add_int (a b : Z) : Z := wrap (a + b).

(** The combining function of [mcss] on tuples (best, best prefix, best
    suffix, total), as the source has it. *)
Definition mcss_f (a b : Z * Z * Z * Z) : Z * Z * Z * Z :=
  let '(aa, pa, sa, ta) := a in
  let '(ab, pb, sb, tb) := b in
  (Z.max aa (Z.max ab (add_int sa pb)),
   Z.max pa (add_int ta pb),
   Z.max (add_int sa ab) sb,
   add_int ta tb).

(** [mcss] on a sequence of [int]s. *)
Definition mcss (A : list Z) : Z :=
  let S := dseq (length A) (λ i, (A !!! i, A !!! i, A !!! i, A !!! i)) in
  let m := Monoid mcss_f (0, 0, 0, 0)%Z in
  let r := reduce _ S m in
  r.1.1.1.

End apps.

(** ** Prime sieve *)

(** The two nested loops: for every prime [p] of [primes_sqrt] and every
    [j] in [[2, n / p + 1)] the flag [p * j] is cleared.  All writes store
    [false], so their order does not matter. *)
Definition sieve_out (n : nat) (primes_sqrt : list nat) (flags : list bool) : list bool :=
  foldl (λ flags prime,
           foldl (λ flags j, <[prime * j := false]> flags) flags
                 (seq 2 (n / prime + 1 - 2)))
        flags primes_sqrt.

(** [prime_sieve] with the recursion on [sqrt n] unrolled [fuel] times.
    [Int] is an unsigned type; no value computed exceeds [n + 1].
    [std::sqrt] rounded down to [Int] is the integer square root. *)
Fixpoint prime_sieve_rec (fuel : nat) (n : nat) : res (list nat) :=
  match fuel with
  | 0 => Spin
  | S fuel' =>
      if n <? 2 then Val []
      else
        let sqrt := Nat.sqrt n in
        match prime_sieve_rec fuel' sqrt with
        | Spin => Spin
        | Val primes_sqrt =>
            let flags := replicate (n + 1) true in
            let flags := <[0 := false]> (<[1 := false]> flags) in
            Val (pack_index (sieve_out n primes_sqrt flags))
        end
  end.

(** The recursion ends after fewer than [n + 1] calls, since [sqrt n < n]
    from 2 on. *)
Definition prime_sieve (n : nat) : res (list nat) := prime_sieve_rec (S n) n.

End Bench.

(** Vocabulary of the properties of the example applications. *)
Module BenchSpec.
Import Bench.

(** The words of a text: its maximal runs of characters that are not
    spaces.  [cur] holds, last character first, the word being read. *)
Fixpoint split_words (cur : list char) (s : list char) : list (list char) :=
  match s with
  | [] => match cur with [] => [] | _ => [reverse cur] end
  | c :: s' =>
      if isspace c then
        match cur with
        | [] => split_words [] s'
        | _ => reverse cur :: split_words [] s'
        end
      else split_words (c :: cur) s'
  end.
Definition words (s : list char) : list (list char) := split_words [] s.

Definition line_breaks (s : list char) : list char := filter (λ c, c = newline) s.

(** What the delayed sequence of [wc] holds, read off the text from left
    to right; [prev] tells whether a word may start at the first
    character. *)
Fixpoint marks (prev : bool) (s : list char) : list (nat * nat) :=
  match s with
  | [] => []
  | c :: s' =>
      (of_bool (bool_decide (c = newline)), of_bool (prev && negb (isspace c)))
        :: marks (isspace c) s'
  end.

(** Prime numbers. *)
Definition is_prime (p : nat) : Prop :=
  2 ≤ p ∧ ∀ d, 2 ≤ d → d < p → ¬ (d | p).

(** Sums of contiguous runs. *)
Definition sum (l : list Z) : Z := foldr Z.add 0%Z l.

(** [v] is the sum of a run of [A] that is not empty. *)
Definition run_sum (A : list Z) (v : Z) : Prop :=
  ∃ i len, 0 < len ∧ i + len ≤ length A ∧ v = sum (take len (drop i A)).

Definition max_run_sum (A : list Z) (v : Z) : Prop :=
  run_sum A v ∧ ∀ w, run_sum A w → (w ≤ v)%Z.

(** The values of [int], and the sum of the magnitudes of a sequence. *)
Definition in_int (z : Z) : Prop := (int_min ≤ z ≤ int_max)%Z.
Definition sum_abs (l : list Z) : Z := sum (Z.abs <$> l).

(** The combining function of [mcss] on integers without a bound. *)
Definition combine (a b : Z * Z * Z * Z) : Z * Z * Z * Z :=
  let '(aa, pa, sa, ta) := a in
  let '(ab, pb, sb, tb) := b in
  (Z.max aa (Z.max ab (sa + pb)),
   Z.max pa (ta + pb),
   Z.max (sa + ab) sb,
   ta + tb)%Z.

(** The four components lie between [-B] and [B]. *)
Definition within (B : Z) (x : Z * Z * Z * Z) : Prop :=
  let '(a, p, s, t) := x in
  (-B ≤ a ≤ B ∧ -B ≤ p ≤ B ∧ -B ≤ s ≤ B ∧ -B ≤ t ≤ B)%Z.

(** A tuple of [mcss] that bounds the sums of the prefixes, of the suffixes
    and of the runs of [l], with the exact total. *)
Definition covers (l : list Z) (x : Z * Z * Z * Z) : Prop :=
  let '(a, p, s, t) := x in
  t = sum l
  ∧ (∀ k, 0 < k → k ≤ length l → (sum (take k l) ≤ p)%Z)
  ∧ (∀ k, k < length l → (sum (drop k l) ≤ s)%Z)
  ∧ (∀ i len, 0 < len → i + len ≤ length l → (sum (take len (drop i l)) ≤ a)%Z).

(** The same with bounds that are attained. *)
Definition exact (l : list Z) (x : Z * Z * Z * Z) : Prop :=
  let '(a, p, s, t) := x in
  covers l x
  ∧ (∃ k, 0 < k ∧ k ≤ length l ∧ p = sum (take k l))
  ∧ (∃ k, k < length l ∧ s = sum (drop k l))
  ∧ run_sum l a.

(** The sequence that [mcss] reduces, and its monoid. *)
Definition tuple_of (a : Z) : Z * Z * Z * Z := (a, a, a, a).
Definition mcss_monoid : monoid (Z * Z * Z * Z) := Monoid mcss_f (0, 0, 0, 0)%Z.

(** The flags that the loops of [prime_sieve] clear. *)
Definition multiples (n : nat) (primes_sqrt : list nat) : list nat :=
  primes_sqrt ≫= λ prime, (λ j, prime * j) <$> seq 2 (n / prime + 1 - 2).

End BenchSpec.

(** * Properties of the hash map *)

Module MapFacts.
Import convex_hash_map MapSpec.
Section facts.
Context {K V : Type} `{!EqDecision K, !EqDecision V, !Inhabited K, !Inhabited V}.
Implicit Types (M : t K V) (k : K) (v : V) (e : entry K V).

Lemma mod_lt_twice (a b : nat) :
  0 < b → a < 2 * b → a mod b = if decide (a < b) then a else a - b.
Proof.
  intros Hb Ha. case_decide as Hlt.
  - by apply Nat.mod_small.
  - symmetry. apply (Nat.mod_unique a b 1); lia.
Qed.

Lemma probe_lt M i d : 0 < m M → probe M i d < m M.
Proof. intros. apply Nat.mod_upper_bound. lia. Qed.

Lemma probe_0 M i : i < m M → probe M i 0 = i.
Proof. intros. unfold probe. rewrite Nat.add_0_r. by apply Nat.mod_small. Qed.

Lemma next_index_mod M i : i < m M → next_index M i = (i + 1) mod m M.
Proof.
  intros Hi. unfold next_index. case_decide as Hm.
  - rewrite Hm. symmetry. apply Nat.Div0.mod_same.
  - symmetry. apply Nat.mod_small. lia.
Qed.

Lemma next_index_lt M i : i < m M → next_index M i < m M.
Proof. intros Hi. unfold next_index. case_decide; lia. Qed.

Lemma start_index_lt M k : 0 < m M → start_index M k < m M.
Proof. intros. apply Nat.mod_upper_bound. lia. Qed.

Lemma probe_next M i d : i < m M → probe M (next_index M i) d = probe M i (S d).
Proof.
  intros Hi. unfold probe. rewrite next_index_mod by done.
  rewrite Nat.Div0.add_mod_idemp_l. f_equal. lia.
Qed.

Lemma probe_small M i d :
  i < m M → d < m M →
  probe M i d = if decide (i + d < m M) then i + d else i + d - m M.
Proof. intros. unfold probe. apply mod_lt_twice; lia. Qed.

Lemma probe_inj M i d1 d2 :
  i < m M → d1 < m M → d2 < m M → probe M i d1 = probe M i d2 → d1 = d2.
Proof.
  intros Hi H1 H2. rewrite !probe_small by done.
  repeat case_decide; lia.
Qed.

Lemma probe_surj M i j :
  i < m M → j < m M → ∃ d, d < m M ∧ probe M i d = j.
Proof.
  intros Hi Hj. destruct (decide (i ≤ j)).
  - exists (j - i). split; [lia|]. rewrite probe_small by lia. case_decide; lia.
  - exists (j + m M - i). split; [lia|]. rewrite probe_small by lia. case_decide; lia.
Qed.

Lemma probe_wrap M i : i < m M → probe M i (m M) = i.
Proof.
  intros Hi. unfold probe.
  replace (i + m M) with (i + 1 * m M) by lia.
  rewrite Nat.Div0.mod_add. by apply Nat.mod_small.
Qed.

(** The least distance at which a decidable property holds. *)
Lemma least_or_none (P : nat → bool) (n : nat) :
  (∀ d, d < n → P d = false)
  ∨ ∃ d, d < n ∧ P d = true ∧ ∀ d', d' < d → P d' = false.
Proof.
  induction n as [|n [IH|(d & ? & ? & ?)]].
  - left. lia.
  - destruct (P n) eqn:E.
    + right. exists n. split_and!; [lia|done|]. intros. apply IH. lia.
    + left. intros d Hd. destruct (decide (d = n)) as [->|]; [done|]. apply IH. lia.
  - right. exists d. split_and!; [lia|done..].
Qed.

Lemma least_below (P : nat → bool) (n : nat) :
  (∃ d, d < n ∧ P d = true) →
  ∃ d, d < n ∧ P d = true ∧ ∀ d', d' < d → P d' = false.
Proof.
  intros (d & Hd & HP). destruct (least_or_none P n) as [Hno|?]; [|done].
  rewrite Hno in HP; done.
Qed.

Lemma next_probe M i d : 0 < m M → next_index M (probe M i d) = probe M i (S d).
Proof.
  intros Hm. rewrite next_index_mod by by apply probe_lt.
  unfold probe. rewrite Nat.Div0.add_mod_idemp_l. f_equal. lia.
Qed.

Lemma probe_S_back M i d : i < m M → d < m M → probe M i (S d) = i ↔ S d = m M.
Proof.
  intros Hi Hd. split.
  - intros Heq. destruct (decide (S d = m M)); [done|].
    rewrite <-(probe_0 M i) in Heq at 2 by done.
    apply probe_inj in Heq; lia.
  - intros ->. by apply probe_wrap.
Qed.

Lemma first_stop_next M stop i d :
  i < m M → first_stop M stop i (S d) → first_stop M stop (next_index M i) d.
Proof.
  intros Hi [Hs Hb]. split.
  - by rewrite probe_next.
  - intros d' Hd'. rewrite probe_next by done. apply Hb. lia.
Qed.

Lemma first_stop_here M stop i d :
  i < m M → first_stop M stop i (S d) → stop (R M !!! i) = false.
Proof. intros Hi [_ Hb]. rewrite <-(probe_0 M i) by done. apply Hb. lia. Qed.

Lemma first_stop_0 M stop i :
  i < m M → first_stop M stop i 0 → stop (R M !!! i) = true.
Proof. intros Hi [Hs _]. by rewrite probe_0 in Hs. Qed.

Lemma first_stop_exists M stop i :
  i < m M → (∃ j, j < m M ∧ stop (R M !!! j) = true) →
  ∃ d, d < m M ∧ first_stop M stop i d.
Proof.
  intros Hi (j & Hj & Hs).
  destruct (probe_surj M i j Hi Hj) as (d & Hd & <-).
  destruct (least_below (λ d, stop (R M !!! probe M i d)) (m M)) as (D & ? & ? & ?).
  { by exists d. }
  exists D. by repeat split.
Qed.

(** ** The scans, by the first slot at which they stop *)

Lemma get_value_loop_first M k v i fuel d :
  i < m M → d < fuel → first_stop M (stop_get_value k v) i d →
  get_value_loop fuel M k v i
  = Val (let e := R M !!! probe M i d in
         if taken e then Some (value e) else None).
Proof.
  revert i fuel. induction d as [|d IH]; intros i fuel Hi Hf Hfs;
    (destruct fuel as [|fuel]; [lia|]); simpl.
  - apply first_stop_0 in Hfs; [|done]. rewrite probe_0 by done.
    unfold stop_get_value in Hfs.
    destruct (taken (R M !!! i)); simpl in *; [|done]. by rewrite Hfs.
  - pose proof (first_stop_here _ _ _ _ Hi Hfs) as Hh.
    unfold stop_get_value in Hh.
    destruct (taken (R M !!! i)); simpl in *; [|done]. rewrite Hh.
    rewrite (IH (next_index M i)); [|by apply next_index_lt|lia|by apply first_stop_next].
    by rewrite probe_next.
Qed.

Lemma get_value_loop_spin M k v i fuel :
  i < m M →
  (∀ d, d < fuel → stop_get_value k v (R M !!! probe M i d) = false) →
  get_value_loop fuel M k v i = Spin.
Proof.
  revert i. induction fuel as [|fuel IH]; intros i Hi Hno; [done|]. simpl.
  pose proof (Hno 0 ltac:(lia)) as Hh. rewrite probe_0 in Hh by done.
  unfold stop_get_value in Hh.
  destruct (taken (R M !!! i)); simpl in *; [|done]. rewrite Hh.
  apply IH; [by apply next_index_lt|].
  intros d Hd. rewrite probe_next by done. apply Hno. lia.
Qed.

Lemma remove_loop_first M k i fuel d :
  i < m M → d < fuel → first_stop M (stop_remove k) i d →
  remove_loop fuel M k i
  = Val (let e := R M !!! probe M i d in
         if taken e
         then (true, set_R M (<[probe M i d := set_removed e]> (R M)))
         else (false, M)).
Proof.
  revert i fuel. induction d as [|d IH]; intros i fuel Hi Hf Hfs;
    (destruct fuel as [|fuel]; [lia|]); simpl.
  - apply first_stop_0 in Hfs; [|done]. rewrite probe_0 by done.
    unfold stop_remove in Hfs.
    destruct (taken (R M !!! i)); simpl in *; [|done]. by rewrite Hfs.
  - pose proof (first_stop_here _ _ _ _ Hi Hfs) as Hh.
    unfold stop_remove in Hh.
    destruct (taken (R M !!! i)); simpl in *; [|done]. rewrite Hh.
    rewrite (IH (next_index M i)); [|by apply next_index_lt|lia|by apply first_stop_next].
    by rewrite probe_next.
Qed.

Lemma remove_loop_spin M k i fuel :
  i < m M →
  (∀ d, d < fuel → stop_remove k (R M !!! probe M i d) = false) →
  remove_loop fuel M k i = Spin.
Proof.
  revert i. induction fuel as [|fuel IH]; intros i Hi Hno; [done|]. simpl.
  pose proof (Hno 0 ltac:(lia)) as Hh. rewrite probe_0 in Hh by done.
  unfold stop_remove in Hh.
  destruct (taken (R M !!! i)); simpl in *; [|done]. rewrite Hh.
  apply IH; [by apply next_index_lt|].
  intros d Hd. rewrite probe_next by done. apply Hno. lia.
Qed.

Lemma claim_loop_first M start fuel d0 d :
  start < m M → d0 ≤ d → d < m M → m M ≤ d0 + fuel →
  (∀ d', d0 ≤ d' → d' < d → taken (R M !!! probe M start d') = true) →
  taken (R M !!! probe M start d) = false →
  claim_loop fuel M start (probe M start d0) = Val (Some (probe M start d)).
Proof.
  intros Hs. revert d0. induction fuel as [|fuel IH]; intros d0 H0 Hd Hf Hb Hfree; [lia|].
  simpl. destruct (decide (d0 = d)) as [->|Hne].
  - by rewrite Hfree.
  - rewrite Hb by lia. rewrite next_probe by lia. case_decide as Hback.
    + apply probe_S_back in Hback; lia.
    + apply IH; [lia..| |done]. intros. apply Hb; lia.
Qed.

Lemma claim_loop_full M start fuel d0 :
  start < m M → d0 < m M → m M ≤ d0 + fuel →
  (∀ d', d0 ≤ d' → d' < m M → taken (R M !!! probe M start d') = true) →
  claim_loop fuel M start (probe M start d0) = Val None.
Proof.
  intros Hs. revert d0. induction fuel as [|fuel IH]; intros d0 H0 Hf Hb; [lia|].
  simpl. rewrite Hb by lia. rewrite next_probe by lia. case_decide as Hback; [done|].
  apply IH; [|lia|].
  - destruct (decide (S d0 = m M)) as [Heq|]; [|lia].
    exfalso. apply Hback. by apply probe_S_back.
  - intros. apply Hb; lia.
Qed.

(** The claiming loop always leaves within [m] steps: with a free slot it
    stops at the first one on the chain, without it reports the overfull
    table. *)
Lemma claim_loop_total M start :
  start < m M →
  (∃ d, d < m M ∧ first_stop M stop_claim start d
        ∧ claim_loop (m M) M start start = Val (Some (probe M start d)))
  ∨ (full M ∧ claim_loop (m M) M start start = Val None).
Proof.
  intros Hs.
  destruct (least_or_none (λ d, stop_claim (R M !!! probe M start d)) (m M))
    as [Hno|(d & Hd & Hst & Hb)].
  - right. assert (∀ d, d < m M → taken (R M !!! probe M start d) = true) as Hall.
    { intros d Hd. specialize (Hno d Hd). unfold stop_claim in Hno.
      by destruct (taken _). }
    split.
    + intros j Hj. destruct (probe_surj M start j Hs Hj) as (d & Hd & <-). by apply Hall.
    + rewrite <-(probe_0 M start) at 2 by done.
      apply claim_loop_full; [done|lia|lia|]. intros. by apply Hall.
  - left. exists d. split_and!; [done|by split|].
    rewrite <-(probe_0 M start) at 2 by done.
    apply claim_loop_first; [done|lia|done|lia| |].
    + intros d' _ Hd'. specialize (Hb d' Hd'). unfold stop_claim in Hb.
      by destruct (taken _).
    + unfold stop_claim in Hst. by destruct (taken _).
Qed.

Lemma wf_set_R M l : wf M → length l = length (R M) → wf (set_R M l).
Proof. intros [? ?] Hl. split; simpl; [congruence|done]. Qed.

Lemma same_but_check_refl M : same_but_check M M.
Proof. by repeat split. Qed.

Lemma same_but_check_trans M1 M2 M3 :
  same_but_check M1 M2 → same_but_check M2 M3 → same_but_check M1 M3.
Proof.
  intros (?&?&?&H12) (?&?&?&H23). split_and!; [congruence..|].
  intros j. destruct (H12 j) as (?&?&?&?), (H23 j) as (?&?&?&?).
  split_and!; congruence.
Qed.

Lemma same_but_check_set M i :
  same_but_check M (set_R M (<[i := set_check (R M !!! i)]> (R M))).
Proof.
  split_and!; simpl; [done|done|by rewrite length_insert|].
  intros j. rewrite list_lookup_total_insert. by case_decide as H; [destruct H as [-> _]|].
Qed.

(** The verification scan stops at the first slot that is free or holds the
    key with its flag set; on the way it sets the flag of every slot that
    holds the key. *)
Lemma verify_loop_first M k i fuel d :
  wf M → i < m M → d < m M → d < fuel → first_stop M (stop_verify k) i d →
  ∃ M', verify_loop fuel M k i = Val (negb (taken (R M !!! probe M i d)), M')
        ∧ same_but_check M M'
        ∧ ∀ j, j < m M →
            check (R M' !!! j) = true ↔
            check (R M !!! j) = true
            ∨ ∃ d', d' < d ∧ probe M i d' = j ∧ key (R M !!! j) = k.
Proof.
  revert M i fuel. induction d as [|d IH]; intros M i fuel Hwf Hi Hd Hf Hfs;
    (destruct fuel as [|fuel]; [lia|]); simpl.
  - apply first_stop_0 in Hfs; [|done]. rewrite probe_0 by done.
    unfold stop_verify in Hfs. exists M.
    split; [|split; [apply same_but_check_refl|]].
    + destruct (taken (R M !!! i)); simpl in *; [|done].
      apply andb_true_iff in Hfs as [Hk Hc]. apply bool_decide_eq_true in Hk.
      rewrite decide_True by done. by rewrite Hc.
    + intros j Hj. split; [by left|]. intros [?|(d' & ? & _)]; [done|lia].
  - pose proof (first_stop_here _ _ _ _ Hi Hfs) as Hh.
    unfold stop_verify in Hh.
    destruct (taken (R M !!! i)) eqn:Ht; simpl in Hh; [|done].
    destruct Hwf as [Hlen Hm].
    case_decide as Hk.
    + rewrite bool_decide_true in Hh by done. simpl in Hh. rewrite Hh.
      pose (M1 := set_R M (<[i := set_check (R M !!! i)]> (R M))).
      assert (∀ j, j ≠ i → R M1 !!! j = R M !!! j) as Hother.
      { intros j Hj. simpl. by rewrite list_lookup_total_insert_ne. }
      assert (R M1 !!! i = set_check (R M !!! i)) as Hat.
      { simpl. rewrite list_lookup_total_insert_eq; [done|lia]. }
      assert (∀ j, key (R M1 !!! j) = key (R M !!! j)) as Hkey.
      { intros j. apply (same_but_check_set M i). }
      assert (∀ a b, probe M1 a b = probe M a b) as Hp by done.
      assert (∀ d', d' ≤ d → probe M i (S d') ≠ i) as Hfar.
      { intros d' Hd' Heq. apply probe_S_back in Heq; lia. }
      assert (wf M1) as Hwf1.
      { split; simpl; [by rewrite length_insert|done]. }
      destruct (IH M1 (next_index M i) fuel) as (M' & Hrun & Hsame & Hchk);
        [done|change (m M1) with (m M); by apply next_index_lt
        |change (m M1) with (m M); lia|lia| |].
      { destruct Hfs as [Hs Hb]. split.
        - rewrite Hp, probe_next by done. rewrite Hother by (apply Hfar; lia). done.
        - intros d' Hd'. rewrite Hp, probe_next by done.
          rewrite Hother by (apply Hfar; lia). apply Hb. lia. }
      exists M'. split_and!.
      * fold M1. change (next_index M i) with (next_index M1 i). 
        change (next_index M1 i) with (next_index M i).
        rewrite Hrun. rewrite Hp, probe_next by done.
        by rewrite Hother by (apply Hfar; lia).
      * eapply same_but_check_trans; [apply same_but_check_set|done].
      * intros j Hj. rewrite (Hchk j Hj). setoid_rewrite Hp. setoid_rewrite Hkey.
        destruct (decide (j = i)) as [->|Hne].
        -- rewrite Hat. simpl. split; [|by left].
           intros _. right. exists 0. split_and!; [lia|by apply probe_0|done].
        -- rewrite Hother by done. split.
           ++ intros [?|(d' & ? & Hp' & ?)]; [by left|]. right. exists (S d').
              split_and!; [lia| |done]. by rewrite <-probe_next.
           ++ intros [?|(d' & ? & Hp' & ?)]; [by left|]. right.
              destruct d' as [|d']; [rewrite probe_0 in Hp' by done; congruence|].
              exists d'. split_and!; [lia| |done]. by rewrite probe_next.
    + rewrite bool_decide_false in Hh by done.
      destruct (IH M (next_index M i) fuel) as (M' & Hrun & Hsame & Hchk).
      { done. } { by apply next_index_lt. } { lia. } { lia. }
      { by apply first_stop_next. }
      exists M'. split_and!; [|done|].
      * rewrite Hrun. by rewrite probe_next.
      * intros j Hj. rewrite Hchk by done. split.
        -- intros [?|(d' & ? & Hp & ?)]; [by left|]. right. exists (S d').
           split_and!; [lia| |done]. by rewrite <-probe_next.
        -- intros [?|(d' & ? & Hp & ?)]; [by left|]. right.
           destruct d' as [|d']; [rewrite probe_0 in Hp by done; congruence|].
           exists d'. split_and!; [lia| |done]. by rewrite probe_next.
Qed.

(** ** What a scan that returns leaves behind *)

Lemma verify_loop_same M k i fuel b M' :
  verify_loop fuel M k i = Val (b, M') → same_but_check M M'.
Proof.
  revert M i. induction fuel as [|fuel IH]; intros M i; simpl; [done|].
  destruct (taken (R M !!! i)); [|intros [= _ <-]; apply same_but_check_refl].
  case_decide; [|by apply IH].
  destruct (check (R M !!! i)); [intros [= _ <-]; apply same_but_check_refl|].
  intros Hrun. apply IH in Hrun.
  eapply same_but_check_trans; [apply same_but_check_set|done].
Qed.

Lemma verify_loop_true_room M k i fuel M' :
  i < m M → verify_loop fuel M k i = Val (true, M') → has_room M'.
Proof.
  revert M i. induction fuel as [|fuel IH]; intros M i Hi; simpl; [done|].
  destruct (taken (R M !!! i)) eqn:Ht; [|intros [= <-]; by exists i].
  case_decide; [|by apply IH, next_index_lt].
  destruct (check (R M !!! i)); [done|].
  intros Hrun. eapply IH; [|exact Hrun]. simpl. by apply (next_index_lt M).
Qed.

Lemma same_but_check_wf M M' : same_but_check M M' → wf M → wf M'.
Proof. intros (Hm & _ & Hl & _) [? ?]. split; congruence. Qed.

Lemma same_but_check_room M M' : same_but_check M M' → has_room M → has_room M'.
Proof.
  intros (Hm & _ & _ & Hs) (j & ? & ?). exists j. rewrite Hm.
  destruct (Hs j) as (-> & _). done.
Qed.

Lemma same_but_removed_wf M M' : same_but_removed M M' → wf M → wf M'.
Proof. intros (Hm & _ & Hl & _) [? ?]. split; congruence. Qed.

Lemma same_but_removed_room M M' : same_but_removed M M' → has_room M → has_room M'.
Proof.
  intros (Hm & _ & _ & Hs) (j & ? & ?). exists j. rewrite Hm.
  destruct (Hs j) as (-> & _). done.
Qed.

Lemma same_but_removed_refl M : same_but_removed M M.
Proof. by repeat split. Qed.

Lemma same_but_removed_set M i :
  same_but_removed M (set_R M (<[i := set_removed (R M !!! i)]> (R M))).
Proof.
  split_and!; simpl; [done|done|by rewrite length_insert|].
  intros j. rewrite list_lookup_total_insert. by case_decide as H; [destruct H as [-> _]|].
Qed.

Lemma remove_loop_same M k i fuel b M' :
  remove_loop fuel M k i = Val (b, M') → same_but_removed M M'.
Proof.
  revert i. induction fuel as [|fuel IH]; intros i; simpl; [done|].
  destruct (negb (taken (R M !!! i))); [intros [= _ <-]; apply same_but_removed_refl|].
  destruct (negb (removed (R M !!! i)) && bool_decide (key (R M !!! i) = k));
    [intros [= _ <-]; apply same_but_removed_set|apply IH].
Qed.

Lemma room_stop M (stop : entry K V → bool) :
  (∀ e, taken e = false → stop e = true) → has_room M →
  ∃ j, j < m M ∧ stop (R M !!! j) = true.
Proof. intros Hst (j & ? & ?). exists j. split; [done|by apply Hst]. Qed.

Lemma room_first_stop M (stop : entry K V → bool) i :
  (∀ e, taken e = false → stop e = true) → has_room M → i < m M →
  ∃ d, d < m M ∧ first_stop M stop i d.
Proof. intros Hst Hroom Hi. apply first_stop_exists; [done|by apply room_stop]. Qed.

Lemma full_no_room M : full M → ¬ has_room M.
Proof. intros Hf (j & Hj & Hfree). rewrite Hf in Hfree; done. Qed.

(** ** [remove] and [get_value], by the first slot at which they stop *)

Lemma remove_first M k d :
  wf M → d < m M → first_stop M (stop_remove k) (start_index M k) d →
  remove k M
  = Val (if taken (slot_of M k d)
         then (true, set_R M (<[probe M (start_index M k) d
                                 := set_removed (slot_of M k d)]> (R M)))
         else (false, M)).
Proof.
  intros [_ Hm] Hd Hfs. unfold remove.
  by rewrite (remove_loop_first M k _ _ d) by (done || by apply start_index_lt).
Qed.

Lemma get_value_first M k v d :
  wf M → d < m M → first_stop M (stop_get_value k v) (start_index M k) d →
  get_value k v M
  = Val (if taken (slot_of M k d) then Some (value (slot_of M k d)) else None).
Proof.
  intros [_ Hm] Hd Hfs. unfold get_value.
  by rewrite (get_value_loop_first M k v _ _ d) by (done || by apply start_index_lt).
Qed.

Lemma remove_returns M k :
  wf M → has_room M → ∃ b M', remove k M = Val (b, M').
Proof.
  intros Hwf Hroom.
  destruct (room_first_stop M (stop_remove k) (start_index M k)) as (d & Hd & Hfs);
    [intros e He; unfold stop_remove; by rewrite He|done|apply start_index_lt, Hwf|].
  rewrite (remove_first M k d) by done. destruct (taken _); eauto.
Qed.

Lemma get_value_returns M k v :
  wf M → has_room M → ∃ r, get_value k v M = Val r.
Proof.
  intros Hwf Hroom.
  destruct (room_first_stop M (stop_get_value k v) (start_index M k)) as (d & Hd & Hfs);
    [intros e He; unfold stop_get_value; by rewrite He|done|apply start_index_lt, Hwf|].
  rewrite (get_value_first M k v d) by done. eauto.
Qed.

Lemma remove_loop_true_inv M k i fuel M' :
  i < m M → remove_loop fuel M k i = Val (true, M') →
  ∃ j, j < m M ∧ taken (R M !!! j) = true ∧ removed (R M !!! j) = false
       ∧ key (R M !!! j) = k
       ∧ M' = set_R M (<[j := set_removed (R M !!! j)]> (R M)).
Proof.
  revert i. induction fuel as [|fuel IH]; intros i Hi; simpl; [done|].
  destruct (taken (R M !!! i)) eqn:Ht; simpl; [|done].
  destruct (removed (R M !!! i)) eqn:Hr; simpl; [by apply IH, next_index_lt|].
  case_bool_decide as Hk; [|by apply IH, next_index_lt].
  intros [= <-]. by exists i.
Qed.

Lemma remove_no_live M k :
  wf M → has_room M → no_live M k → remove k M = Val (false, M).
Proof.
  intros Hwf Hroom Hnl.
  destruct (room_first_stop M (stop_remove k) (start_index M k)) as (d & Hd & Hfs);
    [intros e He; unfold stop_remove; by rewrite He|done|apply start_index_lt, Hwf|].
  rewrite (remove_first M k d) by done.
  destruct Hfs as [Hst _]. fold (slot_of M k d) in Hst. unfold stop_remove in Hst.
  destruct (taken (slot_of M k d)) eqn:Ht; [|done]. simpl in Hst.
  apply andb_true_iff in Hst as [Hr Hk]. apply bool_decide_eq_true in Hk.
  exfalso. apply (Hnl (probe M (start_index M k) d)); [apply probe_lt, Hwf| |done].
  unfold live. fold (slot_of M k d). by rewrite Ht, Hr.
Qed.

(** ** [insert_and_set], by cases *)

Lemma write_slot_at M i k v :
  i < length (R M) →
  R (write_slot M i k v) !!! i
  = Entry true (check (R M !!! i)) (removed (R M !!! i)) k v.
Proof. intros. simpl. by rewrite list_lookup_total_insert_eq. Qed.

Lemma write_slot_other M i j k v :
  j ≠ i → R (write_slot M i k v) !!! j = R M !!! j.
Proof. intros. simpl. by rewrite list_lookup_total_insert_ne. Qed.

Lemma write_slot_wf M i k v : wf M → wf (write_slot M i k v).
Proof. intros [? ?]. split; simpl; [by rewrite length_insert|done]. Qed.

Lemma insert_and_set_inv M k v b out M' :
  wf M → insert_and_set k v M = Val ((b, out), M') →
  (full M ∧ (b, out) = CapacityExceeded ∧ M' = M)
  ∨ ∃ d, d < m M ∧ first_stop M stop_claim (start_index M k) d ∧ out = []
         ∧ same_but_check (write_slot M (probe M (start_index M k) d) k v) M'
         ∧ (b = true → has_room M').
Proof.
  intros Hwf. unfold insert_and_set.
  destruct (claim_loop_total M (start_index M k)) as [(d & Hd & Hfs & ->)|(Hfull & ->)];
    [apply start_index_lt, Hwf| |].
  - destruct (verify_loop _ _ _ _) as [[b' M2]|] eqn:Hv; [|done].
    intros [= -> <- <-]. right. exists d. split_and!; [done..| |].
    + by eapply verify_loop_same.
    + intros ->. eapply verify_loop_true_room; [|exact Hv].
      simpl. apply start_index_lt, Hwf.
  - intros [= <- <- <-]. by left.
Qed.

Lemma slots_Forall M (P : entry K V → Prop) :
  wf M → Forall P (R M) → ∀ j, j < m M → P (R M !!! j).
Proof.
  intros [Hl _] HF j Hj. rewrite Forall_lookup in HF.
  apply (HF j). apply list_lookup_lookup_total_lt. lia.
Qed.

Lemma set_removed_no_live M k j :
  wf M → j < m M →
  (∀ j', j' < m M → j' ≠ j → live (R M !!! j') = true → key (R M !!! j') ≠ k) →
  no_live (set_R M (<[j := set_removed (R M !!! j)]> (R M))) k.
Proof.
  intros [Hl _] Hj Hnl j' Hj'. simpl in *.
  destruct (decide (j' = j)) as [->|Hne].
  - rewrite list_lookup_total_insert_eq by lia. unfold live. simpl.
    by rewrite andb_false_r.
  - rewrite list_lookup_total_insert_ne by done. by apply Hnl.
Qed.

Lemma insert_remove_no_live M k v out M1 M2 :
  wf M → no_live M k →
  insert_and_set k v M = Val ((true, out), M1) →
  remove k M1 = Val (true, M2) →
  wf M2 ∧ has_room M2 ∧ no_live M2 k ∧ same_but_removed M1 M2.
Proof.
  intros Hwf Hnl Hins Hrem.
  apply insert_and_set_inv in Hins as [(_ & [=] & _)|(d & Hd & Hfs & _ & Hsame & Hroom)];
    [|done].
  set (i := probe M (start_index M k) d) in *.
  assert (i < m M) as Hi by apply probe_lt, Hwf.
  pose proof (write_slot_wf M i k v Hwf) as HwfW.
  pose proof (same_but_check_wf _ _ Hsame HwfW) as Hwf1.
  destruct Hsame as (Hm1 & _ & _ & Hs1). simpl in Hm1.
  assert (∀ j, j < m M1 → j ≠ i → live (R M1 !!! j) = true → key (R M1 !!! j) ≠ k)
    as Hnl1.
  { intros j Hj Hne. destruct (Hs1 j) as (Ht & Hr & Hk & _).
    unfold live. rewrite Ht, Hr, Hk. rewrite !write_slot_other by done.
    apply Hnl. lia. }
  unfold remove in Hrem.
  apply remove_loop_true_inv in Hrem as (j & Hj & Ht & Hr & Hk & ->);
    [|apply start_index_lt, Hwf1].
  assert (j = i) as ->.
  { destruct (decide (j = i)); [done|]. exfalso.
    apply (Hnl1 j); [done..| |done]. unfold live. by rewrite Ht, Hr. }
  split_and!.
  - apply wf_set_R; [done|]. by rewrite length_insert.
  - eapply same_but_removed_room; [apply same_but_removed_set|]. by apply Hroom.
  - by apply set_removed_no_live.
  - apply same_but_removed_set.
Qed.

(** C8.  [remove(k)] marks the first claimed, non-removed slot of [k]'s probe
    chain that holds [k] and returns [true]; when the scan reaches an
    unclaimed slot before such a slot, it returns [false] and changes
    nothing.  After a successful [insert_and_set(k, v)] and a successful
    [remove(k)], with no other live entry for [k], a second [remove(k)]
    returns [false]. *)
Theorem remove_marks_first_live M k :
  wf M →
  (∀ d, d < m M →
     (∀ d', d' < d →
        taken (slot_of M k d') = true
        ∧ ¬ (removed (slot_of M k d') = false ∧ key (slot_of M k d') = k)) →
     (taken (slot_of M k d) = true → removed (slot_of M k d) = false →
      key (slot_of M k d) = k →
      remove k M
      = Val (true, set_R M (<[probe M (start_index M k) d
                              := set_removed (slot_of M k d)]> (R M))))
     ∧ (taken (slot_of M k d) = false → remove k M = Val (false, M)))
  ∧ (∀ v out M1 M2,
       no_live M k →
       insert_and_set k v M = Val ((true, out), M1) →
       remove k M1 = Val (true, M2) →
       remove k M2 = Val (false, M2)).
Proof.
  intros Hwf. split.
  - intros d Hd Hbefore.
    assert (∀ d', d' < d → stop_remove k (R M !!! probe M (start_index M k) d') = false)
      as Hb.
    { intros d' Hd'. destruct (Hbefore d' Hd') as [Ht Hn].
      unfold slot_of in *. unfold stop_remove. rewrite Ht. simpl.
      destruct (removed _) eqn:Hr; [done|]. simpl.
      apply bool_decide_eq_false. intros Hk. by apply Hn. }
    split.
    + intros Ht Hr Hk. rewrite (remove_first M k d); [by rewrite Ht|done|done|].
      split; [|done]. fold (slot_of M k d). unfold stop_remove.
      rewrite Ht, Hr. simpl. by apply bool_decide_eq_true.
    + intros Ht. rewrite (remove_first M k d); [by rewrite Ht|done|done|].
      split; [|done]. fold (slot_of M k d). unfold stop_remove. by rewrite Ht.
  - intros v out M1 M2 Hnl Hins Hrem.
    destruct (insert_remove_no_live M k v out M1 M2) as (? & ? & ? & _); [done..|].
    by apply remove_no_live.
Qed.

(** ** [get_value] does not read the [removed] flag *)

Lemma get_value_loop_same_removed M M' k v i fuel :
  same_but_removed M M' →
  get_value_loop fuel M' k v i = get_value_loop fuel M k v i.
Proof.
  intros (Hm & _ & _ & Hs). revert i.
  induction fuel as [|fuel IH]; intros i; simpl; [done|].
  destruct (Hs i) as (-> & _ & -> & ->).
  unfold next_index. rewrite Hm. by rewrite IH.
Qed.

Lemma get_value_same_removed M M' k v :
  same_but_removed M M' → get_value k v M' = get_value k v M.
Proof.
  intros Hs. unfold get_value, start_index.
  destruct Hs as (Hm & Hh & Hl & Hs). rewrite Hm, Hh.
  apply get_value_loop_same_removed. by split_and!.
Qed.

Lemma no_key_no_live M k : ¬ has_key M k → no_live M k.
Proof.
  intros Hno j Hj Hl Hk. apply Hno. exists j. unfold live in Hl.
  apply andb_true_iff in Hl as [Ht _]. done.
Qed.

(** After a winning [insert_and_set(k, x)] into a table without the key, the
    first slot of the chain that holds [k] is the new one. *)
Lemma get_value_after_insert M k x v out M1 :
  wf M → ¬ has_key M k → x ≠ v →
  insert_and_set k x M = Val ((true, out), M1) →
  get_value k v M1 = Val (Some x).
Proof.
  intros Hwf Hno Hxv Hins.
  apply insert_and_set_inv in Hins as [(_ & [=] & _)|(d & Hd & Hfs & _ & Hsame & _)];
    [|done].
  set (i := probe M (start_index M k) d) in *.
  assert (i < m M) as Hi by apply probe_lt, Hwf.
  pose proof (write_slot_wf M i k x Hwf) as HwfW.
  pose proof (same_but_check_wf _ _ Hsame HwfW) as Hwf1.
  destruct Hsame as (Hm1 & Hh1 & _ & Hs1). simpl in Hm1, Hh1.
  assert (start_index M1 k = start_index M k) as Hst.
  { unfold start_index. by rewrite Hm1, Hh1. }
  assert (∀ a b, probe M1 a b = probe M a b) as Hp.
  { intros a b. unfold probe. by rewrite Hm1. }
  assert (slot_of M1 k d = R M1 !!! i) as Hslot.
  { unfold slot_of. by rewrite Hst, Hp. }
  destruct (Hs1 i) as (Hti & _ & Hki & Hvi).
  rewrite write_slot_at in Hti, Hki, Hvi by (destruct Hwf; lia).
  simpl in Hti, Hki, Hvi.
  rewrite (get_value_first M1 k v d); [|done|lia|].
  - by rewrite Hslot, Hti, Hvi.
  - split.
    + rewrite Hst, Hp. fold i. unfold stop_get_value. rewrite Hti, Hki, Hvi. simpl.
      rewrite bool_decide_true by done. by rewrite bool_decide_true.
    + intros d' Hd'. rewrite Hst, Hp.
      assert (probe M (start_index M k) d' ≠ i) as Hne.
      { intros Heq. apply probe_inj in Heq; [lia|apply start_index_lt, Hwf|lia|lia]. }
      destruct (Hs1 (probe M (start_index M k) d')) as (Ht & _ & Hk & _).
      rewrite write_slot_other in Ht, Hk by done.
      unfold stop_get_value. rewrite Ht, Hk.
      destruct Hfs as [_ Hb]. specialize (Hb d' Hd'). unfold stop_claim in Hb.
      destruct (taken (R M !!! probe M (start_index M k) d')) eqn:Htk; [|done]. simpl.
      rewrite bool_decide_false; [done|]. intros Hkk. apply Hno.
      exists (probe M (start_index M k) d'). split_and!; [apply probe_lt, Hwf|done..].
Qed.

(** C7.  [get_value(k, exclude)] goes down [k]'s probe chain through the
    claimed slots and returns the value of the first slot that holds [k]
    with a value other than [exclude]; the [removed] flag is not read: no
    [remove] changes what [get_value] answers, and an entry that [remove(k)]
    has tombstoned (no live entry for [k] is left) is still returned. *)
Theorem get_value_ignores_removed M k v :
  wf M →
  (∀ d, d < m M →
     (∀ d', d' < d →
        taken (slot_of M k d') = true
        ∧ ¬ (key (slot_of M k d') = k ∧ value (slot_of M k d') ≠ v)) →
     (taken (slot_of M k d) = true → key (slot_of M k d) = k →
      value (slot_of M k d) ≠ v →
      get_value k v M = Val (Some (value (slot_of M k d))))
     ∧ (taken (slot_of M k d) = false → get_value k v M = Val None))
  ∧ (∀ k' b M', remove k' M = Val (b, M') → get_value k v M' = get_value k v M)
  ∧ (∀ x out M1 M2,
       ¬ has_key M k → x ≠ v →
       insert_and_set k x M = Val ((true, out), M1) →
       remove k M1 = Val (true, M2) →
       no_live M2 k ∧ get_value k v M2 = Val (Some x)).
Proof.
  intros Hwf. split_and!.
  - intros d Hd Hbefore.
    assert (∀ d', d' < d →
              stop_get_value k v (R M !!! probe M (start_index M k) d') = false) as Hb.
    { intros d' Hd'. destruct (Hbefore d' Hd') as [Ht Hn].
      unfold slot_of in *. unfold stop_get_value. rewrite Ht. simpl.
      apply andb_false_iff.
      destruct (decide (key (R M !!! probe M (start_index M k) d') = k)) as [Hk|Hk].
      - right. apply bool_decide_eq_false. intros Hv. by apply Hn.
      - left. by apply bool_decide_eq_false. }
    split.
    + intros Ht Hk Hv. rewrite (get_value_first M k v d); [by rewrite Ht|done|done|].
      split; [|done]. fold (slot_of M k d). unfold stop_get_value.
      rewrite Ht. simpl. rewrite bool_decide_true by done. by rewrite bool_decide_true.
    + intros Ht. rewrite (get_value_first M k v d); [by rewrite Ht|done|done|].
      split; [|done]. fold (slot_of M k d). unfold stop_get_value. by rewrite Ht.
  - intros k' b M' Hrem. apply get_value_same_removed.
    by eapply remove_loop_same.
  - intros x out M1 M2 Hno Hxv Hins Hrem.
    destruct (insert_remove_no_live M k x out M1 M2) as (_ & _ & Hnl & Hsame);
      [done|by apply no_key_no_live|done..|].
    split; [done|].
    rewrite (get_value_same_removed M1 M2) by done.
    by eapply get_value_after_insert.
Qed.

(** ** The fuel of the operations is enough *)

Lemma no_stop_anywhere M (stop : entry K V → bool) i :
  i < m M →
  (∀ d, d < m M → stop (R M !!! probe M i d) = false) →
  ∀ j, j < m M → stop (R M !!! j) = false.
Proof.
  intros Hi Hno j Hj. destruct (probe_surj M i j Hi Hj) as (d & Hd & <-). by apply Hno.
Qed.

(** When [remove] or [get_value] has not returned within [m] steps, it has
    seen every slot and none stops it: the loop of the source runs for
    ever. *)
Lemma remove_spin_for_ever M k :
  wf M → remove k M = Spin → ∀ fuel, remove_loop fuel M k (start_index M k) = Spin.
Proof.
  intros Hwf Hspin fuel. pose proof (start_index_lt M k (proj2 Hwf)) as Hs.
  destruct (least_or_none (λ d, stop_remove k (R M !!! probe M (start_index M k) d)) (m M))
    as [Hno|(d & Hd & Hst & Hb)].
  - apply remove_loop_spin; [done|]. intros d _.
    apply (no_stop_anywhere M _ _ Hs Hno). apply probe_lt, Hwf.
  - rewrite (remove_first M k d) in Hspin; [done..|by split].
Qed.

Lemma get_value_spin_for_ever M k v :
  wf M → get_value k v M = Spin →
  ∀ fuel, get_value_loop fuel M k v (start_index M k) = Spin.
Proof.
  intros Hwf Hspin fuel. pose proof (start_index_lt M k (proj2 Hwf)) as Hs.
  destruct (least_or_none
              (λ d, stop_get_value k v (R M !!! probe M (start_index M k) d)) (m M))
    as [Hno|(d & Hd & Hst & Hb)].
  - apply get_value_loop_spin; [done|]. intros d _.
    apply (no_stop_anywhere M _ _ Hs Hno). apply probe_lt, Hwf.
  - rewrite (get_value_first M k v d) in Hspin; [done..|by split].
Qed.

Lemma verify_loop_skip M k i d fuel :
  i < m M →
  (∀ d', d' < d → taken (R M !!! probe M i d') = true ∧ key (R M !!! probe M i d') ≠ k) →
  verify_loop (d + fuel) M k i = verify_loop fuel M k (probe M i d).
Proof.
  revert i. induction d as [|d IH]; intros i Hi Hb.
  - by rewrite probe_0.
  - destruct (Hb 0 ltac:(lia)) as [Ht Hk]. rewrite probe_0 in Ht, Hk by done.
    simpl. rewrite Ht, decide_False by done.
    rewrite IH; [by rewrite probe_next|by apply next_index_lt|].
    intros d' Hd'. rewrite probe_next by done. apply Hb. lia.
Qed.

(** With the key somewhere in the table, the verification scan returns
    within [2 * m] steps: at the latest when it meets, for the second time,
    the first slot that holds the key. *)
Lemma verify_loop_total M k i :
  wf M → i < m M → has_key M k → ∃ r, verify_loop (2 * m M) M k i = Val r.
Proof.
  intros Hwf Hi (j & Hj & Htj & Hkj).
  destruct (least_or_none (λ d, stop_verify k (R M !!! probe M i d)) (m M))
    as [Hno|(D & HD & Hst & Hb)].
  2: { destruct (verify_loop_first M k i (2 * m M) D) as (M' & -> & _);
         [done..|lia|by split|]. eauto. }
  assert (∀ d, d < m M → taken (R M !!! probe M i d) = true
                         ∧ (key (R M !!! probe M i d) = k →
                            check (R M !!! probe M i d) = false)) as Hall.
  { intros d Hd. specialize (Hno d Hd). unfold stop_verify in Hno.
    destruct (taken (R M !!! probe M i d)); [|done]. split; [done|]. intros Hk.
    rewrite bool_decide_true in Hno by done. done. }
  destruct (probe_surj M i j Hi Hj) as (dj & Hdj & Hpj).
  destruct (least_below (λ d, bool_decide (key (R M !!! probe M i d) = k)) (m M))
    as (d1 & Hd1 & Hk1 & Hb1).
  { exists dj. split; [done|]. rewrite Hpj. by apply bool_decide_eq_true. }
  apply bool_decide_eq_true in Hk1.
  assert (∃ f, 2 * m M = d1 + S f ∧ m M ≤ f) as (f & -> & Hf).
  { exists (2 * m M - d1 - 1). lia. }
  rewrite verify_loop_skip; [|done|].
  2: { intros d' Hd'. split; [apply Hall; lia|].
       specialize (Hb1 d' Hd'). by apply bool_decide_eq_false in Hb1. }
  set (p1 := probe M i d1). assert (p1 < m M) as Hp1 by apply probe_lt, Hwf.
  destruct (Hall d1 Hd1) as [Ht1 Hc1]. fold p1 in Ht1, Hc1, Hk1.
  simpl. rewrite Ht1, decide_True, (Hc1 Hk1) by done.
  set (M1 := set_R M (<[p1 := set_check (R M !!! p1)]> (R M))).
  assert (wf M1) as Hwf1 by (apply wf_set_R; [done|by rewrite length_insert]).
  destruct (first_stop_exists M1 (stop_verify k) (next_index M p1)) as (D' & HD' & Hfs').
  { by apply (next_index_lt M). }
  { exists p1. split; [done|]. unfold M1. simpl.
    rewrite list_lookup_total_insert_eq by (destruct Hwf; lia).
    unfold stop_verify. simpl. rewrite Ht1. simpl. by rewrite bool_decide_true. }
  destruct (verify_loop_first M1 k (next_index M p1) f D')
    as (M' & -> & _); [done|by apply (next_index_lt M)|done| |done|eauto].
  change (m M1) with (m M) in HD'. lia.
Qed.

(** [insert_and_set] always returns. *)
Lemma insert_and_set_total M k v : wf M → ∃ r, insert_and_set k v M = Val r.
Proof.
  intros Hwf. unfold insert_and_set.
  destruct (claim_loop_total M (start_index M k)) as [(d & Hd & Hfs & ->)|(_ & ->)];
    [apply start_index_lt, Hwf| |eauto].
  set (i := probe M (start_index M k) d).
  assert (i < m M) as Hi by apply probe_lt, Hwf.
  destruct (verify_loop_total (write_slot M i k v) k (start_index M k)) as ([b M'] & Hv);
    [by apply write_slot_wf|apply (start_index_lt M), Hwf| |].
  - exists i. rewrite write_slot_at by (destruct Hwf; lia). done.
  - change (m (write_slot M i k v)) with (m M) in Hv. rewrite Hv. eauto.
Qed.

(** ** Termination of the scans *)

Lemma verify_loop_returns M k i :
  wf M → has_room M → i < m M → ∃ r, verify_loop (2 * m M) M k i = Val r.
Proof.
  intros Hwf Hroom Hi.
  destruct (room_first_stop M (stop_verify k) i) as (d & Hd & Hfs);
    [intros e He; unfold stop_verify; by rewrite He|done..|].
  destruct (verify_loop_first M k i (2 * m M) d) as (M' & -> & _); [done..|lia|done|].
  eauto.
Qed.

Lemma verify_loop_spin M k i fuel :
  i < m M →
  (∀ j, j < m M → taken (R M !!! j) = true ∧ key (R M !!! j) ≠ k) →
  verify_loop fuel M k i = Spin.
Proof.
  intros Hi Hall. revert i Hi. induction fuel as [|fuel IH]; intros i Hi; [done|].
  simpl. destruct (Hall i Hi) as [-> Hk]. rewrite decide_False by done.
  by apply IH, next_index_lt.
Qed.

(** C9.  In a table with a free slot, [remove], [get_value] and the
    verification scan of [insert_and_set] return.  None of the three has the
    wrap-around exit of the claiming loop: in a table without a free slot
    and without a slot that ends the scan by a match, each of them runs for
    ever, whatever the fuel, while the claiming loop reports the overfull
    table. *)
Theorem scans_stop_at_free_slot M k v :
  wf M →
  (has_room M →
     (∃ r, remove k M = Val r)
     ∧ (∃ r, get_value k v M = Val r)
     ∧ (∃ r, verify_loop (2 * m M) M k (start_index M k) = Val r)
     ∧ (∃ r, insert_and_set k v M = Val r))
  ∧ ((∀ j, j < m M → taken (R M !!! j) = true
                     ∧ ¬ (removed (R M !!! j) = false ∧ key (R M !!! j) = k)) →
     ∀ fuel, remove_loop fuel M k (start_index M k) = Spin)
  ∧ ((∀ j, j < m M → taken (R M !!! j) = true
                     ∧ ¬ (key (R M !!! j) = k ∧ value (R M !!! j) ≠ v)) →
     ∀ fuel, get_value_loop fuel M k v (start_index M k) = Spin)
  ∧ ((∀ j, j < m M → taken (R M !!! j) = true ∧ key (R M !!! j) ≠ k) →
     ∀ fuel, verify_loop fuel M k (start_index M k) = Spin)
  ∧ (full M →
     claim_loop (m M) M (start_index M k) (start_index M k) = Val None).
Proof.
  intros Hwf. pose proof (start_index_lt M k (proj2 Hwf)) as Hs. split_and!.
  - intros Hroom. split_and!.
    + destruct (remove_returns M k Hwf Hroom) as (b & M' & ->). eauto.
    + by apply get_value_returns.
    + by apply verify_loop_returns.
    + by apply insert_and_set_total.
  - intros Hall fuel. apply remove_loop_spin; [done|]. intros d _.
    destruct (Hall (probe M (start_index M k) d)) as [Ht Hn]; [apply probe_lt, Hwf|].
    unfold stop_remove. rewrite Ht. simpl.
    destruct (removed _) eqn:Hr; [done|]. simpl.
    apply bool_decide_eq_false. intros Hk. by apply Hn.
  - intros Hall fuel. apply get_value_loop_spin; [done|]. intros d _.
    destruct (Hall (probe M (start_index M k) d)) as [Ht Hn]; [apply probe_lt, Hwf|].
    unfold stop_get_value. rewrite Ht. simpl. apply andb_false_iff.
    destruct (decide (key (R M !!! probe M (start_index M k) d) = k)) as [Hk|Hk].
    + right. apply bool_decide_eq_false. intros Hv. by apply Hn.
    + left. by apply bool_decide_eq_false.
  - intros Hall fuel. by apply verify_loop_spin.
  - intros Hfull. destruct (claim_loop_total M (start_index M k) Hs)
      as [(d & Hd & [Hst _] & _)|[_ ?]]; [|done].
    unfold stop_claim in Hst. rewrite Hfull in Hst; [done|apply probe_lt, Hwf].
Qed.

(** ** Counting claimed slots, listing keys *)

Lemma pointwise_Forall2 (Rel : entry K V → entry K V → Prop) (l1 l2 : list (entry K V)) :
  length l1 = length l2 → (∀ j, Rel (l1 !!! j) (l2 !!! j)) → Forall2 Rel l1 l2.
Proof.
  intros Hl Hp. apply Forall2_same_length_lookup_2; [done|].
  intros i x y Hx Hy. apply list_lookup_total_correct in Hx, Hy. subst. apply Hp.
Qed.

Lemma omap_cons_eq {A B} (f : A → option B) (a : A) (l : list A) :
  omap f (a :: l) = match f a with Some b => b :: omap f l | None => omap f l end.
Proof. done. Qed.

Lemma keys_pointwise M M' :
  length (R M') = length (R M) →
  (∀ j, taken (R M' !!! j) = taken (R M !!! j)
        ∧ removed (R M' !!! j) = removed (R M !!! j)
        ∧ key (R M' !!! j) = key (R M !!! j)) →
  keys M' = keys M.
Proof.
  intros Hl Hp. unfold keys, map_maybe.
  assert (Forall2 (λ e1 e2, live e1 = live e2 ∧ key e1 = key e2) (R M') (R M)) as HF.
  { apply pointwise_Forall2; [done|]. intros j. destruct (Hp j) as (Ht & Hr & Hk).
    unfold live. by rewrite Ht, Hr, Hk. }
  clear Hl Hp. induction HF as [|e1 e2 l1 l2 [Hlive Hkey] _ IH]; [done|].
  by rewrite !omap_cons_eq, Hlive, Hkey, IH.
Qed.

Lemma taken_count_pointwise M M' :
  length (R M') = length (R M) →
  (∀ j, taken (R M' !!! j) = taken (R M !!! j)) →
  taken_count M' = taken_count M.
Proof.
  intros Hl Hp. unfold taken_count.
  assert (Forall2 (λ e1 e2, taken e1 = taken e2) (R M') (R M)) as HF.
  { by apply pointwise_Forall2. }
  clear Hl Hp. induction HF as [|e1 e2 l1 l2 Ht _ IH]; [done|].
  rewrite !filter_cons. rewrite Ht. case_decide; simpl; by rewrite IH.
Qed.

Lemma same_but_check_keys M M' : same_but_check M M' → keys M' = keys M.
Proof.
  intros (_ & _ & Hl & Hs). apply keys_pointwise; [done|].
  intros j. destruct (Hs j) as (? & ? & ? & _). done.
Qed.

Lemma same_but_check_count M M' : same_but_check M M' → taken_count M' = taken_count M.
Proof.
  intros (_ & _ & Hl & Hs). apply taken_count_pointwise; [done|].
  intros j. by destruct (Hs j) as (? & _).
Qed.

Lemma slots_split M i :
  wf M → i < m M → R M = take i (R M) ++ R M !!! i :: drop (S i) (R M).
Proof.
  intros [Hl _] Hi. symmetry. apply take_drop_middle.
  apply list_lookup_lookup_total_lt. lia.
Qed.

Lemma write_slot_count M i k v :
  wf M → i < m M → taken (R M !!! i) = false →
  taken_count (write_slot M i k v) = S (taken_count M).
Proof.
  intros Hwf Hi Ht. pose proof (slots_split M i Hwf Hi) as Hsp.
  unfold taken_count, write_slot. simpl.
  rewrite insert_take_drop by (destruct Hwf; lia).
  set (e := R M !!! i) in *. set (l1 := take i (R M)) in *.
  set (l2 := drop (S i) (R M)) in *. clearbody e l1 l2. rewrite Hsp.
  rewrite !filter_app, !filter_cons, !length_app. simpl.
  rewrite decide_False by (by rewrite Ht). simpl. lia.
Qed.

Lemma write_slot_keys M i k v :
  wf M → i < m M → taken (R M !!! i) = false → removed (R M !!! i) = false →
  keys (write_slot M i k v) ≡ₚ k :: keys M.
Proof.
  intros Hwf Hi Ht Hr. pose proof (slots_split M i Hwf Hi) as Hsp.
  unfold keys, map_maybe, write_slot. simpl.
  rewrite insert_take_drop by (destruct Hwf; lia).
  set (e := R M !!! i) in *. set (l1 := take i (R M)) in *.
  set (l2 := drop (S i) (R M)) in *. clearbody e l1 l2. rewrite Hsp.
  rewrite !omap_app, !omap_cons_eq. unfold live. simpl. rewrite Ht, Hr. simpl.
  by rewrite Permutation_middle.
Qed.

Lemma count_full M :
  wf M → (∀ j, j < m M → taken (R M !!! j) = true) → taken_count M = m M.
Proof.
  intros [Hl _] Hall. unfold taken_count. rewrite <-Hl.
  assert (Forall (λ e, taken e = true) (R M)) as HF.
  { apply Forall_forall. intros x Hx.
    apply list_elem_of_lookup_total_1 in Hx as (j & Hj & <-). apply Hall. lia. }
  clear Hall Hl. induction HF as [|e l He _ IH]; [done|].
  rewrite filter_cons_True by done. simpl. by rewrite IH.
Qed.

Lemma count_room M : wf M → taken_count M < m M → has_room M.
Proof.
  intros Hwf Hc.
  destruct (least_or_none (λ j, negb (taken (R M !!! j))) (m M)) as [Hall|(j & Hj & Hf & _)].
  - rewrite count_full in Hc; [lia|done|].
    intros j Hj. specialize (Hall j Hj). by destruct (taken _).
  - exists j. split; [done|]. by destruct (taken _).
Qed.

(** ** One call of [insert_and_set] on a table that keeps the invariant *)

Lemma Inv_make size (h : K → nat) : Inv (make size h : t K V).
Proof.
  assert (∀ j, j < m (make size h : t K V) → R (make size h : t K V) !!! j = entry0)
    as Hfresh.
  { intros j Hj. unfold make in *. cbn [m R] in *. by apply lookup_total_replicate_2. }
  split_and!.
  - split; unfold make; cbn [m R]; [by rewrite length_replicate|lia].
  - intros j Hj Ht. by rewrite Hfresh in Ht.
  - intros k (j & Hj & Ht & _). by rewrite Hfresh in Ht.
  - intros j Hj _. by rewrite Hfresh.
Qed.

Lemma taken_count_make size (h : K → nat) :
  taken_count (make size h : t K V) = 0.
Proof.
  unfold taken_count, make. cbn [R]. generalize (100 + 3 * size / 2). intros n.
  induction n as [|n IH]; [done|]. cbn [replicate]. by rewrite filter_cons_False.
Qed.

Lemma insert_and_set_step M k v :
  Inv M → taken_count M + 1 < m M →
  ∃ b M', insert_and_set k v M = Val ((b, []), M')
          ∧ (b = true ↔ ¬ has_key M k)
          ∧ Inv M' ∧ taken_count M' = S (taken_count M)
          ∧ (∀ k', has_key M' k' ↔ has_key M k' ∨ k' = k)
          ∧ keys M' ≡ₚ k :: keys M
          ∧ m M' = m M.
Proof.
  intros (Hwf & Hch & Hck & Hcl) Hcount.
  pose proof (start_index_lt M k (proj2 Hwf)) as Hs.
  assert (has_room M) as Hroom by (apply count_room; [done|lia]).
  unfold insert_and_set.
  destruct (claim_loop_total M (start_index M k) Hs) as [(d & Hd & Hfs & ->)|(Hfull & _)];
    [|by apply full_no_room in Hfull].
  set (s := start_index M k) in *. set (i := probe M s d) in *.
  assert (i < m M) as Hi by apply probe_lt, Hwf.
  destruct Hfs as [Hfree Hbefore]. fold i in Hfree.
  assert (taken (R M !!! i) = false) as Hti.
  { unfold stop_claim in Hfree. by destruct (taken _). }
  assert (∀ d', d' < d → taken (R M !!! probe M s d') = true ∧ probe M s d' ≠ i) as Hpre.
  { intros d' Hd'. specialize (Hbefore d' Hd'). unfold stop_claim in Hbefore. split.
    - by destruct (taken _).
    - intros Heq. apply probe_inj in Heq; lia. }
  destruct (Hcl i Hi Hti) as [Hci Hri].
  set (W := write_slot M i k v).
  pose proof (write_slot_wf M i k v Hwf) as HwfW. fold W in HwfW.
  assert (R W !!! i = Entry true false false k v) as HWi.
  { unfold W. rewrite write_slot_at by (destruct Hwf; lia). by rewrite Hci, Hri. }
  assert (∀ j, j ≠ i → R W !!! j = R M !!! j) as HWo.
  { intros j Hj. by apply write_slot_other. }
  assert (∀ j, taken (R M !!! j) = true → taken (R W !!! j) = true) as Hmono.
  { intros j Hj. destruct (decide (j = i)) as [->|]; [by rewrite HWi|by rewrite HWo]. }
  assert (taken_count W = S (taken_count M)) as HcW by by apply write_slot_count.
  assert (has_room W) as HroomW.
  { apply count_room; [done|]. change (m W) with (m M). lia. }
  assert (∀ a b, probe W a b = probe M a b) as HpW by done.
  destruct (room_first_stop W (stop_verify k) s) as (D & HD & HfsV);
    [intros e He; unfold stop_verify; by rewrite He|done|done|].
  change (m W) with (m M) in HD.
  destruct (verify_loop_first W k s (2 * m M) D) as (M' & Hrun & Hsame & Hchk);
    [done|done|done|lia|done|].
  rewrite Hrun. rewrite HpW in Hrun.
  destruct HfsV as [HstopD HbeforeD]. rewrite HpW in HstopD.
  set (pD := probe M s D) in *.
  destruct Hsame as (Hm' & Hh' & Hl' & Hs').
  change (m W) with (m M) in Hm'. change (hash W) with (hash M) in Hh'.
  assert (∀ j, taken (R M' !!! j) = taken (R W !!! j)) as Ht' by (intros j; apply Hs').
  assert (∀ j, key (R M' !!! j) = key (R W !!! j)) as Hk' by (intros j; apply Hs').
  assert (∀ j, removed (R M' !!! j) = removed (R W !!! j)) as Hr' by (intros j; apply Hs').
  assert (∀ k', start_index M' k' = start_index M k') as Hst'.
  { intros k'. unfold start_index. by rewrite Hm', Hh'. }
  assert (∀ a b, probe M' a b = probe M a b) as Hp'.
  { intros a b. unfold probe. by rewrite Hm'. }
  assert (∀ j, check (R W !!! j) = true → check (R M' !!! j) = true) as Hcmono.
  { intros j Hj. destruct (decide (j < m M)) as [Hlt|Hge].
    - apply Hchk; [done|]. by left.
    - rewrite list_lookup_total_alt, lookup_ge_None_2 in Hj; [done|].
      destruct HwfW as [HlW _]. rewrite HlW. change (m W) with (m M). lia. }
  (* a checked slot with the key, met before the first free slot, makes the
     scan answer false *)
  assert (taken (R W !!! pD) = true → key (R W !!! pD) = k ∧ check (R W !!! pD) = true)
    as HD_taken.
  { intros HtD. unfold stop_verify in HstopD. rewrite HtD in HstopD. simpl in HstopD.
    apply andb_true_iff in HstopD as [Hk Hc]. by apply bool_decide_eq_true in Hk. }
  assert (has_key M k → taken (R W !!! pD) = true) as Hlose.
  { intros Hhas. destruct (Hck k Hhas) as (j & Hj & Htj & Hkj & Hcj).
    assert (j ≠ i) as Hji by (intros ->; congruence).
    destruct (Hch j Hj Htj) as (dj & Hdj & Hpj & Hbj).
    rewrite Hkj in Hpj, Hbj. fold s in Hpj.
    destruct (decide (D < dj)) as [HDlt|HDge].
    - apply Hmono. apply (Hbj D HDlt).
    - destruct (decide (D = dj)) as [->|Hne].
      + unfold pD. rewrite Hpj. by apply Hmono.
      + specialize (HbeforeD dj ltac:(lia)). rewrite HpW, Hpj, HWo in HbeforeD by done.
        unfold stop_verify in HbeforeD. rewrite Htj, Hkj, Hcj in HbeforeD.
        by rewrite bool_decide_true in HbeforeD. }
  assert (¬ has_key M k → taken (R W !!! pD) = false) as Hwin.
  { intros Hno. destruct (taken (R W !!! pD)) eqn:HtD; [|done]. exfalso.
    destruct (HD_taken eq_refl) as [HkD HcD].
    destruct (decide (pD = i)) as [Heq|Hne].
    - rewrite Heq, HWi in HcD. done.
    - rewrite HWo in HtD, HkD by done. apply Hno. exists pD.
      split_and!; [apply probe_lt, Hwf|done..]. }
  assert (taken (R W !!! pD) = false → d < D) as Hpast.
  { intros HfD. destruct (decide (d < D)); [done|]. exfalso.
    destruct (decide (D = d)) as [->|].
    - fold i in pD. unfold pD in HfD. by rewrite HWi in HfD.
    - destruct (Hpre D ltac:(lia)) as [HtD _]. apply Hmono in HtD.
      fold pD in HtD. congruence. }
  exists (negb (taken (R W !!! pD))), M'. split; [done|].
  split_and!.
  - split.
    + intros Hb Hhas. apply Hlose in Hhas. rewrite Hhas in Hb. done.
    + intros Hno. by rewrite (Hwin Hno).
  - split_and!.
    + split; [rewrite Hl', Hm'; apply HwfW|rewrite Hm'; apply Hwf].
    + intros j Hj Htj. rewrite Hm' in Hj. rewrite Ht' in Htj. rewrite Hk', Hm'.
      unfold slot_of. setoid_rewrite Hst'. setoid_rewrite Hp'. setoid_rewrite Ht'.
      destruct (decide (j = i)) as [->|Hne].
      * rewrite HWi. simpl. exists d. split_and!; [done|done|].
        intros d' Hd'. apply Hmono. by apply Hpre.
      * rewrite HWo in Htj by done. rewrite HWo by done.
        destruct (Hch j Hj Htj) as (dj & ? & ? & Hbj). exists dj. split_and!; [done..|].
        intros d' Hd'. apply Hmono. by apply Hbj.
    + intros k' (j & Hj & Htj & Hkj). rewrite Hm' in Hj. rewrite Ht' in Htj.
      rewrite Hk' in Hkj. rewrite Hm'.
      destruct (decide (k' = k)) as [->|Hkk].
      * destruct (taken (R W !!! pD)) eqn:HtD.
        -- destruct (HD_taken eq_refl) as [HkD HcD]. exists pD.
           rewrite Ht', Hk'. split_and!; [apply probe_lt, Hwf|done|done|by apply Hcmono].
        -- exists i. rewrite Ht', Hk', HWi. split_and!; [done..|].
           apply Hchk; [done|]. right. exists d. rewrite HpW, HWi.
           split_and!; [by apply Hpast|done|done].
      * assert (j ≠ i) as Hne by (intros ->; rewrite HWi in Hkj; simpl in Hkj; congruence).
        rewrite HWo in Htj, Hkj by done.
        destruct (Hck k') as (j0 & Hj0 & Htj0 & Hkj0 & Hcj0); [by exists j|].
        assert (j0 ≠ i) as Hne0 by (intros ->; congruence).
        exists j0. rewrite Ht', Hk', HWo by done.
        split_and!; [done..|]. apply Hcmono. by rewrite HWo.
    + intros j Hj Htj. rewrite Hm' in Hj. rewrite Ht' in Htj.
      assert (j ≠ i) as Hne by (intros ->; rewrite HWi in Htj; done).
      pose proof Htj as HtjM. rewrite HWo in HtjM by done.
      destruct (Hcl j Hj HtjM) as [Hcj Hrj]. split.
      * destruct (check (R M' !!! j)) eqn:Hc'; [|done]. exfalso.
        destruct (proj1 (Hchk j Hj) Hc') as [Hc''|(d' & Hd' & Hpd' & _)].
        -- rewrite HWo in Hc'' by done. congruence.
        -- specialize (HbeforeD d' Hd'). rewrite Hpd' in HbeforeD.
           unfold stop_verify in HbeforeD. by rewrite Htj in HbeforeD.
      * by rewrite Hr', HWo.
  - rewrite (same_but_check_count W M'); [done|by split_and!].
  - intros k'. split.
    + intros (j & Hj & Htj & Hkj). rewrite Hm' in Hj. rewrite Ht' in Htj.
      rewrite Hk' in Hkj. destruct (decide (j = i)) as [->|Hne].
      * right. by rewrite HWi in Hkj.
      * left. rewrite HWo in Htj, Hkj by done. by exists j.
    + intros [(j & Hj & Htj & Hkj)| ->].
      * assert (j ≠ i) as Hne by (intros ->; congruence).
        exists j. rewrite Hm', Ht', Hk', HWo by done. done.
      * exists i. rewrite Hm', Ht', Hk', HWi. done.
  - rewrite (same_but_check_keys W M') by by split_and!.
    by apply write_slot_keys.
  - done.
Qed.

(** ** Sequences of calls *)

Lemma insert_all_first_wins calls M seen :
  Inv M → taken_count M + length calls < m M →
  (∀ k, has_key M k ↔ k ∈ seen) →
  ∃ M', insert_all calls M = Val (first_wins seen calls, M')
        ∧ Inv M' ∧ taken_count M' = taken_count M + length calls
        ∧ keys M' ≡ₚ keys M ++ calls.*1.
Proof.
  revert M seen. induction calls as [|[k v] calls IH]; intros M seen HInv Hc Hseen.
  - exists M. simpl. rewrite app_nil_r. split_and!; [done|done|lia|done].
  - simpl in Hc.
    destruct (insert_and_set_step M k v HInv ltac:(lia))
      as (b & M1 & Hrun & Hb & HInv1 & Hc1 & Hkeys1 & Hperm1 & Hm1).
    destruct (IH M1 (k :: seen)) as (M' & Hrun' & HInv' & Hc' & Hperm');
      [done|rewrite Hm1; lia| |].
    { intros k'. rewrite Hkeys1, Hseen. rewrite elem_of_cons. tauto. }
    exists M'. simpl. rewrite Hrun, Hrun'. split_and!; [|done|lia|].
    + f_equal. f_equal. f_equal. case_bool_decide as Hin.
      * destruct b; [|done]. exfalso. apply (proj1 Hb eq_refl). by apply Hseen.
      * destruct b; [done|]. exfalso.
        assert (¬ has_key M k) as Hno by (rewrite Hseen; done).
        apply Hb in Hno. done.
    + rewrite Hperm', Hperm1. by rewrite <-Permutation_middle.
Qed.

Lemma insert_and_set_full M k v :
  wf M → full M → insert_and_set k v M = Val (CapacityExceeded, M).
Proof.
  intros Hwf Hfull. unfold insert_and_set.
  destruct (claim_loop_total M (start_index M k)) as [(d & Hd & [Hst _] & _)|(_ & ->)];
    [apply start_index_lt, Hwf| |done].
  unfold stop_claim in Hst. rewrite Hfull in Hst; [done|apply probe_lt, Hwf].
Qed.

(** C3, amended.  Every call claims a slot, also a losing one, so what must
    stay below the capacity is the number of calls: on a new table, when the
    calls are fewer than the slots, the first call of each key returns
    success and every later call of that key returns LostRace ([false],
    nothing printed), never CapacityExceeded.  CapacityExceeded is the answer
    exactly when every slot is claimed as the call starts; it is reported:
    [false] is returned, the message is printed, the table is unchanged. *)
Theorem first_call_wins_below_capacity :
  (∀ size (h : K → nat) (calls : list (K * V)),
     length calls < m (make size h : t K V) →
     ∃ M', insert_all calls (make size h) = Val (first_wins [] calls, M'))
  ∧ (∀ M k v, wf M →
       (full M → insert_and_set k v M = Val (CapacityExceeded, M))
       ∧ (∀ M', insert_and_set k v M = Val (CapacityExceeded, M') → full M ∧ M' = M)).
Proof.
  split.
  - intros size h calls Hlen.
    destruct (insert_all_first_wins calls (make size h) []) as (M' & ? & _);
      [apply Inv_make|by rewrite taken_count_make| |by exists M'].
    intros k. split; [|by intros ?%elem_of_nil].
    intros (j & Hj & Ht & _). exfalso.
    destruct (Inv_make size h) as (_ & _ & _ & Hcl).
    unfold make in *. cbn [m R] in *. rewrite lookup_total_replicate_2 in Ht; done.
  - intros M k v Hwf. split; [by apply insert_and_set_full|].
    intros M' Hrun.
    apply insert_and_set_inv in Hrun as [(? & _ & ?)|(d & _ & _ & [=] & _)]; done.
Qed.


(** ** [remove] on a table that lists no key twice *)

Lemma keys_elem M k :
  wf M →
  k ∈ keys M ↔ ∃ j, j < m M ∧ live (R M !!! j) = true ∧ key (R M !!! j) = k.
Proof.
  intros [Hl _]. unfold keys, map_maybe. rewrite list_elem_of_omap. split.
  - intros (e & He & Hf). apply list_elem_of_lookup_total_1 in He as (j & Hj & <-).
    exists j. destruct (live (R M !!! j)); [|done]. split_and!; [lia|done|congruence].
  - intros (j & Hj & Hlive & Hk). exists (R M !!! j). split.
    + apply list_elem_of_lookup_total_2. lia.
    + by rewrite Hlive, Hk.
Qed.

Lemma not_in_keys_no_live M k : wf M → k ∉ keys M → no_live M k.
Proof.
  intros Hwf Hnot j Hj Hlive Hk. apply Hnot. apply keys_elem; [done|]. by exists j.
Qed.

Lemma filter_ne_absent (k : K) (l : list K) : k ∉ l → filter (λ x, x ≠ k) l = l.
Proof.
  induction l as [|a l IH]; [done|]. intros Hn. apply not_elem_of_cons in Hn as [? ?].
  rewrite filter_cons_True by done. by rewrite IH.
Qed.

Lemma keys_set_removed M j k :
  wf M → j < m M → live (R M !!! j) = true → key (R M !!! j) = k →
  NoDup (keys M) →
  keys (set_R M (<[j := set_removed (R M !!! j)]> (R M)))
  = filter (λ x, x ≠ k) (keys M).
Proof.
  intros Hwf Hj Hlive Hk. pose proof (slots_split M j Hwf Hj) as Hsp.
  unfold keys, map_maybe. simpl.
  rewrite insert_take_drop by (destruct Hwf; lia).
  set (e := R M !!! j) in *. set (l1 := take j (R M)) in *.
  set (l2 := drop (S j) (R M)) in *. clearbody e l1 l2. rewrite Hsp.
  rewrite !omap_app, !omap_cons_eq. rewrite Hlive, Hk.
  assert (live (set_removed e) = false) as ->.
  { unfold live. simpl. by rewrite andb_false_r. }
  intros Hnd. apply NoDup_app in Hnd as (_ & Hdis & Hnd2).
  apply NoDup_cons in Hnd2 as [Hk2 _].
  rewrite filter_app, filter_cons_False by (intros Hne; by apply Hne).
  rewrite !filter_ne_absent; [done..|].
  intros Hin. apply (Hdis k Hin). by left.
Qed.

Lemma remove_chained M k :
  wf M → chained M → k ∈ keys M →
  ∃ j, j < m M ∧ live (R M !!! j) = true ∧ key (R M !!! j) = k
       ∧ remove k M = Val (true, set_R M (<[j := set_removed (R M !!! j)]> (R M))).
Proof.
  intros Hwf Hch Hin. apply keys_elem in Hin as (j0 & Hj0 & Hlive0 & Hk0); [|done].
  unfold live in Hlive0. apply andb_true_iff in Hlive0 as [Ht0 Hr0].
  destruct (Hch j0 Hj0 Ht0) as (d0 & Hd0 & Hp0 & Hb0). rewrite Hk0 in Hp0, Hb0.
  pose proof (start_index_lt M k (proj2 Hwf)) as Hs.
  destruct (first_stop_exists M (stop_remove k) (start_index M k) Hs) as (D & HD & HfsD).
  { exists j0. split; [done|]. unfold stop_remove. rewrite Ht0, Hr0. simpl.
    by apply bool_decide_eq_true. }
  assert (taken (slot_of M k D) = true) as HtD.
  { destruct (decide (D < d0)) as [?|Hge]; [by apply Hb0|].
    destruct (decide (D = d0)) as [->|Hne].
    - unfold slot_of. by rewrite Hp0.
    - destruct HfsD as [_ Hb]. specialize (Hb d0 ltac:(lia)). rewrite Hp0 in Hb.
      unfold stop_remove in Hb. rewrite Ht0, Hr0 in Hb. simpl in Hb.
      by rewrite bool_decide_true in Hb. }
  exists (probe M (start_index M k) D).
  rewrite (remove_first M k D) by done. rewrite HtD.
  destruct HfsD as [Hst _]. fold (slot_of M k D) in Hst |- *.
  unfold stop_remove in Hst. rewrite HtD in Hst. simpl in Hst.
  apply andb_true_iff in Hst as [Hr Hk]. apply bool_decide_eq_true in Hk.
  split_and!; [apply probe_lt, Hwf| |done..].
  unfold live. by rewrite HtD, Hr.
Qed.

Lemma remove_keys M k :
  wf M → has_room M → chained M → NoDup (keys M) →
  ∃ b M', remove k M = Val (b, M') ∧ same_but_removed M M'
          ∧ keys M' = filter (λ x, x ≠ k) (keys M).
Proof.
  intros Hwf Hroom Hch Hnd. destruct (decide (k ∈ keys M)) as [Hin|Hnot].
  - destruct (remove_chained M k Hwf Hch Hin) as (j & Hj & Hlive & Hk & ->).
    eexists _, _. split_and!; [done|apply same_but_removed_set|].
    by apply keys_set_removed.
  - exists false, M. rewrite remove_no_live by (done || by apply not_in_keys_no_live).
    split_and!; [done|apply same_but_removed_refl|]. by rewrite filter_ne_absent.
Qed.

Lemma same_but_removed_chained M M' : same_but_removed M M' → chained M → chained M'.
Proof.
  intros (Hm & Hh & _ & Hs) Hch j Hj Htj.
  assert (∀ j, taken (R M' !!! j) = taken (R M !!! j)) as Ht by (intros ?; apply Hs).
  assert (∀ j, key (R M' !!! j) = key (R M !!! j)) as Hk by (intros ?; apply Hs).
  rewrite Hm in *. rewrite Ht in Htj. rewrite Hk.
  destruct (Hch j Hj Htj) as (d & Hd & Hp & Hb). exists d.
  unfold slot_of, start_index, probe in *. rewrite Hm, Hh.
  split_and!; [done..|]. intros d' Hd'. rewrite Ht. by apply Hb.
Qed.

Lemma same_but_removed_trans M1 M2 M3 :
  same_but_removed M1 M2 → same_but_removed M2 M3 → same_but_removed M1 M3.
Proof.
  intros (?&?&?&H12) (?&?&?&H23). split_and!; [congruence..|].
  intros j. destruct (H12 j) as (?&?&?&?), (H23 j) as (?&?&?&?).
  split_and!; congruence.
Qed.

(** ** What the operations hand back comes from the table *)

Lemma get_value_loop_Some_inv M k v i fuel x :
  i < m M → get_value_loop fuel M k v i = Val (Some x) →
  ∃ j, j < m M ∧ taken (R M !!! j) = true ∧ key (R M !!! j) = k
       ∧ value (R M !!! j) = x.
Proof.
  revert i. induction fuel as [|fuel IH]; intros i Hi; simpl; [done|].
  destruct (taken (R M !!! i)) eqn:Ht; [|done].
  case_bool_decide as Hk; simpl; [|by apply IH, next_index_lt].
  case_bool_decide as Hv; simpl; [|by apply IH, next_index_lt].
  intros [= <-]. by exists i.
Qed.

Lemma get_value_Some_inv M k v x :
  wf M → get_value k v M = Val (Some x) →
  ∃ j, j < m M ∧ taken (R M !!! j) = true ∧ key (R M !!! j) = k
       ∧ value (R M !!! j) = x.
Proof. intros Hwf. apply get_value_loop_Some_inv, start_index_lt, Hwf. Qed.

(** After [insert_and_set(k, v)] a claimed slot is a slot that was claimed
    before, with its key and value, or the new one. *)
Lemma insert_and_set_entries M k v o M' :
  wf M → insert_and_set k v M = Val (o, M') →
  wf M' ∧ m M' = m M
  ∧ ∀ j, j < m M → taken (R M' !!! j) = true →
         (taken (R M !!! j) = true ∧ key (R M' !!! j) = key (R M !!! j)
          ∧ value (R M' !!! j) = value (R M !!! j))
         ∨ (key (R M' !!! j) = k ∧ value (R M' !!! j) = v).
Proof.
  intros Hwf Hrun. destruct o as [b out].
  destruct (insert_and_set_inv _ _ _ _ _ _ Hwf Hrun)
    as [(_ & _ & ->)|(d & Hd & _ & _ & Hsame & _)].
  - split_and!; [done..|]. intros j Hj Ht. by left.
  - set (i := probe M (start_index M k) d) in *.
    pose proof (same_but_check_wf _ _ Hsame (write_slot_wf M i k v Hwf)) as Hwf'.
    destruct Hsame as (Hm' & _ & _ & Hs). split_and!; [done..|].
    intros j Hj Ht. destruct (Hs j) as (Htj & _ & Hkj & Hvj).
    rewrite Htj in Ht. rewrite Hkj, Hvj. destruct (decide (j = i)) as [->|Hne].
    + right. rewrite write_slot_at; [done|]. destruct Hwf as [Hl _]. by rewrite Hl.
    + left. rewrite write_slot_other in * by done. done.
Qed.

(** ** More on what the lookups hand back *)

Lemma get_value_loop_Some_ne M k v i fuel x :
  get_value_loop fuel M k v i = Val (Some x) → x ≠ v.
Proof.
  revert i. induction fuel as [|fuel IH]; intros i; simpl; [done|].
  destruct (taken (R M !!! i)) eqn:Ht; [|done].
  case_bool_decide as Hk; simpl; [|by apply IH].
  case_bool_decide as Hv; simpl; [|by apply IH].
  by intros [= <-].
Qed.

Lemma get_value_loop_None_inv M k v i fuel :
  i < m M → get_value_loop fuel M k v i = Val None →
  ∃ d, d < fuel ∧ taken (R M !!! probe M i d) = false
       ∧ ∀ d', d' < d →
           taken (R M !!! probe M i d') = true
           ∧ ¬ (key (R M !!! probe M i d') = k ∧ value (R M !!! probe M i d') ≠ v).
Proof.
  revert i. induction fuel as [|fuel IH]; intros i Hi; simpl; [done|].
  destruct (taken (R M !!! i)) eqn:Ht.
  - intros Hrun.
    assert (¬ (key (R M !!! i) = k ∧ value (R M !!! i) ≠ v)) as Hno.
    { intros [Hk Hv]. rewrite !bool_decide_true in Hrun by done. done. }
    assert (get_value_loop fuel M k v (next_index M i) = Val None) as Hrest.
    { destruct (bool_decide (key (R M !!! i) = k) && bool_decide (value (R M !!! i) ≠ v));
        done. }
    destruct (IH _ (next_index_lt M i Hi) Hrest) as (d & Hd & Hfree & Hbefore).
    exists (S d). rewrite <-probe_next by done. split_and!; [lia|done|].
    intros [|d'] Hd'; [by rewrite probe_0|]. rewrite <-probe_next by done.
    apply Hbefore. lia.
  - intros _. exists 0. rewrite probe_0 by done. split_and!; [lia|done|]. lia.
Qed.

(** A key that no claimed slot holds is found by no operation. *)
Lemma get_value_absent M k v :
  wf M → has_room M → ¬ has_key M k → get_value k v M = Val None.
Proof.
  intros Hwf Hroom Hno. destruct (get_value_returns M k v Hwf Hroom) as [[x|] Hr]; [|done].
  exfalso. apply Hno. destruct (get_value_Some_inv M k v x Hwf Hr) as (j & ? & ? & ? & _).
  by exists j.
Qed.

(** ** [remove] keeps the invariant *)

Lemma remove_loop_false_inv M k i fuel M' :
  remove_loop fuel M k i = Val (false, M') → M' = M.
Proof.
  revert i. induction fuel as [|fuel IH]; intros i; simpl; [done|].
  destruct (taken (R M !!! i)); simpl; [|by intros [= <-]].
  destruct (negb (removed (R M !!! i)) && bool_decide (key (R M !!! i) = k));
    [done|apply IH].
Qed.

Lemma same_but_removed_count M M' : same_but_removed M M' → taken_count M' = taken_count M.
Proof.
  intros (_ & _ & Hl & Hs). apply taken_count_pointwise; [done|]. intros j. apply Hs.
Qed.

Lemma same_but_removed_has_key M M' k :
  same_but_removed M M' → has_key M' k ↔ has_key M k.
Proof.
  intros (Hm & _ & _ & Hs). unfold has_key. rewrite Hm.
  split; intros (j & Hj & Ht & Hk); exists j; destruct (Hs j) as (Ht' & _ & Hk' & _);
    split_and!; congruence.
Qed.

Lemma remove_Inv M k b M' : Inv M → remove k M = Val (b, M') → Inv M'.
Proof.
  intros (Hwf & Hch & Hck & Hcl) Hrun.
  pose proof (remove_loop_same _ _ _ _ _ _ Hrun) as Hsame.
  split_and!.
  - by eapply same_but_removed_wf.
  - by eapply same_but_removed_chained.
  - intros k' Hhas. apply (same_but_removed_has_key M M' k' Hsame) in Hhas.
    destruct (Hck k' Hhas) as (j & Hj & Ht & Hk & Hc).
    destruct Hsame as (Hm & _ & _ & Hs). destruct (Hs j) as (Ht' & Hc' & Hk' & _).
    exists j. split_and!; congruence.
  - destruct b.
    + apply remove_loop_true_inv in Hrun as (j & Hj & Htj & _ & _ & ->);
        [|apply start_index_lt, Hwf].
      intros j' Hj' Ht'. simpl in *.
      destruct (decide (j' = j)) as [->|Hne].
      * rewrite list_lookup_total_insert_eq in Ht' by (destruct Hwf; lia).
        simpl in Ht'. congruence.
      * rewrite list_lookup_total_insert_ne in * by done. by apply Hcl.
    + apply remove_loop_false_inv in Hrun as ->. done.
Qed.

(** ** What every call keeps, also the one that fills the table *)

Lemma verify_loop_more_fuel M k i fuel extra r :
  verify_loop fuel M k i = Val r → verify_loop (fuel + extra) M k i = Val r.
Proof.
  revert M i. induction fuel as [|fuel IH]; intros M i; simpl; [done|].
  destruct (taken (R M !!! i)); [|done].
  case_decide; [|apply IH]. destruct (check (R M !!! i)); [done|apply IH].
Qed.

Lemma verify_loop_checks_claimed M k i fuel b M' :
  verify_loop fuel M k i = Val (b, M') →
  ∀ j, check (R M' !!! j) = true →
       check (R M !!! j) = true ∨ taken (R M !!! j) = true.
Proof.
  revert M i. induction fuel as [|fuel IH]; intros M i; simpl; [done|].
  destruct (taken (R M !!! i)) eqn:Ht; [|by intros [= <- <-] j ?; left].
  case_decide as Hk; [|apply IH].
  destruct (check (R M !!! i)) eqn:Hc; [by intros [= <- <-] j ?; left|].
  intros Hrun j Hj. destruct (IH _ _ Hrun j Hj) as [Hold|Hold]; simpl in Hold.
  - destruct (decide (j = i)) as [->|Hne]; [by right|].
    rewrite list_lookup_total_insert_ne in Hold by done. by left.
  - destruct (decide (j = i)) as [->|Hne]; [by right|].
    rewrite list_lookup_total_insert_ne in Hold by done. by right.
Qed.

(** A scan that answers [false] met a slot with the key whose [check] flag
    was set before the scan, or went round a table without a free slot. *)
Lemma verify_loop_false_inv M k i fuel M' :
  wf M → i < m M → verify_loop fuel M k i = Val (false, M') →
  full M ∨ ∃ j, j < m M ∧ taken (R M !!! j) = true ∧ key (R M !!! j) = k
                ∧ check (R M !!! j) = true.
Proof.
  intros Hwf Hi Hrun.
  destruct (least_or_none (λ d, stop_verify k (R M !!! probe M i d)) (m M))
    as [Hnone|(d & Hd & Hstop & Hbefore)].
  - left. intros j Hj. destruct (probe_surj M i j Hi Hj) as (d & Hd & <-).
    specialize (Hnone d Hd). unfold stop_verify in Hnone.
    by destruct (taken (R M !!! probe M i d)).
  - right. apply (verify_loop_more_fuel _ _ _ _ (S d)) in Hrun.
    destruct (verify_loop_first M k i (fuel + S d) d) as (M'' & Hrun' & _);
      [done|done|done|lia|by split|].
    rewrite Hrun in Hrun'. injection Hrun' as Hb _.
    exists (probe M i d). unfold stop_verify in Hstop.
    destruct (taken (R M !!! probe M i d)); [|done]. simpl in Hstop.
    apply andb_true_iff in Hstop as [Hk Hc]. apply bool_decide_eq_true in Hk.
    split_and!; [apply probe_lt, Hwf|done..].
Qed.

Lemma make_free size (h : K → nat) j : taken (R (make size h : t K V) !!! j) = false.
Proof.
  unfold make. cbn [R]. destruct (decide (j < 100 + 3 * size / 2)) as [Hj|Hj].
  - by rewrite lookup_total_replicate_2.
  - rewrite list_lookup_total_alt, lookup_ge_None_2; [done|].
    rewrite length_replicate. lia.
Qed.

Lemma linked_make size (h : K → nat) : linked (make size h : t K V).
Proof. destruct (Inv_make size h) as (? & ? & _ & ?). by split_and!. Qed.

Lemma Inv_linked M : Inv M → linked M.
Proof. intros (? & ? & _ & ?). by split_and!. Qed.

Lemma remove_linked M k b M' : linked M → remove k M = Val (b, M') → linked M'.
Proof.
  intros (Hwf & Hch & Hcl) Hrun.
  pose proof (remove_loop_same _ _ _ _ _ _ Hrun) as Hsame.
  split_and!.
  - by eapply same_but_removed_wf.
  - by eapply same_but_removed_chained.
  - destruct b.
    + apply remove_loop_true_inv in Hrun as (j & Hj & Htj & _ & _ & ->);
        [|apply start_index_lt, Hwf].
      intros j' Hj' Ht'. simpl in *.
      destruct (decide (j' = j)) as [->|Hne].
      * rewrite list_lookup_total_insert_eq in Ht' by (destruct Hwf; lia).
        simpl in Ht'. congruence.
      * rewrite list_lookup_total_insert_ne in * by done. by apply Hcl.
    + apply remove_loop_false_inv in Hrun as ->. done.
Qed.

(** The cases of [insert_and_set], with the answer of its second scan. *)
Lemma insert_and_set_cases M k v b out M' :
  wf M → insert_and_set k v M = Val ((b, out), M') →
  (full M ∧ (b, out) = CapacityExceeded ∧ M' = M)
  ∨ ∃ d, d < m M ∧ first_stop M stop_claim (start_index M k) d ∧ out = []
         ∧ verify_loop (2 * m M)
             (write_slot M (probe M (start_index M k) d) k v) k (start_index M k)
           = Val (b, M').
Proof.
  intros Hwf. unfold insert_and_set.
  destruct (claim_loop_total M (start_index M k) (start_index_lt M k (proj2 Hwf)))
    as [(d & Hd & Hfs & ->)|(Hfull & ->)].
  - destruct (verify_loop _ _ _ _) as [[b' M'']|] eqn:Hv; [|done].
    intros [= <- <- <-]. right. by exists d.
  - intros [= <- <- <-]. by left.
Qed.

Lemma insert_and_set_linked M k v o M' :
  linked M → insert_and_set k v M = Val (o, M') → linked M'.
Proof.
  intros (Hwf & Hch & Hcl) Hrun. destruct o as [b out].
  destruct (insert_and_set_cases M k v b out M' Hwf Hrun)
    as [(_ & _ & ->)|(d & Hd & [Hfree Hbefore] & _ & Hv)]; [done|].
  set (s := start_index M k) in *. set (i := probe M s d) in *.
  assert (i < m M) as Hi by apply probe_lt, Hwf.
  assert (taken (R M !!! i) = false) as Hti.
  { unfold stop_claim in Hfree. by destruct (taken _). }
  set (W := write_slot M i k v) in *.
  pose proof (write_slot_wf M i k v Hwf) as HwfW. fold W in HwfW.
  destruct (Hcl i Hi Hti) as [Hci Hri].
  assert (R W !!! i = Entry true false false k v) as HWi.
  { unfold W. rewrite write_slot_at by (destruct Hwf; lia). by rewrite Hci, Hri. }
  assert (∀ j, j ≠ i → R W !!! j = R M !!! j) as HWo.
  { intros j Hj. by apply write_slot_other. }
  assert (∀ j, taken (R M !!! j) = true → taken (R W !!! j) = true) as Hmono.
  { intros j Hj. destruct (decide (j = i)) as [->|]; [by rewrite HWi|by rewrite HWo]. }
  pose proof (verify_loop_same _ _ _ _ _ _ Hv) as Hsame.
  pose proof (same_but_check_wf _ _ Hsame HwfW) as Hwf'.
  pose proof (verify_loop_checks_claimed _ _ _ _ _ _ Hv) as Hchk.
  destruct Hsame as (Hm' & Hh' & Hl' & Hs').
  change (m W) with (m M) in Hm'. change (hash W) with (hash M) in Hh'.
  assert (∀ j, taken (R M' !!! j) = taken (R W !!! j)) as Ht' by (intros j; apply Hs').
  assert (∀ j, key (R M' !!! j) = key (R W !!! j)) as Hk' by (intros j; apply Hs').
  assert (∀ j, removed (R M' !!! j) = removed (R W !!! j)) as Hr' by (intros j; apply Hs').
  assert (∀ k', start_index M' k' = start_index M k') as Hst'.
  { intros k'. unfold start_index. by rewrite Hm', Hh'. }
  assert (∀ a b, probe M' a b = probe M a b) as Hp'.
  { intros a b0. unfold probe. by rewrite Hm'. }
  split_and!; [done| |].
  - intros j Hj Htj. rewrite Hm' in Hj. rewrite Ht' in Htj. rewrite Hk', Hm'.
    unfold slot_of. setoid_rewrite Hst'. setoid_rewrite Hp'. setoid_rewrite Ht'.
    destruct (decide (j = i)) as [->|Hne].
    + rewrite HWi. simpl. exists d. split_and!; [done|done|].
      intros d' Hd'. apply Hmono. specialize (Hbefore d' Hd').
      unfold stop_claim in Hbefore. by destruct (taken _).
    + rewrite HWo in Htj by done. rewrite HWo by done.
      destruct (Hch j Hj Htj) as (dj & ? & ? & Hbj). exists dj. split_and!; [done..|].
      intros d' Hd'. apply Hmono. by apply Hbj.
  - intros j Hj Htj. rewrite Hm' in Hj. rewrite Ht' in Htj.
    assert (j ≠ i) as Hne by (intros ->; rewrite HWi in Htj; done).
    pose proof Htj as HtjM. rewrite HWo in HtjM by done.
    destruct (Hcl j Hj HtjM) as [Hcj Hrj]. split.
    + destruct (check (R M' !!! j)) eqn:Hc'; [|done]. exfalso.
      destruct (Hchk j Hc') as [Hc''|Hc'']; rewrite HWo in Hc'' by done; congruence.
    + by rewrite Hr', HWo.
Qed.

(** After a call that answered [false], the lookup with the value of the
    call as the one to leave out does not come back empty, when no slot
    held the key with that value before. *)
Lemma lost_race_lookup M k v out M' :
  linked M → insert_and_set k v M = Val ((false, out), M') →
  (∀ j, j < m M → taken (R M !!! j) = true → key (R M !!! j) = k →
        value (R M !!! j) ≠ v) →
  get_value k v M' ≠ Val None.
Proof.
  intros (Hwf & Hch & Hcl) Hrun Hval Hnone.
  assert (wf M') as Hwf'.
  { by destruct (insert_and_set_entries M k v _ M' Hwf Hrun) as [? _]. }
  apply get_value_loop_None_inv in Hnone as (d0 & Hd0 & Hfree0 & Hbefore0);
    [|apply start_index_lt, Hwf'].
  destruct (insert_and_set_cases M k v _ _ M' Hwf Hrun)
    as [(Hfull & _ & ->)|(d & Hd & [Hfree Hbefore] & _ & Hv)].
  { rewrite Hfull in Hfree0; [done|apply probe_lt, Hwf]. }
  set (s := start_index M k) in *. set (i := probe M s d) in *.
  assert (i < m M) as Hi by apply probe_lt, Hwf.
  assert (taken (R M !!! i) = false) as Hti.
  { unfold stop_claim in Hfree. by destruct (taken (R M !!! i)). }
  set (W := write_slot M i k v) in *.
  pose proof (write_slot_wf M i k v Hwf) as HwfW. fold W in HwfW.
  destruct (Hcl i Hi Hti) as [Hci Hri].
  assert (R W !!! i = Entry true false false k v) as HWi.
  { unfold W. rewrite write_slot_at by (destruct Hwf; lia). by rewrite Hci, Hri. }
  assert (∀ j, j ≠ i → R W !!! j = R M !!! j) as HWo.
  { intros j Hj. by apply write_slot_other. }
  assert (∀ j, taken (R M !!! j) = true → taken (R W !!! j) = true) as Hmono.
  { intros j Hj. destruct (decide (j = i)) as [->|]; [by rewrite HWi|by rewrite HWo]. }
  destruct (verify_loop_same _ _ _ _ _ _ Hv) as (Hm' & Hh' & Hl' & Hs').
  change (m W) with (m M) in Hm'. change (hash W) with (hash M) in Hh'.
  assert (start_index M' k = s) as Hst' by (unfold s, start_index; by rewrite Hm', Hh').
  assert (∀ a b, probe M' a b = probe M a b) as Hp'.
  { intros a b0. unfold probe. by rewrite Hm'. }
  rewrite Hst', Hp' in Hfree0. setoid_rewrite Hst' in Hbefore0.
  setoid_rewrite Hp' in Hbefore0. rewrite Hm' in Hd0.
  destruct (verify_loop_false_inv W k s (2 * m M) M' HwfW (start_index_lt M k (proj2 Hwf)) Hv)
    as [Hfull|(j & Hj & Htj & Hkj & Hcj)].
  - destruct (Hs' (probe M s d0)) as (Ht0 & _). rewrite Ht0, Hfull in Hfree0; [done|].
    change (m W) with (m M). apply probe_lt, Hwf.
  - change (m W) with (m M) in Hj.
    assert (j ≠ i) as Hne by (intros ->; rewrite HWi in Hcj; done).
    rewrite HWo in Htj, Hkj by done.
    destruct (Hch j Hj Htj) as (dj & Hdj & Hpj & Hbj). rewrite Hkj in Hpj, Hbj.
    fold s in Hpj. unfold slot_of in Hbj. fold s in Hbj.
    destruct (Hs' j) as (Htj' & _ & Hkj' & Hvj'). rewrite HWo in Htj', Hkj', Hvj' by done.
    destruct (decide (d0 < dj)) as [Hlt|Hge].
    + specialize (Hbj d0 Hlt). apply Hmono in Hbj.
      destruct (Hs' (probe M s d0)) as (Ht0 & _). congruence.
    + destruct (decide (d0 = dj)) as [->|Hne0].
      * rewrite Hpj in Hfree0. congruence.
      * destruct (Hbefore0 dj ltac:(lia)) as [_ Hno]. rewrite Hpj in Hno. apply Hno.
        split; [congruence|]. rewrite Hvj'. by apply Hval.
Qed.

(** ** Claimed slots stay as they are *)

Lemma insert_and_set_persists M k v o M' :
  wf M → insert_and_set k v M = Val (o, M') →
  ∀ j, j < m M → taken (R M !!! j) = true →
       taken (R M' !!! j) = true ∧ key (R M' !!! j) = key (R M !!! j)
       ∧ value (R M' !!! j) = value (R M !!! j).
Proof.
  intros Hwf Hrun j Hj Ht. destruct o as [b out].
  destruct (insert_and_set_inv M k v b out M' Hwf Hrun)
    as [(_ & _ & ->)|(d & Hd & [Hfree _] & _ & Hsame & _)]; [by split_and!|].
  destruct Hsame as (_ & _ & _ & Hs). destruct (Hs j) as (Ht' & _ & Hk' & Hv').
  assert (j ≠ probe M (start_index M k) d) as Hne.
  { intros ->. unfold stop_claim in Hfree. by rewrite Ht in Hfree. }
  rewrite write_slot_other in Ht', Hk', Hv' by done. split_and!; congruence.
Qed.

Lemma insert_and_set_stores M k v o M' :
  wf M → insert_and_set k v M = Val (o, M') → has_room M' →
  ∃ j, j < m M' ∧ taken (R M' !!! j) = true ∧ key (R M' !!! j) = k
       ∧ value (R M' !!! j) = v.
Proof.
  intros Hwf Hrun Hroom. destruct o as [b out].
  destruct (insert_and_set_inv M k v b out M' Hwf Hrun)
    as [(Hfull & _ & ->)|(d & Hd & _ & _ & Hsame & _)];
    [by apply full_no_room in Hfull|].
  destruct Hsame as (Hm & _ & _ & Hs).
  exists (probe M (start_index M k) d).
  destruct (Hs (probe M (start_index M k) d)) as (Ht' & _ & Hk' & Hv').
  rewrite write_slot_at in Ht', Hk', Hv' by (destruct Hwf as [-> ?]; by apply probe_lt).
  rewrite Hm. change (m (write_slot _ _ _ _)) with (m M).
  split_and!; [apply probe_lt, Hwf|done..].
Qed.

Lemma remove_persists M k b M' :
  remove k M = Val (b, M') →
  ∀ j, taken (R M' !!! j) = taken (R M !!! j) ∧ key (R M' !!! j) = key (R M !!! j)
       ∧ value (R M' !!! j) = value (R M !!! j).
Proof.
  intros Hrun j. destruct (remove_loop_same _ _ _ _ _ _ Hrun) as (_ & _ & _ & Hs).
  destruct (Hs j) as (? & _ & ? & ?). done.
Qed.

(** A slot that holds [k] with a value other than [v] is not missed by
    [get_value(k, v)]. *)
Lemma get_value_finds M k v :
  wf M → chained M →
  (∃ j, j < m M ∧ taken (R M !!! j) = true ∧ key (R M !!! j) = k
        ∧ value (R M !!! j) ≠ v) →
  get_value k v M ≠ Val None.
Proof.
  intros Hwf Hch (j & Hj & Ht & Hk & Hv) Hnone.
  apply get_value_loop_None_inv in Hnone as (d0 & Hd0 & Hfree0 & Hbefore0);
    [|apply start_index_lt, Hwf].
  destruct (Hch j Hj Ht) as (dj & Hdj & Hpj & Hbj). rewrite Hk in Hpj, Hbj.
  unfold slot_of in Hbj.
  destruct (decide (d0 < dj)) as [Hlt|Hge].
  - specialize (Hbj d0 Hlt). congruence.
  - destruct (decide (d0 = dj)) as [->|Hne0].
    + rewrite Hpj in Hfree0. congruence.
    + destruct (Hbefore0 dj ltac:(lia)) as [_ Hno]. rewrite Hpj in Hno. by apply Hno.
Qed.

Lemma run_calls_app cs1 cs2 M :
  run_calls (cs1 ++ cs2) M
  = match run_calls cs1 M with Val M1 => run_calls cs2 M1 | Spin => Spin end.
Proof.
  revert M. induction cs1 as [|[k v|k] cs1 IH]; intros M; simpl; [done| |].
  - destruct (insert_and_set k v M) as [[? M1]|]; [apply IH|done].
  - destruct (remove k M) as [[? M1]|]; [apply IH|done].
Qed.

Lemma run_calls_linked cs M M' :
  linked M → run_calls cs M = Val M' →
  linked M' ∧ m M' = m M
  ∧ ∀ j, j < m M → taken (R M !!! j) = true →
         taken (R M' !!! j) = true ∧ key (R M' !!! j) = key (R M !!! j)
         ∧ value (R M' !!! j) = value (R M !!! j).
Proof.
  revert M. induction cs as [|[k v|k] cs IH]; intros M Hlk; simpl.
  - intros [= <-]. done.
  - destruct (insert_and_set k v M) as [[o M1]|] eqn:Hrun; [|done]. intros Hrest.
    pose proof Hlk as (Hwf & _).
    destruct (insert_and_set_entries M k v o M1 Hwf Hrun) as (_ & Hm1 & _).
    destruct (IH M1 (insert_and_set_linked M k v o M1 Hlk Hrun) Hrest) as (Hlk' & Hm' & Hp).
    split_and!; [done|congruence|]. intros j Hj Ht.
    destruct (insert_and_set_persists M k v o M1 Hwf Hrun j Hj Ht) as (Ht1 & Hk1 & Hv1).
    destruct (Hp j ltac:(lia) Ht1) as (? & ? & ?). split_and!; congruence.
  - destruct (remove k M) as [[b M1]|] eqn:Hrun; [|done]. intros Hrest.
    assert (m M1 = m M) as Hm1 by (by destruct (remove_loop_same _ _ _ _ _ _ Hrun)).
    destruct (IH M1 (remove_linked M k b M1 Hlk Hrun) Hrest) as (Hlk' & Hm' & Hp).
    split_and!; [done|congruence|]. intros j Hj Ht.
    destruct (remove_persists M k b M1 Hrun j) as (Ht1 & Hk1 & Hv1).
    destruct (Hp j ltac:(lia) ltac:(congruence)) as (? & ? & ?). split_and!; congruence.
Qed.

Lemma count_full_inv M : wf M → taken_count M = m M → full M.
Proof.
  intros Hwf Hc j Hj. destruct (taken (R M !!! j)) eqn:Ht; [done|]. exfalso.
  unfold taken_count in Hc. destruct Hwf as [Hl _].
  pose proof (length_filter_lt (λ e, taken e = true) (R M) (R M !!! j)) as Hlt.
  rewrite Hl in Hlt. enough (length (filter (λ e, taken e = true) (R M)) < m M) by lia.
  apply Hlt; [|by rewrite Ht]. apply list_elem_of_lookup_total_2. lia.
Qed.

(** The call that claims the last free slot: its second scan goes round
    the table and comes back to the slot it has marked. *)
Lemma insert_and_set_last_slot M k v :
  Inv M → taken_count M + 1 = m M →
  ∃ M', insert_and_set k v M = Val (LostRace, M') ∧ full M'
        ∧ keys M' ≡ₚ k :: keys M.
Proof.
  intros (Hwf & _ & _ & Hcl) Hcount.
  destruct (insert_and_set_total M k v Hwf) as [[[b out] M'] Hrun].
  assert (has_room M) as Hroom by (apply count_room; [done|lia]).
  destruct (insert_and_set_inv M k v b out M' Hwf Hrun)
    as [(Hfull & _)|(d & Hd & [Hfree _] & -> & Hsame & Hb)];
    [by apply full_no_room in Hfull|].
  set (i := probe M (start_index M k) d) in *.
  assert (i < m M) as Hi by apply probe_lt, Hwf.
  assert (taken (R M !!! i) = false) as Hti.
  { unfold stop_claim in Hfree. by destruct (taken (R M !!! i)). }
  destruct (Hcl i Hi Hti) as [_ Hri].
  set (W := write_slot M i k v) in *.
  pose proof (write_slot_wf M i k v Hwf) as HwfW. fold W in HwfW.
  pose proof (same_but_check_wf _ _ Hsame HwfW) as Hwf'.
  assert (full M') as Hfull'.
  { apply count_full_inv; [done|]. rewrite (same_but_check_count W M' Hsame).
    destruct Hsame as (-> & _). change (m W) with (m M).
    unfold W. rewrite write_slot_count by done. lia. }
  exists M'. split_and!; [|done|].
  - rewrite Hrun. destruct b; [|done]. exfalso.
    apply (full_no_room M' Hfull'). by apply Hb.
  - rewrite (same_but_check_keys W M' Hsame). by apply write_slot_keys.
Qed.

End facts.
End MapFacts.

Module MapWitnesses.
Import convex_hash_map MapSpec MapFacts MapExamples.

Lemma wf_M0 : wf M0.
Proof. split; vm_compute; [reflexivity|lia]. Qed.

Lemma no_live_M0 : no_live M0 7.
Proof.
  intros j Hj.
  refine (slots_Forall M0 (λ e, live e = true → key e ≠ 7) wf_M0 _ j Hj).
  apply (bool_decide_unpack _). vm_compute. exact I.
Qed.

Lemma remove_marks_first_live_witness :
  insert_and_set 7 1 M0 = Val ((true, []), M1)
  ∧ remove 7 M1 = Val (true, M2)
  ∧ remove 7 M0 = Val (false, M0)
  ∧ remove 7 M2 = Val (false, M2).
Proof.
  destruct (remove_marks_first_live M0 7 wf_M0) as [Hfirst Htwice].
  split; [vm_compute; reflexivity|].
  split; [vm_compute; reflexivity|].
  split.
  - apply (Hfirst 0); [vm_compute; lia|intros d' Hd'; lia|vm_compute; reflexivity].
  - apply (Htwice 1 [] M1 M2 no_live_M0); vm_compute; reflexivity.
Defined.

Lemma wf_M1 : wf M1.
Proof. split; vm_compute; [reflexivity|lia]. Qed.

Lemma wf_Mfull : wf Mfull.
Proof. split; vm_compute; [reflexivity|lia]. Qed.

Lemma no_key_M0 : ¬ has_key M0 7.
Proof.
  intros (j & Hj & Ht & _).
  pose proof (slots_Forall M0 (λ e, taken e = false) wf_M0) as Hall.
  rewrite Hall in Ht; [done| |done].
  apply (bool_decide_unpack _). vm_compute. exact I.
Qed.

Lemma get_value_ignores_removed_witness :
  get_value 7 2 M1 = Val (Some 1)
  ∧ get_value 7 2 M2 = get_value 7 2 M1
  ∧ no_live M2 7 ∧ get_value 7 2 M2 = Val (Some 1).
Proof.
  split.
  - destruct (get_value_ignores_removed M1 7 2 wf_M1) as (Hfirst & _).
    apply (Hfirst 0); [vm_compute; lia|intros d' Hd'; lia|vm_compute; reflexivity|
                       vm_compute; reflexivity|vm_compute; lia].
  - split.
    + destruct (get_value_ignores_removed M1 7 2 wf_M1) as (_ & Hrem & _).
      apply (Hrem 7 true M2). vm_compute. reflexivity.
    + destruct (get_value_ignores_removed M0 7 2 wf_M0) as (_ & _ & Hins).
      apply (Hins 1 [] M1 M2 no_key_M0); [lia|vm_compute; reflexivity..].
Defined.

Lemma scans_stop_at_free_slot_witness :
  ((∃ r, remove 7 M1 = Val r)
   ∧ (∃ r, get_value 7 2 M1 = Val r)
   ∧ (∃ r, verify_loop (2 * m M1) M1 7 (start_index M1 7) = Val r)
   ∧ (∃ r, insert_and_set 7 2 M1 = Val r))
  ∧ remove_loop 1000 Mfull 8 (start_index Mfull 8) = Spin
  ∧ get_value_loop 1000 Mfull 8 2 (start_index Mfull 8) = Spin
  ∧ verify_loop 1000 Mfull 8 (start_index Mfull 8) = Spin
  ∧ claim_loop (m Mfull) Mfull (start_index Mfull 8) (start_index Mfull 8) = Val None.
Proof.
  destruct (scans_stop_at_free_slot M1 7 2 wf_M1) as (Hroom & _).
  destruct (scans_stop_at_free_slot Mfull 8 2 wf_Mfull) as (_ & Hrem & Hget & Hver & Hclaim).
  split; [apply Hroom; exists 0; vm_compute; split; [lia|reflexivity]|].
  split_and!.
  - apply Hrem.
    apply (slots_Forall Mfull
             (λ e, taken e = true ∧ ¬ (removed e = false ∧ key e = 8)) wf_Mfull).
    apply (bool_decide_unpack _). vm_compute. exact I.
  - apply Hget.
    apply (slots_Forall Mfull
             (λ e, taken e = true ∧ ¬ (key e = 8 ∧ value e ≠ 2)) wf_Mfull).
    apply (bool_decide_unpack _). vm_compute. exact I.
  - apply Hver.
    apply (slots_Forall Mfull (λ e, taken e = true ∧ key e ≠ 8) wf_Mfull).
    apply (bool_decide_unpack _). vm_compute. exact I.
  - apply Hclaim. intros j Hj.
    refine (slots_Forall Mfull (λ e, taken e = true) wf_Mfull _ j Hj).
    apply (bool_decide_unpack _). vm_compute. exact I.
Defined.

Lemma full_Mfull : full Mfull.
Proof.
  intros j Hj. refine (slots_Forall Mfull (λ e, taken e = true) wf_Mfull _ j Hj).
  apply (bool_decide_unpack _). vm_compute. exact I.
Qed.

Lemma first_call_wins_below_capacity_witness :
  (∃ M', insert_all [(7, 1); (8, 2); (7, 3)] M0
         = Val ([Inserted; Inserted; LostRace], M'))
  ∧ insert_and_set 7 1 Mfull = Val (CapacityExceeded, Mfull).
Proof.
  destruct (first_call_wins_below_capacity (K:=nat) (V:=nat)) as [Hseq Hcap].
  split.
  - apply (Hseq 0 (λ k, k) [(7, 1); (8, 2); (7, 3)]). vm_compute. lia.
  - apply (Hcap Mfull 7 1 wf_Mfull). exact full_Mfull.
Defined.

(** C3 as stated fails twice on a table of 100 slots.  With one key, called
    101 times, the last call finds the table full and reports
    CapacityExceeded.  With 100 different keys, the last call claims the
    last slot, its verification scan goes round the table, meets its own
    slot again and answers [false]: that key has no winning call. *)
Lemma capacity_counts_calls_not_keys :
  (length (remove_dups (replicate 101 (7, 1)).*1) ≤ m M0
   ∧ insert_all (replicate 101 (7, 1)) M0
     = Val (Inserted :: replicate 99 LostRace ++ [CapacityExceeded], Mfull))
  ∧ (length (remove_dups hundred_keys.*1) ≤ m M0
     ∧ insert_all hundred_keys M0
       = Val (replicate 99 Inserted ++ [LostRace], Mdistinct)).
Proof.
  split; (split; [vm_compute; lia|vm_compute; reflexivity]).
Qed.

End MapWitnesses.

(** * How the operations of the hash map compose *)

Module MapLaws.
Import convex_hash_map MapSpec MapFacts.
Section laws.
Context {K V : Type} `{!EqDecision K, !EqDecision V, !Inhabited K, !Inhabited V}.
Implicit Types (M : t K V) (k : K) (v : V) (e : entry K V).

(** X1.  A call of [insert_and_set] on a table with two free slots or more
    answers [true] exactly when no claimed slot, removed or not, holds the
    key.  Whatever it answers it prints nothing, claims one more slot, and
    [keys] lists the key once more than before: a call that loses leaves a
    second entry of its key. *)
Theorem insert_and_set_claims_a_slot_per_call M k v :
  Inv M → taken_count M + 1 < m M →
  ∃ b M', insert_and_set k v M = Val ((b, []), M')
          ∧ (b = true ↔ ¬ has_key M k)
          ∧ keys M' ≡ₚ k :: keys M
          ∧ taken_count M' = S (taken_count M)
          ∧ Inv M'.
Proof.
  intros HInv Hcount.
  destruct (insert_and_set_step M k v HInv Hcount)
    as (b & M' & Hrun & Hb & HInv' & Hc & _ & Hkeys & _).
  by exists b, M'.
Qed.

(** X2.  Insertion and lookup.  After [insert_and_set(k, x)] has answered
    [true] on a table that did not hold [k], [get_value(k, v)] returns [x]
    for every [v] other than [x], and [get_value(k, x)], which leaves the
    value [x] out, returns the empty optional. *)
Theorem winning_insert_round_trip M k x out M1 :
  wf M → ¬ has_key M k →
  insert_and_set k x M = Val ((true, out), M1) →
  (∀ v, x ≠ v → get_value k v M1 = Val (Some x))
  ∧ get_value k x M1 = Val None.
Proof.
  intros Hwf Hno Hrun. split.
  - intros v Hv. by eapply get_value_after_insert.
  - destruct (insert_and_set_entries M k x _ M1 Hwf Hrun) as (Hwf1 & Hm1 & Hent).
    assert (has_room M1) as Hroom.
    { apply insert_and_set_inv in Hrun as [(_ & [=] & _)|(d & _ & _ & _ & _ & Hr)];
        [|done]. by apply Hr. }
    destruct (get_value_returns M1 k x Hwf1 Hroom) as [[y|] Hr]; [|done]. exfalso.
    pose proof (get_value_loop_Some_ne _ _ _ _ _ _ Hr) as Hne.
    destruct (get_value_Some_inv M1 k x y Hwf1 Hr) as (j & Hj & Ht & Hk & Hy).
    rewrite Hm1 in Hj.
    destruct (Hent j Hj Ht) as [(Ht0 & Hk0 & _)|[_ Hv0]]; [|congruence].
    apply Hno. exists j. split_and!; [done|done|congruence].
Qed.

(** X3.  A key that no claimed slot holds: on a table with a free slot
    [get_value] returns the empty optional, [remove] answers [false] and
    leaves the table as it is, and [keys] does not list the key. *)
Theorem absent_key_is_not_found M k v :
  wf M → has_room M → ¬ has_key M k →
  get_value k v M = Val None ∧ remove k M = Val (false, M) ∧ k ∉ keys M.
Proof.
  intros Hwf Hroom Hno. split_and!.
  - by apply get_value_absent.
  - apply remove_no_live; [done|done|by apply no_key_no_live].
  - intros Hin. apply keys_elem in Hin as (j & Hj & Hl & Hk); [|done].
    apply Hno. exists j. unfold live in Hl. apply andb_true_iff in Hl as [Ht _]. done.
Qed.

(** X4.  What [get_value(k, v)] returns is never [v] and is the value of a
    claimed slot that holds [k]. *)
Theorem get_value_returns_a_stored_value M k v x :
  wf M → get_value k v M = Val (Some x) →
  x ≠ v
  ∧ ∃ j, j < m M ∧ taken (R M !!! j) = true ∧ key (R M !!! j) = k
         ∧ value (R M !!! j) = x.
Proof.
  intros Hwf Hr. split.
  - by eapply get_value_loop_Some_ne.
  - by eapply get_value_Some_inv.
Qed.

(** X5.  Removal and [keys].  On a table with a free slot whose live keys
    are pairwise different, [remove(k)] answers [true] exactly when [keys]
    lists [k]; afterwards [keys] is the list from before without [k], in
    the same order, and as many slots are claimed as before: the slot is
    not given back. *)
Theorem remove_drops_the_key_from_keys M k :
  Inv M → has_room M → NoDup (keys M) →
  ∃ b M', remove k M = Val (b, M')
          ∧ (b = true ↔ k ∈ keys M)
          ∧ keys M' = filter (λ x, x ≠ k) (keys M)
          ∧ taken_count M' = taken_count M
          ∧ Inv M'.
Proof.
  intros HInv Hroom Hnd. pose proof HInv as (Hwf & Hch & _ & _).
  destruct (remove_keys M k Hwf Hroom Hch Hnd) as (b & M' & Hrun & Hsame & Hkeys).
  exists b, M'. split_and!; [done| |done|by apply same_but_removed_count|by eapply remove_Inv].
  split.
  - intros ->. apply remove_loop_true_inv in Hrun as (j & Hj & Ht & Hr & Hk & _);
      [|apply start_index_lt, Hwf].
    apply keys_elem; [done|]. exists j. unfold live. by rewrite Ht, Hr.
  - intros Hin. destruct (remove_chained M k Hwf Hch Hin) as (j & _ & _ & _ & Hrun').
    rewrite Hrun in Hrun'. by injection Hrun' as ->.
Qed.

(** X6.  A removed key does not come back.  On a table that does not hold
    [k]: [insert_and_set(k, v)] answers [true], [remove(k)] answers [true]
    and [keys] no longer lists [k]; a further [insert_and_set(k, v')]
    answers [false] without printing, although no live entry holds [k];
    its slot stays claimed, so [keys] lists [k] again, and
    [get_value(k, v')] returns the removed value [v]. *)
Theorem removed_key_is_not_inserted_again M k v v' :
  Inv M → taken_count M + 2 < m M → ¬ has_key M k →
  ∃ M1 M2 M3,
    insert_and_set k v M = Val (Inserted, M1)
    ∧ remove k M1 = Val (true, M2) ∧ (k ∉ keys M2)
    ∧ insert_and_set k v' M2 = Val (LostRace, M3)
    ∧ k ∈ keys M3
    ∧ (v ≠ v' → get_value k v' M3 = Val (Some v)).
Proof.
  intros HInv Hcount Hno. pose proof HInv as (Hwf & _).
  destruct (insert_and_set_step M k v HInv ltac:(lia))
    as (b1 & M1 & Hrun1 & Hb1 & HInv1 & Hc1 & Hhas1 & Hkeys1 & Hm1).
  assert (b1 = true) as -> by by apply Hb1.
  pose proof HInv1 as (Hwf1 & Hch1 & _ & _).
  assert (k ∈ keys M1) as Hin1 by (rewrite Hkeys1; left).
  destruct (remove_chained M1 k Hwf1 Hch1 Hin1) as (j & Hj & Hlj & Hkj & Hrun2).
  set (M2 := set_R M1 (<[j := set_removed (R M1 !!! j)]> (R M1))) in *.
  pose proof (remove_Inv M1 k true M2 HInv1 Hrun2) as HInv2.
  pose proof (remove_loop_same _ _ _ _ _ _ Hrun2) as Hsame2.
  pose proof (same_but_removed_count _ _ Hsame2) as Hc2.
  assert (has_key M2 k) as Hhas2.
  { apply (same_but_removed_has_key M1 M2 k Hsame2). apply Hhas1. by right. }
  destruct (insert_remove_no_live M k v [] M1 M2 Hwf (no_key_no_live M k Hno) Hrun1 Hrun2)
    as (Hwf2 & _ & Hnl2 & _).
  assert (m M2 = m M1) as Hm2 by done.
  destruct (insert_and_set_step M2 k v' HInv2 ltac:(lia))
    as (b3 & M3 & Hrun3 & Hb3 & HInv3 & Hc3 & _ & Hkeys3 & Hm3).
  assert (b3 = false) as ->.
  { destruct b3; [|done]. exfalso. by apply Hb3. }
  exists M1, M2, M3. split_and!; [done|done| |done| |].
  - intros Hin. apply keys_elem in Hin as (j' & Hj' & Hl' & Hk'); [|done].
    by apply (Hnl2 j').
  - rewrite Hkeys3. left.
  - intros Hvv.
    pose proof HInv3 as (Hwf3 & _).
    assert (has_room M3) as Hroom3 by (apply count_room; [done|lia]).
    destruct (get_value_returns M3 k v' Hwf3 Hroom3) as [r Hr].
    assert (∀ i, i < m M2 → taken (R M2 !!! i) = true → key (R M2 !!! i) = k →
                 value (R M2 !!! i) = v) as Hold.
    { intros i Hi Hti Hki. destruct Hsame2 as (_ & _ & _ & Hs2).
      destruct (Hs2 i) as (Hti' & _ & Hki' & Hvi').
      rewrite Hti' in Hti. rewrite Hki' in Hki. rewrite Hvi'.
      destruct (insert_and_set_entries M k v _ M1 Hwf Hrun1) as (_ & Hmm & Hent).
      rewrite Hm2, Hmm in Hi.
      destruct (Hent i Hi Hti) as [(Ht0 & Hk0 & _)|[_ Hv0]]; [|done].
      exfalso. apply Hno. exists i. split_and!; [done|done|congruence]. }
    destruct r as [y|].
    + pose proof (get_value_loop_Some_ne _ _ _ _ _ _ Hr) as Hne.
      destruct (get_value_Some_inv M3 k v' y Hwf3 Hr) as (i & Hi & Hti & Hki & Hyi).
      rewrite Hm3 in Hi.
      destruct (insert_and_set_entries M2 k v' _ M3 Hwf2 Hrun3) as (_ & _ & Hent).
      destruct (Hent i Hi Hti) as [(Ht0 & Hk0 & Hv0)|[_ Hv0]]; [|congruence].
      rewrite Hr. do 2 f_equal. rewrite <-Hyi, Hv0. apply Hold; [done|done|congruence].
    + exfalso. apply (lost_race_lookup M2 k v' [] M3 (Inv_linked M2 HInv2) Hrun3); [|done].
      intros i Hi Hti Hki. rewrite (Hold i Hi Hti Hki). done.
Qed.

(** X7.  The lookup after a lost race.  When [insert_and_set(k, v)]
    answers [false] and no slot held [k] with the value [v] before the
    call, [get_value(k, v)] does not come back empty; on a table that still
    has a free slot it returns a value other than [v] that a slot held
    under [k] before the call. *)
Theorem lost_race_lookup_finds_a_peer M k v out M' :
  linked M →
  (∀ j, j < m M → taken (R M !!! j) = true → key (R M !!! j) = k →
        value (R M !!! j) ≠ v) →
  insert_and_set k v M = Val ((false, out), M') →
  get_value k v M' ≠ Val None
  ∧ (has_room M' →
     ∃ w, get_value k v M' = Val (Some w) ∧ w ≠ v
          ∧ ∃ j, j < m M ∧ taken (R M !!! j) = true ∧ key (R M !!! j) = k
                 ∧ value (R M !!! j) = w).
Proof.
  intros Hlk Hval Hrun. pose proof Hlk as (Hwf & _).
  pose proof (lost_race_lookup M k v out M' Hlk Hrun Hval) as Hsome.
  split; [done|]. intros Hroom.
  destruct (insert_and_set_entries M k v _ M' Hwf Hrun) as (Hwf' & Hm' & Hent).
  destruct (get_value_returns M' k v Hwf' Hroom) as [[w|] Hr]; [|done].
  exists w. pose proof (get_value_loop_Some_ne _ _ _ _ _ _ Hr) as Hne.
  split_and!; [done..|].
  destruct (get_value_Some_inv M' k v w Hwf' Hr) as (j & Hj & Ht & Hk & Hw).
  rewrite Hm' in Hj. destruct (Hent j Hj Ht) as [(Ht0 & Hk0 & Hv0)|[_ Hv0]]; [|congruence].
  exists j. split_and!; congruence.
Qed.

(** X8.  A key that has been inserted is found ever after.  Take any
    sequence of [insert_and_set] and [remove] calls on a new table that
    contains a call [insert_and_set(k, x)] and leaves a free slot.  Then
    [get_value(k, v)] returns a value, for every [v] other than [x]:
    neither a later [remove(k)] nor any other call hides the entry. *)
Theorem inserted_key_is_always_found size (h : K → nat) cs1 k x cs2 M v :
  run_calls (cs1 ++ CallInsert k x :: cs2) (make size h) = Val M →
  has_room M → x ≠ v →
  ∃ y, get_value k v M = Val (Some y) ∧ y ≠ v.
Proof.
  rewrite run_calls_app.
  destruct (run_calls cs1 (make size h)) as [Ma|] eqn:H1; [|done]. simpl.
  destruct (insert_and_set k x Ma) as [[o Mb]|] eqn:H2; [|done].
  intros H3 Hroom Hxv.
  destruct (run_calls_linked cs1 _ Ma (linked_make size h) H1) as (Hlka & _ & _).
  pose proof (insert_and_set_linked Ma k x o Mb Hlka H2) as Hlkb.
  destruct (run_calls_linked cs2 Mb M Hlkb H3) as (Hlk & Hm & Hp).
  pose proof Hlk as (Hwf & Hch & _). pose proof Hlka as (Hwfa & _).
  assert (has_room Mb) as Hroomb.
  { destruct Hroom as (j & Hj & Hfree). exists j. rewrite Hm in Hj. split; [done|].
    destruct (taken (R Mb !!! j)) eqn:Ht; [|done].
    destruct (Hp j Hj Ht) as (Ht' & _). congruence. }
  destruct (insert_and_set_stores Ma k x o Mb Hwfa H2 Hroomb) as (j & Hj & Ht & Hk & Hx).
  destruct (Hp j Hj Ht) as (Ht' & Hk' & Hx').
  destruct (get_value_returns M k v Hwf Hroom) as [[y|] Hr].
  - exists y. split; [done|]. by eapply get_value_loop_Some_ne.
  - exfalso. apply (get_value_finds M k v Hwf Hch); [|done].
    exists j. split_and!; congruence.
Qed.

(** X9.  Other keys are not disturbed.  A call [insert_and_set(k, v)] that
    leaves a free slot changes the answer of [get_value(k', v')] for no key
    [k'] other than [k]. *)
Theorem insert_and_set_keeps_other_lookups M k v o M' k' v' :
  linked M → k' ≠ k → insert_and_set k v M = Val (o, M') → has_room M' →
  get_value k' v' M' = get_value k' v' M.
Proof.
  intros Hlk Hkk Hrun Hroom'. pose proof Hlk as (Hwf & Hch & _).
  destruct (insert_and_set_entries M k v o M' Hwf Hrun) as (Hwf' & Hm' & Hent).
  pose proof (insert_and_set_persists M k v o M' Hwf Hrun) as Hp.
  assert (hash M' = hash M) as Hh'.
  { destruct o as [b out].
    destruct (insert_and_set_inv M k v b out M' Hwf Hrun)
      as [(_ & _ & ->)|(d & _ & _ & _ & (_ & Hh & _) & _)]; done. }
  assert (start_index M' k' = start_index M k') as Hst.
  { unfold start_index. by rewrite Hm', Hh'. }
  assert (∀ a b, probe M' a b = probe M a b) as Hpr.
  { intros a b. unfold probe. by rewrite Hm'. }
  assert (has_room M) as Hroom.
  { destruct Hroom' as (j & Hj & Hfree). rewrite Hm' in Hj. exists j. split; [done|].
    destruct (taken (R M !!! j)) eqn:Ht; [|done].
    destruct (Hp j Hj Ht) as (Ht' & _). congruence. }
  set (s := start_index M k') in *.
  assert (s < m M) as Hs by apply start_index_lt, Hwf.
  destruct (room_first_stop M (stop_get_value k' v') s) as (d & Hd & Hfs);
    [intros e He; unfold stop_get_value; by rewrite He|done|done|].
  rewrite (get_value_first M k' v' d Hwf Hd Hfs). unfold slot_of. fold s.
  destruct Hfs as [Hstop Hbefore].
  assert (∀ j, j < m M → taken (R M !!! j) = true →
               stop_get_value k' v' (R M' !!! j) = stop_get_value k' v' (R M !!! j))
    as Hsame.
  { intros j Hj Ht. destruct (Hp j Hj Ht) as (Ht' & Hk' & Hv').
    unfold stop_get_value. by rewrite Ht', Hk', Hv', Ht. }
  assert (∀ d', d' < d → taken (R M !!! probe M s d') = true) as Htaken.
  { intros d' Hd'. specialize (Hbefore d' Hd'). unfold stop_get_value in Hbefore.
    by destruct (taken (R M !!! probe M s d')). }
  destruct (taken (R M !!! probe M s d)) eqn:Ht.
  - destruct (Hp (probe M s d) (probe_lt M s d (proj2 Hwf)) Ht) as (Ht' & _ & Hv').
    rewrite (get_value_first M' k' v' d); [|done|lia|].
    + unfold slot_of. by rewrite Hst, Hpr, Ht', Hv'.
    + rewrite Hst. split.
      * rewrite Hpr, Hsame; [done|apply probe_lt, Hwf|done].
      * intros d' Hd'. rewrite Hpr, Hsame; [by apply Hbefore|apply probe_lt, Hwf|].
        by apply Htaken.
  - destruct (get_value_returns M' k' v' Hwf' Hroom') as [[y|] Hr]; [|done]. exfalso.
    pose proof (get_value_loop_Some_ne _ _ _ _ _ _ Hr) as Hne.
    destruct (get_value_Some_inv M' k' v' y Hwf' Hr) as (j & Hj & Htj & Hkj & Hyj).
    rewrite Hm' in Hj.
    destruct (Hent j Hj Htj) as [(Ht0 & Hk0 & Hv0)|[Hk0 _]]; [|congruence].
    destruct (Hch j Hj Ht0) as (dj & Hdj & Hpj & Hbj).
    rewrite <-Hk0, Hkj in Hpj, Hbj. fold s in Hpj. unfold slot_of in Hbj. fold s in Hbj.
    destruct (decide (d < dj)) as [Hlt|Hge].
    + specialize (Hbj d Hlt). congruence.
    + destruct (decide (d = dj)) as [->|Hned]; [rewrite Hpj in Ht; congruence|].
      specialize (Hbefore dj ltac:(lia)). rewrite Hpj in Hbefore.
      unfold stop_get_value in Hbefore. rewrite Ht0 in Hbefore. simpl in Hbefore.
      rewrite !bool_decide_true in Hbefore; [done|congruence|congruence].
Qed.

(** X20.  The last free slot is never won.  The call of [insert_and_set]
    that claims the last free slot of the table answers [false] without
    printing, also for a key that no slot held: its second scan finds no
    free slot to stop at, goes round the table and meets the slot it has
    just marked.  The table is then full, and [keys] lists the key once
    more than before. *)
Theorem last_free_slot_is_never_won M k v :
  Inv M → taken_count M + 1 = m M →
  ∃ M', insert_and_set k v M = Val (LostRace, M') ∧ full M'
        ∧ keys M' ≡ₚ k :: keys M
        ∧ insert_and_set k v M' = Val (CapacityExceeded, M').
Proof.
  intros HInv Hcount.
  destruct (insert_and_set_last_slot M k v HInv Hcount) as (M' & Hrun & Hfull & Hkeys).
  exists M'. split_and!; [done..|]. apply insert_and_set_full; [|done].
  destruct HInv as (Hwf & _).
  by destruct (insert_and_set_entries M k v _ M' Hwf Hrun) as (? & _).
Qed.

End laws.
End MapLaws.

Module MapLawsWitnesses.
Import convex_hash_map MapSpec MapFacts MapExamples MapWitnesses MapLaws.

Lemma Inv_M0 : Inv M0.
Proof. apply (Inv_make 0 (λ k, k)). Qed.

Lemma count_M0 : taken_count M0 = 0.
Proof. apply (taken_count_make 0 (λ k, k)). Qed.

Lemma Inv_M1 : Inv M1.
Proof.
  destruct (insert_and_set_step M0 7 1 Inv_M0) as (b & M' & Hrun & _ & HInv & _).
  { rewrite count_M0. vm_compute. lia. }
  vm_compute in Hrun. injection Hrun as _ <-. exact HInv.
Qed.

Lemma room_M0 : has_room M0.
Proof. exists 0. split; [vm_compute; lia|reflexivity]. Qed.

Lemma room_M1 : has_room M1.
Proof. exists 0. split; [vm_compute; lia|reflexivity]. Qed.

Lemma insert_and_set_claims_a_slot_per_call_witness :
  ∃ b M', insert_and_set 7 2 M1 = Val ((b, []), M')
          ∧ (b = true ↔ ¬ has_key M1 7)
          ∧ keys M' ≡ₚ 7 :: keys M1
          ∧ taken_count M' = S (taken_count M1)
          ∧ Inv M'.
Proof.
  apply (insert_and_set_claims_a_slot_per_call M1 7 2); [apply Inv_M1|vm_compute; lia].
Defined.

Lemma winning_insert_round_trip_witness :
  (∀ v, 1 ≠ v → get_value 7 v M1 = Val (Some 1)) ∧ get_value 7 1 M1 = Val None.
Proof.
  apply (winning_insert_round_trip M0 7 1 []); [apply wf_M0|apply no_key_M0|].
  vm_compute. reflexivity.
Defined.

Lemma absent_key_is_not_found_witness :
  get_value 8 0 M1 = Val None ∧ remove 8 M1 = Val (false, M1) ∧ 8 ∉ keys M1.
Proof.
  apply (absent_key_is_not_found M1 8 0); [apply wf_M1|apply room_M1|].
  intros (j & Hj & Ht & Hk). revert j Hj Ht Hk.
  apply (slots_Forall M1 (λ e, taken e = true → key e = 8 → False) wf_M1).
  apply (bool_decide_unpack _). vm_compute. reflexivity.
Defined.

Lemma get_value_returns_a_stored_value_witness :
  1 ≠ 2
  ∧ ∃ j, j < m M1 ∧ taken (R M1 !!! j) = true ∧ key (R M1 !!! j) = 7
         ∧ value (R M1 !!! j) = 1.
Proof.
  apply (get_value_returns_a_stored_value M1 7 2 1); [apply wf_M1|].
  vm_compute. reflexivity.
Defined.

Lemma remove_drops_the_key_from_keys_witness :
  ∃ b M', remove 7 M1 = Val (b, M')
          ∧ (b = true ↔ 7 ∈ keys M1)
          ∧ keys M' = filter (λ x, x ≠ 7) (keys M1)
          ∧ taken_count M' = taken_count M1
          ∧ Inv M'.
Proof.
  apply (remove_drops_the_key_from_keys M1 7); [apply Inv_M1|apply room_M1|].
  vm_compute. apply NoDup_singleton.
Defined.

Lemma removed_key_is_not_inserted_again_witness :
  ∃ M1 M2 M3,
    insert_and_set 7 1 M0 = Val (Inserted, M1)
    ∧ remove 7 M1 = Val (true, M2) ∧ (7 ∉ keys M2)
    ∧ insert_and_set 7 2 M2 = Val (LostRace, M3)
    ∧ 7 ∈ keys M3
    ∧ (1 ≠ 2 → get_value 7 2 M3 = Val (Some 1)).
Proof.
  apply (removed_key_is_not_inserted_again M0 7 1 2);
    [apply Inv_M0|rewrite count_M0; vm_compute; lia|apply no_key_M0].
Defined.

Lemma lost_race_lookup_finds_a_peer_witness :
  get_value 7 2 (after (insert_and_set 7 2 M1) M1) ≠ Val None
  ∧ (has_room (after (insert_and_set 7 2 M1) M1) →
     ∃ w, get_value 7 2 (after (insert_and_set 7 2 M1) M1) = Val (Some w) ∧ w ≠ 2
          ∧ ∃ j, j < m M1 ∧ taken (R M1 !!! j) = true ∧ key (R M1 !!! j) = 7
                 ∧ value (R M1 !!! j) = w).
Proof.
  apply (lost_race_lookup_finds_a_peer M1 7 2 []).
  - apply Inv_linked, Inv_M1.
  - apply (slots_Forall M1 (λ e, taken e = true → key e = 7 → value e ≠ 2) wf_M1).
    apply (bool_decide_unpack _). vm_compute. reflexivity.
  - vm_compute. reflexivity.
Defined.

Lemma inserted_key_is_always_found_witness :
  ∃ y, get_value 7 2 M2 = Val (Some y) ∧ y ≠ 2.
Proof.
  apply (inserted_key_is_always_found 0 (λ k, k) [] 7 1 [CallRemove 7] M2 2).
  - vm_compute. reflexivity.
  - exists 0. split; [vm_compute; lia|reflexivity].
  - lia.
Defined.

Lemma insert_and_set_keeps_other_lookups_witness :
  get_value 7 2 (after (insert_and_set 8 5 M1) M1) = get_value 7 2 M1.
Proof.
  apply (insert_and_set_keeps_other_lookups M1 8 5 Inserted _ 7 2).
  - apply Inv_linked, Inv_M1.
  - lia.
  - vm_compute. reflexivity.
  - exists 0. split; [vm_compute; lia|reflexivity].
Defined.

Lemma Inv_M99 : Inv M99.
Proof.
  destruct (insert_all_first_wins (take 99 hundred_keys) M0 [] Inv_M0)
    as (M & Hrun & HInv & _).
  - rewrite count_M0. vm_compute. lia.
  - intros k. split; [|by intros ?%elem_of_nil].
    intros (j & _ & Ht & _). unfold M0 in Ht. by rewrite make_free in Ht.
  - vm_compute in Hrun. injection Hrun as <-. exact HInv.
Qed.

Lemma last_free_slot_is_never_won_witness :
  ∃ M', insert_and_set 99 0 M99 = Val (LostRace, M') ∧ full M'
        ∧ keys M' ≡ₚ 99 :: keys M99
        ∧ insert_and_set 99 0 M' = Val (CapacityExceeded, M').
Proof.
  apply (last_free_slot_is_never_won M99 99 0); [apply Inv_M99|vm_compute; reflexivity].
Defined.

End MapLawsWitnesses.

(** * Properties of the hull builder *)

Module HullFacts.
Import convex_hash_map MapSpec MapFacts Convex_Hull_3d HullSpec.
Section facts.
Context `{ops : FloatOps}.
Implicit Types (s : state) (P c : Points) (tr : triangle).

Lemma and_then_Returned (a b : run) s s' :
  a s = (Returned, s') → and_then a b s = b s'.
Proof. unfold and_then. by intros ->. Qed.

Lemma print_nil s : print s [] = s.
Proof. destruct s. unfold print. simpl. by rewrite app_nil_r. Qed.

Lemma hull_insert_and_set_step k v s :
  Inv (convex_hull s) →
  taken_count (convex_hull s) + 1 < m (convex_hull s) →
  ∃ H, hull_insert_and_set k v s = (Returned, set_convex_hull s H)
       ∧ Inv H ∧ taken_count H = S (taken_count (convex_hull s))
       ∧ keys H ≡ₚ k :: keys (convex_hull s)
       ∧ m H = m (convex_hull s).
Proof.
  intros HInv Hc.
  destruct (insert_and_set_step (convex_hull s) k v HInv Hc)
    as (b & H & Hrun & _ & HInv' & Hc' & _ & Hkeys & Hm).
  exists H. unfold hull_insert_and_set. rewrite Hrun, print_nil. done.
Qed.

Lemma get_visible_points_nil s t0 pd : get_visible_points s t0 pd [] = [].
Proof. done. Qed.

(** A ridge between two records without conflicts is final. *)
Lemma process_ridge_stable fuel t1 r t2 s :
  conflicts (deref s t1) = [] → conflicts (deref s t2) = [] →
  process_ridge (S fuel) t1 r t2 s = (Returned, s).
Proof. intros H1 H2. simpl. by rewrite H1, H2. Qed.

Lemma make_seed_nil i s :
  make_seed i [] s
  = State (map_facets s) (points s) (convex_hull s) (n s)
          (heap s ++ [Triangle (init_tri !!! i) (remain !!! i) []]) (cout s).
Proof. done. Qed.

Lemma deref_no_conflicts s i :
  Forall (λ tr, conflicts tr = []) (heap s) → conflicts (deref s i) = [].
Proof.
  intros HF. unfold deref. rewrite list_lookup_total_alt.
  destruct (_ !! _) as [tr|] eqn:E; [|reflexivity].
  simpl. by eapply (Forall_lookup_1 _ _ _ _ HF).
Qed.

Lemma ridges_stable fuel (l : list (nat * nat * edge)) (a : run) s :
  Forall (λ tr, conflicts tr = []) (heap s) →
  a s = (Returned, s) →
  foldl (λ a '(t1_idx, t2_idx, e), and_then a (process_ridge (S fuel) t1_idx e t2_idx))
        a l s = (Returned, s).
Proof.
  intros HF. revert a. induction l as [|[[t1 t2] e] l IH]; intros a Ha; [done|].
  simpl. apply IH. rewrite (and_then_Returned _ _ _ _ Ha).
  apply process_ridge_stable; by apply deref_no_conflicts.
Qed.

(** ** Sorted conflict lists *)

Lemma sorted_ids_weakly c : sorted_ids c → weakly_sorted c.
Proof.
  induction 1 as [|p l _ IH HF]; constructor; [done|].
  eapply Forall_impl; [exact HF|]. unfold id_lt, id_le. intros; lia.
Qed.

Lemma sorted_ids_sublist c c' : c' `sublist_of` c → sorted_ids c → sorted_ids c'.
Proof.
  induction 1 as [|p l1 l2 Hsub IH|p l1 l2 Hsub IH]; intros Hs; [done|..].
  - apply StronglySorted_inv in Hs as [Hs HF]. constructor; [by apply IH|].
    rewrite Forall_forall in HF |- *. intros q Hq. apply HF.
    by eapply elem_of_sublist.
  - apply StronglySorted_inv in Hs as [Hs _]. by apply IH.
Qed.

Lemma pack_sublist {A} (p : list A) (keep : list bool) : pack p keep `sublist_of` p.
Proof.
  revert keep. induction p as [|a p IH]; intros [|[] keep]; simpl;
    try apply sublist_nil_l; [by apply sublist_skip|by apply sublist_cons].
Qed.

Lemma tabulate_S {A} n (f : nat → A) : tabulate (S n) f = f 0 :: tabulate n (f ∘ S).
Proof. unfold tabulate. simpl. by rewrite <-fmap_S_seq, <-list_fmap_compose. Qed.

Lemma tabulate_ext {A} n (f g : nat → A) : (∀ i, f i = g i) → tabulate n f = tabulate n g.
Proof. intros Hfg. unfold tabulate. by apply list_fmap_ext. Qed.

Lemma merge_cons_cons p a q b :
  merge (p :: a) (q :: b)
  = if point_lt q p then q :: merge (p :: a) b else p :: merge a (q :: b).
Proof. done. Qed.

Lemma merge_nil_r a : merge a [] = a.
Proof. by destruct a. Qed.

Lemma merge_Forall (Q : point ops → Prop) a b :
  Forall Q a → Forall Q b → Forall Q (merge a b).
Proof.
  intros Ha. revert b. induction Ha as [|p a Hp Ha IHa]; intros b Hb; [by destruct b|].
  induction Hb as [|q b Hq Hb IHb]; [by constructor|].
  rewrite merge_cons_cons. destruct (point_lt q p).
  - by constructor.
  - constructor; [done|]. apply IHa. by constructor.
Qed.

Lemma merge_weakly_sorted a b :
  weakly_sorted a → weakly_sorted b → weakly_sorted (merge a b).
Proof.
  intros Ha. revert b. induction Ha as [|p a Ha IHa Hpa]; intros b Hb; [by destruct b|].
  induction Hb as [|q b Hb IHb Hqb]; [rewrite merge_nil_r; by constructor|].
  rewrite merge_cons_cons. unfold point_lt.
  destruct (Z.ltb_spec (id q) (id p)) as [Hlt|Hge].
  - constructor; [done|]. apply merge_Forall; [|done].
    constructor; [unfold id_le; lia|].
    eapply Forall_impl; [exact Hpa|]. unfold id_le. intros; lia.
  - constructor; [apply IHa; by constructor|]. apply merge_Forall; [done|].
    constructor; [done|].
    eapply Forall_impl; [exact Hqb|]. unfold id_le. intros; lia.
Qed.

Lemma dedup_after_sorted prev l :
  weakly_sorted (prev :: l) →
  sorted_ids (dedup_after prev l) ∧ Forall (id_lt prev) (dedup_after prev l).
Proof.
  revert prev. induction l as [|q l IH]; intros prev Hs; [by split; constructor|].
  apply StronglySorted_inv in Hs as [Hs Hprev].
  destruct (IH q Hs) as [Hsorted Hall]. apply Forall_cons in Hprev as [Hpq _].
  simpl. case_bool_decide as Heq.
  - split; [done|]. eapply Forall_impl; [exact Hall|]. unfold id_lt. intros; lia.
  - assert (id_lt prev q) as Hlt by (unfold id_lt, id_le in *; lia). split.
    + by constructor.
    + constructor; [done|]. eapply Forall_impl; [exact Hall|].
      unfold id_lt in *. intros; lia.
Qed.

Lemma pack_dedup_after prev l :
  pack l (tabulate (length l) (λ i,
    negb (bool_decide (S i = 0))
    && negb (bool_decide (id ((prev :: l) !!! S i) = id ((prev :: l) !!! (S i - 1))))))
  = dedup_after prev l.
Proof.
  revert prev. induction l as [|q l IH]; intros prev; [done|].
  cbn [length]. rewrite tabulate_S. cbn [pack dedup_after].
  rewrite <-(IH q).
  assert (∀ f g : nat → bool, (∀ i, f i = g i) →
            pack l (tabulate (length l) f) = pack l (tabulate (length l) g)) as Hext.
  { intros f g Hfg. by rewrite (tabulate_ext _ f g). }
  rewrite (Hext _ (λ i, negb (bool_decide (S i = 0))
      && negb (bool_decide (id ((q :: l) !!! S i) = id ((q :: l) !!! (S i - 1)))))).
  - simpl. by destruct (bool_decide (id q = id prev)).
  - intros i. simpl. by rewrite Nat.sub_0_r.
Qed.

Lemma uni_dedup_sorted c1 c2 :
  sorted_ids c1 → sorted_ids c2 → sorted_ids (uni_dedup c1 c2).
Proof.
  intros H1 H2. unfold uni_dedup.
  pose proof (merge_weakly_sorted c1 c2 (sorted_ids_weakly _ H1) (sorted_ids_weakly _ H2))
    as Hm.
  destruct (merge c1 c2) as [|p l]; [constructor|].
  cbn [length]. rewrite tabulate_S. cbn [pack]. simpl negb. cbn [andb].
  rewrite (tabulate_ext _ _ (λ i, negb (bool_decide (S i = 0))
      && negb (bool_decide (id ((p :: l) !!! S i) = id ((p :: l) !!! (S i - 1)))))).
  - rewrite pack_dedup_after. by apply dedup_after_sorted.
  - done.
Qed.

Lemma get_visible_points_sorted s t0 pd c :
  sorted_ids c → sorted_ids (get_visible_points s t0 pd c).
Proof. apply sorted_ids_sublist, pack_sublist. Qed.

Lemma deref_sorted s tp : heap_sorted s → sorted_ids (conflicts (deref s tp)).
Proof.
  intros HF. unfold deref. rewrite list_lookup_total_alt.
  destruct (_ !! _) as [tr|] eqn:E; [|constructor].
  simpl. by eapply (Forall_lookup_1 _ _ _ _ HF).
Qed.

Lemma make_shared_sorted tr s :
  heap_sorted s → sorted_ids (conflicts tr) → heap_sorted (make_shared tr s).2.
Proof.
  intros HF Htr. unfold heap_sorted, make_shared. simpl.
  apply Forall_app. split; [done|]. by constructor.
Qed.

Lemma and_then_keeps a b : keeps_sorted a → keeps_sorted b → keeps_sorted (and_then a b).
Proof.
  intros Ha Hb s Hs. unfold and_then. specialize (Ha s Hs).
  destruct (a s) as [[] s']; simpl in *; try done. by apply Hb.
Qed.

Lemma hull_remove_keeps k : keeps_sorted (hull_remove k).
Proof.
  intros s Hs. unfold hull_remove. by destruct (remove _ _) as [[? ?]|].
Qed.

Lemma hull_insert_and_set_keeps k v : keeps_sorted (hull_insert_and_set k v).
Proof.
  intros s Hs. unfold hull_insert_and_set.
  by destruct (insert_and_set _ _ _) as [[[? ?] ?]|].
Qed.

Lemma check_edge_keeps rec e tp :
  (∀ t1 r t2, keeps_sorted (rec t1 r t2)) → keeps_sorted (check_edge rec e tp).
Proof.
  intros Hrec s Hs. unfold check_edge.
  destruct (insert_and_set _ _ _) as [[[b out] M]|]; [|done].
  destruct b; [done|].
  destruct (get_value _ _ _) as [[other|]|]; [|done..].
  by apply Hrec.
Qed.

Lemma process_ridge_keeps fuel t1 r t2 : keeps_sorted (process_ridge fuel t1 r t2).
Proof.
  revert t1 r t2. induction fuel as [|fuel IH]; intros t1 r t2 s Hs; [done|].
  simpl. destruct (_ && _); [done|].
  case_bool_decide.
  { by apply and_then_keeps; [apply hull_remove_keeps..|]. }
  destruct (_ <? _)%Z; [by apply IH|].
  apply and_then_keeps; [apply hull_remove_keeps|..].
  - apply and_then_keeps; [apply hull_insert_and_set_keeps|].
    apply and_then_keeps; [apply IH|].
    apply and_then_keeps; by apply check_edge_keeps.
  - apply (make_shared_sorted (Triangle _ _ _) s Hs). simpl.
    apply get_visible_points_sorted, uni_dedup_sorted; by apply deref_sorted.
Qed.

(** The first identifier of a sorted list is its least one. *)
Lemma min_conflicts_least s tp :
  sorted_ids (conflicts (deref s tp)) →
  (∀ q, q ∈ conflicts (deref s tp) → (min_conflicts s tp ≤ id q)%Z)
  ∧ (conflicts (deref s tp) ≠ [] →
     ∃ q, q ∈ conflicts (deref s tp) ∧ id q = min_conflicts s tp).
Proof.
  intros Hs. unfold min_conflicts. destruct (conflicts (deref s tp)) as [|p l]; split.
  - by intros q ?%elem_of_nil.
  - done.
  - apply StronglySorted_inv in Hs as [_ HF]. rewrite Forall_forall in HF.
    intros q [->|Hq]%elem_of_cons; [lia|]. specialize (HF q Hq). unfold id_lt in HF. lia.
  - intros _. exists p. split; [by left|done].
Qed.

(** C5.  [process_ridge(t1, r, t2)] with both conflict lists non-empty and
    the same first identifier runs [remove] on the facet of [t1], then on the
    facet of [t2], in the hull set, and returns.  Nothing else changes: the
    ridge map, the free store and the console are those of the state before,
    and in the hull set no slot is claimed or rewritten, only [removed] flags
    are set.  One unit of fuel is enough, so no recursive call is made.  When
    the hull set lists no facet twice, its keys afterwards are the keys
    before without the two facets. *)
Theorem process_ridge_tie_only_removes fuel t1 r t2 s :
  conflicts (deref s t1) ≠ [] → conflicts (deref s t2) ≠ [] →
  min_conflicts s t2 = min_conflicts s t1 →
  wf (convex_hull s) → has_room (convex_hull s) →
  ∃ b1 b2 H1 H2,
    remove (t (deref s t1)) (convex_hull s) = Val (b1, H1)
    ∧ remove (t (deref s t2)) H1 = Val (b2, H2)
    ∧ process_ridge (S fuel) t1 r t2 s = (Returned, set_convex_hull s H2)
    ∧ same_but_removed (convex_hull s) H2
    ∧ (chained (convex_hull s) → NoDup (keys (convex_hull s)) →
       keys H2 = filter (λ x, x ≠ t (deref s t1) ∧ x ≠ t (deref s t2))
                        (keys (convex_hull s))).
Proof.
  intros Hc1 Hc2 Hmin Hwf Hroom.
  destruct (remove_returns (convex_hull s) (t (deref s t1)) Hwf Hroom) as (b1 & H1 & E1).
  pose proof (remove_loop_same _ _ _ _ _ _ E1) as Hs1.
  destruct (remove_returns H1 (t (deref s t2))) as (b2 & H2 & E2);
    [by eapply same_but_removed_wf|by eapply same_but_removed_room|].
  pose proof (remove_loop_same _ _ _ _ _ _ E2) as Hs2.
  exists b1, b2, H1, H2. split_and!; [done|done| |by eapply same_but_removed_trans|].
  - simpl. rewrite bool_decide_false; [|by destruct (conflicts (deref s t1))].
    simpl. rewrite bool_decide_true by done.
    unfold and_then, hull_remove. rewrite E1. cbn [convex_hull set_convex_hull].
    by rewrite E2.
  - intros Hch Hnd.
    destruct (remove_keys (convex_hull s) (t (deref s t1)) Hwf Hroom Hch Hnd)
      as (b1' & H1' & E1' & _ & Hk1).
    rewrite E1 in E1'. injection E1' as <- <-.
    destruct (remove_keys H1 (t (deref s t2))) as (b2' & H2' & E2' & _ & Hk2);
      [by eapply same_but_removed_wf|by eapply same_but_removed_room
      |by eapply same_but_removed_chained|rewrite Hk1; by apply NoDup_filter|].
    rewrite E2 in E2'. injection E2' as <- <-.
    rewrite Hk2, Hk1. rewrite list_filter_filter.
    apply list_filter_iff. tauto.
Qed.

Lemma ridges_keep fuel (l : list (nat * nat * edge)) (a : run) :
  keeps_sorted a →
  keeps_sorted
    (foldl (λ a '(t1_idx, t2_idx, e), and_then a (process_ridge fuel t1_idx e t2_idx))
           a l).
Proof.
  revert a. induction l as [|[[t1 t2] e] l IH]; intros a Ha; [done|].
  simpl. apply IH. apply and_then_keeps; [done|apply process_ridge_keeps].
Qed.

Lemma make_seed_keeps i target s :
  sorted_ids target → heap_sorted s → heap_sorted (make_seed i target s).
Proof.
  intros Ht Hs. unfold make_seed. apply make_shared_sorted; [done|]. simpl.
  by apply get_visible_points_sorted.
Qed.

Section hashes.
Variable hash_edge : edge → nat.
Variable hash_tri : tri → nat.

(** C4.  Every record in the free store has its conflict list in strictly
    increasing order of identifier, at whatever point the run is cut: a call
    of [process_ridge] on a store with sorted lists leaves a store with
    sorted lists (the list of a new record is a pack of the deduplicated
    merge of two sorted lists), and so does the whole construction from an
    input in increasing order of identifier (the four initial lists are
    packs of the input).  Hence [min_conflicts] of a record is the least
    identifier of its conflict list when the list is not empty. *)
Theorem conflict_lists_sorted :
  (∀ fuel t1 r t2 s,
     heap_sorted s → heap_sorted (process_ridge fuel t1 r t2 s).2)
  ∧ (∀ fuel P,
       sorted_ids P →
       let s := (construct hash_edge hash_tri fuel P).2 in
       heap_sorted s
       ∧ ∀ tp,
           (∀ q, q ∈ conflicts (deref s tp) → (min_conflicts s tp ≤ id q)%Z)
           ∧ (conflicts (deref s tp) ≠ [] →
              ∃ q, q ∈ conflicts (deref s tp) ∧ id q = min_conflicts s tp)).
Proof.
  split; [intros fuel t1 r t2; apply process_ridge_keeps|].
  intros fuel P HP s.
  assert (heap_sorted s) as Hs.
  { unfold s, construct.
    apply and_then_keeps; [apply hull_insert_and_set_keeps| |by constructor].
    do 3 (apply and_then_keeps; [apply hull_insert_and_set_keeps|]).
    intros s0 Hs0.
    apply (ridges_keep fuel share_info (λ s1, (Returned, s1))); [by intros ? ?|].
    assert (sorted_ids (pack P (tabulate (length P) (λ i, bool_decide (3 < i)))))
      as Htarget by (eapply sorted_ids_sublist; [apply pack_sublist|done]).
    cbn [foldl seq]. by repeat apply make_seed_keeps. }
  split; [done|]. intros tp. by apply min_conflicts_least, deref_sorted.
Qed.

(** C6.  On four points the conflict lists are empty after the set-up, the
    six ridges are final at once, and [convex_hull_3d] returns the four seed
    facets, each once (in the order of their slots). *)
Theorem four_points_give_seed_facets P fuel :
  length P = 4 →
  ∃ l, convex_hull_3d hash_edge hash_tri (S fuel) P = (Returned, l)
       ∧ l ≡ₚ [(0, 1, 2); (1, 2, 3); (0, 2, 3); (0, 1, 3)]%Z.
Proof.
  intros Hlen.
  destruct P as [|p0 [|p1 [|p2 [|p3 [|]]]]]; try discriminate. clear Hlen.
  unfold convex_hull_3d, construct.
  set (s0 := init_state hash_edge hash_tri [p0; p1; p2; p3]).
  assert (Inv (convex_hull s0)) as HInv0 by apply Inv_make.
  assert (taken_count (convex_hull s0) = 0) as Hc0 by apply taken_count_make.
  assert (keys (convex_hull s0) = []) as Hk0.
  { unfold keys, map_maybe, s0, init_state, make. cbn [convex_hull R].
    generalize (100 + 3 * (6 * length [p0; p1; p2; p3]) / 2). intros k.
    induction k as [|k IH]; [done|]. cbn [replicate]. by rewrite omap_cons_eq. }
  assert (100 ≤ m (convex_hull s0)) as Hm0.
  { unfold s0, init_state, make. cbn [convex_hull m]. lia. }
  destruct (hull_insert_and_set_step (init_tri !!! 0) true s0) as (H1 & E1 & HI1 & Hc1 & Hk1 & Hm1);
    [done|lia|].
  rewrite (and_then_Returned _ _ _ _ E1).
  destruct (hull_insert_and_set_step (init_tri !!! 1) true (set_convex_hull s0 H1))
    as (H2 & E2 & HI2 & Hc2 & Hk2 & Hm2); [done|cbn [convex_hull set_convex_hull] in *; lia|].
  rewrite (and_then_Returned _ _ _ _ E2).
  destruct (hull_insert_and_set_step (init_tri !!! 2) true
              (set_convex_hull (set_convex_hull s0 H1) H2))
    as (H3 & E3 & HI3 & Hc3 & Hk3 & Hm3); [done|cbn [convex_hull set_convex_hull] in *; lia|].
  rewrite (and_then_Returned _ _ _ _ E3).
  destruct (hull_insert_and_set_step (init_tri !!! 3) true
              (set_convex_hull (set_convex_hull (set_convex_hull s0 H1) H2) H3))
    as (H4 & E4 & HI4 & Hc4 & Hk4 & Hm4); [done|cbn [convex_hull set_convex_hull] in *; lia|].
  rewrite (and_then_Returned _ _ _ _ E4).
  cbn [convex_hull set_convex_hull] in *.
  assert (pack [p0; p1; p2; p3]
            (tabulate (length [p0; p1; p2; p3]) (λ i, bool_decide (3 < i))) = [])
    as -> by done.
  cbn [foldl seq]. rewrite !make_seed_nil.
  rewrite ridges_stable; [|by repeat constructor|done].
  eexists. split; [done|]. cbn [convex_hull set_convex_hull].
  rewrite Hk4, Hk3, Hk2, Hk1, Hk0.
  apply (bool_decide_unpack _). vm_compute. exact I.
Qed.

End hashes.

(** ** With dense identifiers the lookup by the edge is the lookup by the key *)

Lemma extends_refl s : extends s s.
Proof. by split. Qed.

Lemma extends_trans s1 s2 s3 : extends s1 s2 → extends s2 s3 → extends s1 s3.
Proof. intros [? ?] [? ?]. split; [by etrans|congruence]. Qed.

Lemma extends_length s s' : extends s s' → length (heap s) ≤ length (heap s').
Proof. intros [? _]. by apply prefix_length. Qed.

Lemma deref_extends s s' tp :
  extends s s' → tp < length (heap s) → deref s' tp = deref s tp.
Proof.
  intros [[l Hl] _] Hlt. unfold deref. rewrite Hl. by rewrite lookup_total_app_l.
Qed.

Lemma good_frame s s' :
  heap s' = heap s → n s' = n s → map_facets s' = map_facets s → good s → good s'.
Proof.
  intros Hh Hn Hm. unfold good, entry_ok, deref. by rewrite Hh, Hn, Hm.
Qed.

Lemma extends_frame s s' : heap s' = heap s → n s' = n s → extends s s'.
Proof. intros Hh Hn. split; [by rewrite Hh|done]. Qed.

Lemma run_ok_same (a : run) s :
  heap (a s).2 = heap s → n (a s).2 = n s → map_facets (a s).2 = map_facets s →
  good s → run_ok a a s.
Proof.
  intros Hh Hn Hm Hg. split; [done|]. intros _.
  split; [by apply (good_frame s)|by apply extends_frame].
Qed.

Lemma hull_remove_ok k s : good s → run_ok (hull_remove k) (hull_remove k) s.
Proof.
  intros Hg. apply run_ok_same; [..|done]; unfold hull_remove;
    by destruct (remove _ _) as [[? ?]|].
Qed.

Lemma hull_insert_and_set_ok k v s :
  good s → run_ok (hull_insert_and_set k v) (hull_insert_and_set k v) s.
Proof.
  intros Hg. apply run_ok_same; [..|done]; unfold hull_insert_and_set;
    by destruct (insert_and_set _ _ _) as [[[? ?] ?]|].
Qed.

Lemma and_then_ok a a' b b' s :
  run_ok a a' s →
  ((a s).1 = Returned → good (a s).2 → extends s (a s).2 → run_ok b b' (a s).2) →
  run_ok (and_then a b) (and_then a' b') s.
Proof.
  intros [Heq Hpost] Hb. unfold run_ok, and_then in *. rewrite <-Heq.
  destruct (a s) as [st s1]. simpl in *.
  destruct st; try by split.
  destruct (Hpost eq_refl) as [Hg He]. destruct (Hb eq_refl Hg He) as [Heq' Hpost'].
  split; [done|]. intros Hret. destruct (Hpost' Hret) as [? ?].
  split; [done|]. by eapply extends_trans.
Qed.

Lemma and_then_steps Q a a' b b' :
  stable Q → steps_ok Q a a' → steps_ok Q b b' →
  steps_ok Q (and_then a b) (and_then a' b').
Proof.
  intros HQ Ha Hb s Hg Hq. apply and_then_ok; [by apply Ha|].
  intros _ Hg' He. apply Hb; [done|]. by eapply HQ.
Qed.

Lemma good_wf s : good s → wf (map_facets s).
Proof. by intros (_ & ? & _). Qed.

Lemma check_edge_ok rec rec' (e : edge) tp s :
  agree rec rec' → good s → (e.1 < e.2)%Z →
  tp < length (heap s) → above e.2 (deref s tp) →
  run_ok (check_edge rec e tp) (check_edge_by_key rec' e tp) s.
Proof.
  intros Hrec Hg He Htp Hab. unfold run_ok, check_edge, check_edge_by_key.
  rewrite (proj2 (Z.ltb_lt _ _)) by lia.
  destruct (insert_and_set _ _ _) as [[[b out] M]|] eqn:Hins; [|by split].
  destruct (insert_and_set_entries _ _ _ _ _ (good_wf s Hg) Hins) as (Hwf' & Hm' & Hent).
  set (s1 := print (set_map_facets s M) out).
  assert (good s1) as Hg1.
  { destruct Hg as (Hheap & _ & Hslots).
    unfold good, entry_ok, deref, s1 in *.
    cbn [heap n map_facets set_map_facets print].
    split; [done|]. split; [apply Hwf'|].
    intros j Hj Ht. rewrite Hm' in Hj.
    destruct (Hent j Hj Ht) as [(Hto & Hk & Hv)|[Hk Hv]].
    - destruct (Hslots j Hj Hto) as [Hlt Habove]. by rewrite Hk, Hv.
    - by rewrite Hk, Hv. }
  assert (extends s s1) as He1 by by apply extends_frame.
  destruct b; [by split|]. cbn [map_facets set_map_facets print].
  destruct (get_value _ _ _) as [[other|]|] eqn:Hget; [|by split..].
  destruct (get_value_Some_inv _ _ _ _ Hwf' Hget) as (j & Hj & Ht & Hk & Hv).
  pose proof Hg1 as (Hheap1 & Hwf1 & Hslots1).
  pose proof (Hslots1 j Hj Ht) as Hok. unfold entry_ok in Hok.
  change (map_facets s1) with M in Hok. rewrite Hk, Hv in Hok.
  destruct Hok as [Hlt Habove].
  destruct (Hrec tp e other s1) as [Heq Hpost]; [done|by split_and!|].
  split; [done|]. intros Hret. destruct (Hpost Hret) as [? ?].
  split; [done|]. by eapply extends_trans.
Qed.

Lemma process_ridge_S fuel t1 r t2 s :
  process_ridge (S fuel) t1 r t2 s
  = if bool_decide (length (conflicts (deref s t1)) = 0)
       && bool_decide (length (conflicts (deref s t2)) = 0)
    then (Returned, s)
    else if bool_decide (min_conflicts s t2 = min_conflicts s t1) then
      and_then (hull_remove (t (deref s t1))) (hull_remove (t (deref s t2))) s
    else if (min_conflicts s t2 <? min_conflicts s t1)%Z then
      process_ridge fuel t2 r t1 s
    else
      and_then (hull_remove (t (deref s t1)))
        (and_then (hull_insert_and_set (r.1, r.2, min_conflicts s t1) true)
          (and_then (process_ridge fuel (length (heap s)) r t2)
            (and_then
               (check_edge (process_ridge fuel) (r.1, min_conflicts s t1)
                  (length (heap s)))
               (check_edge (process_ridge fuel) (r.2, min_conflicts s t1)
                  (length (heap s))))))
        (make_shared (new_record s t1 r t2) s).2.
Proof. done. Qed.

Lemma process_ridge_by_key_S fuel t1 r t2 s :
  process_ridge_by_key (S fuel) t1 r t2 s
  = if bool_decide (length (conflicts (deref s t1)) = 0)
       && bool_decide (length (conflicts (deref s t2)) = 0)
    then (Returned, s)
    else if bool_decide (min_conflicts s t2 = min_conflicts s t1) then
      and_then (hull_remove (t (deref s t1))) (hull_remove (t (deref s t2))) s
    else if (min_conflicts s t2 <? min_conflicts s t1)%Z then
      process_ridge_by_key fuel t2 r t1 s
    else
      and_then (hull_remove (t (deref s t1)))
        (and_then (hull_insert_and_set (r.1, r.2, min_conflicts s t1) true)
          (and_then (process_ridge_by_key fuel (length (heap s)) r t2)
            (and_then
               (check_edge_by_key (process_ridge_by_key fuel)
                  (r.1, min_conflicts s t1) (length (heap s)))
               (check_edge_by_key (process_ridge_by_key fuel)
                  (r.2, min_conflicts s t1) (length (heap s))))))
        (make_shared (new_record s t1 r t2) s).2.
Proof. done. Qed.

Lemma Forall_sublist {A} (Q : A → Prop) (l1 l2 : list A) :
  l1 `sublist_of` l2 → Forall Q l2 → Forall Q l1.
Proof.
  intros Hsub HF. rewrite Forall_forall in HF |- *. intros x Hx. apply HF.
  by eapply elem_of_sublist.
Qed.

Lemma uni_dedup_Forall (Q : point ops → Prop) c1 c2 :
  Forall Q c1 → Forall Q c2 → Forall Q (uni_dedup c1 c2).
Proof.
  intros H1 H2. eapply Forall_sublist; [apply pack_sublist|]. by apply merge_Forall.
Qed.

Lemma get_visible_points_Forall (Q : point ops → Prop) s t0 pd c :
  Forall Q c → Forall Q (get_visible_points s t0 pd c).
Proof. apply Forall_sublist, pack_sublist. Qed.

Lemma uni_dedup_cons c1 c2 p rest :
  merge c1 c2 = p :: rest → uni_dedup c1 c2 = dedup_after p rest.
Proof.
  intros Hm. unfold uni_dedup. rewrite Hm.
  cbn [length]. rewrite tabulate_S. cbn [pack]. simpl negb. cbn [andb].
  rewrite (tabulate_ext _ _ (λ i, negb (bool_decide (S i = 0))
      && negb (bool_decide (id ((p :: rest) !!! S i) = id ((p :: rest) !!! (S i - 1)))))).
  - apply pack_dedup_after.
  - done.
Qed.

(** With the least identifier at the head of the first list, the
    deduplicated merge holds identifiers above it only. *)
Lemma uni_dedup_above p c1' c2 :
  sorted_ids (p :: c1') → sorted_ids c2 →
  (∀ q c2', c2 = q :: c2' → (id p < id q)%Z) →
  Forall (id_lt p) (uni_dedup (p :: c1') c2).
Proof.
  intros H1 H2 Hlt.
  pose proof (merge_weakly_sorted _ _ (sorted_ids_weakly _ H1) (sorted_ids_weakly _ H2))
    as Hm.
  assert (merge (p :: c1') c2 = p :: merge c1' c2) as Heq.
  { destruct c2 as [|q c2']; [by rewrite !merge_nil_r|].
    rewrite merge_cons_cons. unfold point_lt.
    specialize (Hlt q c2' eq_refl). by rewrite (proj2 (Z.ltb_ge _ _)) by lia. }
  rewrite (uni_dedup_cons _ _ _ _ Heq). rewrite Heq in Hm.
  by apply dedup_after_sorted.
Qed.

Lemma deref_good s tp :
  good s → tp < length (heap s) →
  sorted_ids (conflicts (deref s tp))
  ∧ Forall (λ p, (id p < n s)%Z) (conflicts (deref s tp)).
Proof.
  intros (Hheap & _) Hlt. unfold deref.
  apply (Forall_lookup_1 _ _ tp _ Hheap). by apply list_lookup_lookup_total_lt.
Qed.

Lemma make_shared_good tr s :
  good s → sorted_ids (conflicts tr) →
  Forall (λ p, (id p < n s)%Z) (conflicts tr) →
  good (make_shared tr s).2 ∧ extends s (make_shared tr s).2
  ∧ deref (make_shared tr s).2 (length (heap s)) = tr
  ∧ length (heap s) < length (heap (make_shared tr s).2).
Proof.
  intros (Hheap & Hwf & Hslots) Hs Hn. unfold make_shared, good, extends, deref, entry_ok.
  cbn [snd heap n map_facets]. split_and!.
  - apply Forall_app. split; [done|]. by repeat constructor.
  - apply Hwf.
  - apply Hwf.
  - intros j Hj Ht. destruct (Hslots j Hj Ht) as [Hlt Hab].
    unfold deref in Hab. rewrite length_app. split; [lia|].
    unfold deref. cbn [heap]. by rewrite lookup_total_app_l.
  - by exists [tr].
  - done.
  - by rewrite lookup_total_app_r, Nat.sub_diag.
  - rewrite length_app. simpl. lia.
Qed.

(** On the calls the builder makes with dense identifiers, the edges handed
    to [check_edge] have their smaller identifier first: the source and its
    variant with the lookup by key run alike. *)
Lemma process_ridge_agree fuel : agree (process_ridge fuel) (process_ridge_by_key fuel).
Proof.
  induction fuel as [|fuel IH]; intros t1 r t2 s Hg Hok; [by split|].
  destruct Hok as (Hr & Hv1 & Hv2 & Ha1 & Ha2).
  destruct (deref_good s t1 Hg Hv1) as [Hs1 Hn1].
  destruct (deref_good s t2 Hg Hv2) as [Hs2 Hn2].
  rewrite process_ridge_S, process_ridge_by_key_S.
  destruct (bool_decide (length (conflicts (deref s t1)) = 0)
            && bool_decide (length (conflicts (deref s t2)) = 0)) eqn:Hempty.
  { split; [done|]. intros _. split; [done|apply extends_refl]. }
  destruct (bool_decide (min_conflicts s t2 = min_conflicts s t1)) eqn:Htie.
  { apply and_then_ok; [by apply hull_remove_ok|]. intros _ Hg' _. by apply hull_remove_ok. }
  apply bool_decide_eq_false in Htie.
  destruct (min_conflicts s t2 <? min_conflicts s t1)%Z eqn:Hlt.
  { apply IH; [done|by split_and!]. }
  apply Z.ltb_ge in Hlt.
  assert (∃ p c1', conflicts (deref s t1) = p :: c1' ∧ min_conflicts s t1 = id p
                   ∧ ∀ q c2', conflicts (deref s t2) = q :: c2' → (id p < id q)%Z)
    as (p & c1' & Hc1 & Hpd & Hpq).
  { unfold min_conflicts in *.
    destruct (conflicts (deref s t1)) as [|p c1'] eqn:E1.
    - exfalso. destruct (conflicts (deref s t2)) as [|q c2'] eqn:E2; [done|].
      apply Forall_cons in Hn2 as [Hq _]. lia.
    - exists p, c1'. split_and!; [done..|]. intros q c2' E2. rewrite E2 in *. lia. }
  rewrite Hpd.
  set (trn := new_record s t1 r t2).
  assert (sorted_ids (conflicts trn)
          ∧ Forall (λ q, (id q < n s)%Z) (conflicts trn)
          ∧ Forall (id_lt p) (conflicts trn)) as (Hst & Hnt & Hpt).
  { unfold trn, new_record. cbn [conflicts]. split_and!.
    - by apply get_visible_points_sorted, uni_dedup_sorted.
    - by apply get_visible_points_Forall, uni_dedup_Forall.
    - apply get_visible_points_Forall. rewrite Hc1. rewrite Hc1 in Hs1.
      by apply uni_dedup_above. }
  destruct (make_shared_good trn s Hg Hst Hnt) as (Hg1 & He1 & Hd1 & Hl1).
  set (s1 := (make_shared trn s).2) in *. set (tn := length (heap s)) in *.
  assert (r.2 < id p)%Z as Hrp.
  { unfold above in Ha1. rewrite Hc1 in Ha1. by apply Forall_cons in Ha1 as [? _]. }
  assert (∀ s', extends s1 s' →
            tn < length (heap s') ∧ t2 < length (heap s')
            ∧ deref s' tn = trn ∧ deref s' t2 = deref s t2) as Hfacts.
  { intros s' He'. pose proof (extends_length _ _ He') as Hl'.
    pose proof (extends_length _ _ He1) as Hl. fold tn in Hl.
    split_and!; [lia|lia| |].
    - by rewrite (deref_extends s1 s') by done.
    - rewrite (deref_extends s1 s') by (done || lia). by rewrite (deref_extends s s1). }
  enough (run_ok
            (and_then (hull_remove (t (deref s t1)))
               (and_then (hull_insert_and_set (r.1, r.2, id p) true)
                  (and_then (process_ridge fuel tn r t2)
                     (and_then (check_edge (process_ridge fuel) (r.1, id p) tn)
                        (check_edge (process_ridge fuel) (r.2, id p) tn)))))
            (and_then (hull_remove (t (deref s t1)))
               (and_then (hull_insert_and_set (r.1, r.2, id p) true)
                  (and_then (process_ridge_by_key fuel tn r t2)
                     (and_then
                        (check_edge_by_key (process_ridge_by_key fuel) (r.1, id p) tn)
                        (check_edge_by_key (process_ridge_by_key fuel) (r.2, id p) tn)))))
            s1) as [Heq Hpost].
  { split; [done|]. intros Hret. destruct (Hpost Hret).
    split; [done|]. by eapply extends_trans. }
  assert (stable (extends s1)) as Hstable.
  { intros s' s'' ? ?. by eapply extends_trans. }
  assert (∀ e : edge, e.2 = id p → (e.1 < e.2)%Z →
            steps_ok (extends s1) (check_edge (process_ridge fuel) e tn)
              (check_edge_by_key (process_ridge_by_key fuel) e tn)) as Hce.
  { intros e He2 He s' Hg' HQ. destruct (Hfacts s' HQ) as (? & ? & Hdn & _).
    apply check_edge_ok; [exact IH|done..|].
    rewrite Hdn, He2. exact Hpt. }
  apply (and_then_steps (extends s1)); [done| | |done|apply extends_refl].
  { intros s' Hg' _. by apply hull_remove_ok. }
  apply (and_then_steps (extends s1)); [done| |].
  { intros s' Hg' _. by apply hull_insert_and_set_ok. }
  apply (and_then_steps (extends s1)); [done| |].
  { intros s' Hg' HQ. destruct (Hfacts s' HQ) as (? & ? & Hdn & Hd2).
    apply IH; [done|]. split_and!; [done..| |].
    - rewrite Hdn. eapply Forall_impl; [exact Hpt|]. unfold id_lt. intros; lia.
    - by rewrite Hd2. }
  apply (and_then_steps (extends s1)); [done|apply Hce; simpl; [done|lia]..].
Qed.

Lemma ridges_agree fuel (l : list (nat * nat * edge)) (Q : state → Prop) a a' :
  stable Q →
  (∀ t1 t2 e s, (t1, t2, e) ∈ l → good s → Q s → ridge_ok s t1 e t2) →
  steps_ok Q a a' →
  steps_ok Q
    (foldl (λ a '(t1_idx, t2_idx, e), and_then a (process_ridge fuel t1_idx e t2_idx))
           a l)
    (foldl (λ a '(t1_idx, t2_idx, e),
              and_then a (process_ridge_by_key fuel t1_idx e t2_idx))
           a' l).
Proof.
  intros HQ. revert a a'. induction l as [|[[t1 t2] e] l IH]; intros a a' Hl Ha; [done|].
  simpl. apply IH.
  - intros ? ? ? ? Hin. apply Hl. by right.
  - apply and_then_steps; [done..|]. intros s Hg Hq.
    apply process_ridge_agree; [done|]. apply Hl; [by left|done..].
Qed.

Lemma pack_all {A} (l : list A) (f : nat → bool) :
  (∀ i, f i = true) → pack l (tabulate (length l) f) = l.
Proof.
  revert f. induction l as [|a l IH]; intros f Hf; [done|].
  cbn [length]. rewrite tabulate_S. cbn [pack]. rewrite Hf. f_equal.
  apply IH. intros i. apply Hf.
Qed.

Lemma pack_after_seed {A} (P : list A) :
  pack P (tabulate (length P) (λ i, bool_decide (3 < i))) = drop 4 P.
Proof.
  destruct P as [|p0 [|p1 [|p2 [|p3 l]]]]; try done.
  cbn [length]. rewrite !tabulate_S. cbn [pack drop].
  rewrite !bool_decide_false by lia.
  apply pack_all. intros i. apply bool_decide_eq_true. simpl. lia.
Qed.

Lemma dense_sorted_from (k : Z) P :
  (∀ i p, P !! i = Some p → id p = (k + Z.of_nat i)%Z) → sorted_ids P.
Proof.
  revert k. induction P as [|a P IH]; intros k Hd; [constructor|].
  constructor.
  - apply (IH (k + 1)%Z). intros i p Hi. rewrite (Hd (S i) p Hi). lia.
  - apply Forall_forall. intros q Hq.
    apply list_elem_of_lookup in Hq as (i & Hi).
    unfold id_lt. rewrite (Hd 0 a eq_refl), (Hd (S i) q Hi). lia.
Qed.

Lemma dense_target P :
  dense_ids P →
  sorted_ids (drop 4 P)
  ∧ Forall (λ p, (3 < id p)%Z ∧ (id p < Z.of_nat (length P))%Z) (drop 4 P).
Proof.
  intros Hd. split.
  - eapply sorted_ids_sublist; [apply sublist_drop|].
    apply (dense_sorted_from 0). intros i p Hi. rewrite (Hd i p Hi). lia.
  - apply Forall_forall. intros q Hq.
    apply list_elem_of_lookup in Hq as (i & Hi). rewrite lookup_drop in Hi.
    rewrite (Hd _ _ Hi). apply lookup_lt_Some in Hi. lia.
Qed.

Lemma hull_insert_and_set_frame k v s :
  heap (hull_insert_and_set k v s).2 = heap s
  ∧ n (hull_insert_and_set k v s).2 = n s
  ∧ map_facets (hull_insert_and_set k v s).2 = map_facets s.
Proof.
  unfold hull_insert_and_set. by destruct (insert_and_set _ _ _) as [[[? ?] ?]|].
Qed.

Lemma and_then_frame (F : state → Prop) (a b b' : run) s :
  F s → (∀ s', F s' → F (a s').2) → (∀ s', F s' → b s' = b' s') →
  and_then a b s = and_then a b' s.
Proof.
  intros HF Ha Hb. unfold and_then. specialize (Ha s HF).
  destruct (a s) as [[] s']; try done. by apply Hb.
Qed.

(** With dense identifiers every edge handed to [check_edge] is sorted, and
    the constructor of the source is the one with the lookup by key. *)
Lemma construct_by_key_same hash_edge hash_tri fuel P :
  dense_ids P →
  construct hash_edge hash_tri fuel P = construct_by_key hash_edge hash_tri fuel P.
Proof.
  intros Hd. unfold construct, construct_by_key.
  rewrite pack_after_seed. destruct (dense_target P Hd) as [Htsorted Htids].
  set (target := drop 4 P) in *.
  set (F := λ s : state, heap s = [] ∧ n s = Z.of_nat (length P)
                         ∧ map_facets s = make (6 * length P) hash_edge).
  assert (∀ k v s', F s' → F (hull_insert_and_set k v s').2) as Hframe.
  { intros k v s' (Hh & Hn & Hm).
    destruct (hull_insert_and_set_frame k v s') as (Hh' & Hn' & Hm').
    unfold F. by rewrite Hh', Hn', Hm'. }
  apply (and_then_frame F); [done|apply Hframe|]. intros s1 HF1.
  apply (and_then_frame F); [done|apply Hframe|]. intros s2 HF2.
  apply (and_then_frame F); [done|apply Hframe|]. intros s3 HF3.
  apply (and_then_frame F); [done|apply Hframe|]. intros s (Hh & Hn & Hm).
  cbv zeta.
  set (s4 := foldl (λ s i, make_seed i target s) s (seq 0 4)).
  assert (∃ T0 T1 T2 T3,
            heap s4 = [T0; T1; T2; T3]
            ∧ Forall (λ tr, sorted_ids (conflicts tr)
                            ∧ Forall (λ p, (id p < n s)%Z) (conflicts tr)
                            ∧ above 3%Z tr) [T0; T1; T2; T3]
            ∧ n s4 = n s ∧ map_facets s4 = map_facets s)
    as (T0 & T1 & T2 & T3 & Hheap & Hseeds & Hn4 & Hm4).
  { unfold s4. cbn [foldl seq]. unfold make_seed, make_shared.
    cbn [snd heap n map_facets]. rewrite Hh. eexists _, _, _, _.
    split; [reflexivity|]. split; [|done].
    repeat constructor; cbn [conflicts]; unfold above; cbn [conflicts];
      try (by apply get_visible_points_sorted);
      apply get_visible_points_Forall; eapply Forall_impl; try exact Htids;
      intros q [? ?]; simpl; lia. }
  assert (good s4) as Hg4.
  { unfold good. rewrite Hheap, Hn4, Hm4, Hm. split_and!.
    - eapply Forall_impl; [exact Hseeds|]. by intros tr (? & ? & _).
    - apply (Inv_make (V:=triangle_ptr)).
    - apply (Inv_make (V:=triangle_ptr)).
    - intros j Hj Ht. exfalso. unfold make in *. cbn [m R] in *.
      rewrite lookup_total_replicate_2 in Ht; done. }
  assert (∀ i s', i < 4 → extends s4 s' → i < length (heap s') ∧ above 3%Z (deref s' i))
    as Hseed.
  { intros i s' Hi He. pose proof (extends_length _ _ He) as Hl. rewrite Hheap in Hl.
    simpl in Hl. split; [lia|].
    rewrite (deref_extends s4 s') by (done || (rewrite Hheap; simpl; lia)).
    unfold deref. rewrite Hheap.
    apply (Forall_lookup_1 _ _ i _ Hseeds).
    apply list_lookup_lookup_total_lt. simpl. lia. }
  apply (ridges_agree fuel share_info (extends s4)); [| | |done|apply extends_refl].
  - intros ? ? ? ?. by eapply extends_trans.
  - intros t1 t2 e s' Hin Hg' He'.
    assert (t1 < 4 ∧ t2 < 4 ∧ (e.1 < e.2)%Z ∧ (e.2 ≤ 3)%Z) as (Ht1 & Ht2 & He1 & He2).
    { unfold share_info in Hin.
      repeat (apply elem_of_cons in Hin as [[= -> -> ->]|Hin]; [simpl; lia|]).
      by apply elem_of_nil in Hin. }
    destruct (Hseed t1 s' Ht1 He') as [? Hab1]. destruct (Hseed t2 s' Ht2 He') as [? Hab2].
    split_and!; [done..| |]; (eapply Forall_impl; [eassumption|]); simpl; intros; lia.
  - intros s' Hg' _. split; [done|]. intros _. split; [done|apply extends_refl].
Qed.

(** X10.  With dense identifiers the constructor of the source and the one
    with the lookup by key give the same status and the same state, for
    every fuel: on such inputs the edge handed to [check_edge] is always
    sorted, so the lookup by the edge as given is a lookup by the key. *)
Theorem construct_agree hash_edge hash_tri fuel P :
  dense_ids P →
  construct hash_edge hash_tri fuel P = construct_by_key hash_edge hash_tri fuel P.
Proof. apply construct_by_key_same. Qed.

(** When the edge handed to [check_edge] has its larger identifier first
    and the ridge map (which holds sorted keys only) already has the sorted
    key, the insertion loses and the lookup, made with the unsorted edge,
    finds nothing: [.value()] throws, whatever the hash function. *)
Lemma check_edge_reversed rec (e : edge) tp s :
  Inv (map_facets s) →
  taken_count (map_facets s) + 1 < m (map_facets s) →
  (∀ j, j < m (map_facets s) → taken (R (map_facets s) !!! j) = true →
        ((key (R (map_facets s) !!! j)).1 < (key (R (map_facets s) !!! j)).2)%Z) →
  (e.2 < e.1)%Z →
  has_key (map_facets s) (e.2, e.1) →
  (check_edge rec e tp s).1 = BadOptionalAccess.
Proof.
  intros HInv Hc Hcanon He Hhas. unfold check_edge.
  rewrite (proj2 (Z.ltb_ge _ _)) by lia.
  destruct (insert_and_set_step (map_facets s) (e.2, e.1) tp HInv Hc)
    as (b & M' & -> & Hb & HInv' & Hc' & Hkeys & _ & Hm').
  destruct b; [by destruct (proj1 Hb eq_refl)|].
  rewrite print_nil. cbn [map_facets set_map_facets].
  destruct HInv' as (Hwf' & _).
  assert (has_room M') as Hroom by (apply count_room; [done|lia]).
  destruct (room_first_stop M' (stop_get_value e tp) (start_index M' e))
    as (d & Hd & Hfs);
    [intros x Hx; unfold stop_get_value; by rewrite Hx|done|apply start_index_lt, Hwf'|].
  rewrite (get_value_first M' e tp d) by done.
  destruct Hfs as [Hst _]. fold (slot_of M' e d) in Hst. unfold stop_get_value in Hst.
  destruct (taken (slot_of M' e d)) eqn:Ht; [|done]. exfalso. simpl in Hst.
  apply andb_true_iff in Hst as [Hk _]. apply bool_decide_eq_true in Hk.
  assert (has_key M' e) as Hhas'.
  { exists (probe M' (start_index M' e) d). split_and!; [apply probe_lt, Hwf'|done..]. }
  apply Hkeys in Hhas' as [(j & Hj & Htj & Hkj)|Heq].
  - assert (e.1 < e.2)%Z; [|lia]. rewrite <-Hkj. exact (Hcanon j Hj Htj).
  - destruct e as [a b']. simpl in He. injection Heq as Ha Hb'. lia.
Qed.

(** With the edge given in sorted order the lookup after a lost race does
    find a record: the first one on the chain, stored by an earlier call. *)
Lemma check_edge_sorted rec (e : edge) tp s :
  Inv (map_facets s) →
  taken_count (map_facets s) + 1 < m (map_facets s) →
  (∀ j, j < m (map_facets s) → taken (R (map_facets s) !!! j) = true →
        value (R (map_facets s) !!! j) ≠ tp) →
  (e.1 < e.2)%Z →
  has_key (map_facets s) e →
  ∃ other M',
    check_edge rec e tp s = rec tp e other (set_map_facets s M')
    ∧ other ≠ tp
    ∧ ∃ j, j < m M' ∧ taken (R M' !!! j) = true ∧ key (R M' !!! j) = e
           ∧ value (R M' !!! j) = other.
Proof.
  intros HInv Hc Hfresh He Hhas. unfold check_edge.
  rewrite (proj2 (Z.ltb_lt _ _)) by lia.
  pose proof HInv as (Hwf & _).
  destruct Hhas as (j0 & Hj0 & Ht0 & Hk0).
  destruct (insert_and_set_step (map_facets s) e tp HInv Hc)
    as (b & M2 & Hrun & Hb & HInv' & Hc' & Hkeys & _ & Hm').
  rewrite Hrun. destruct b.
  { exfalso. apply (proj1 Hb eq_refl). by exists j0. }
  rewrite print_nil. cbn [map_facets set_map_facets].
  destruct (insert_and_set_inv _ _ _ _ _ _ Hwf Hrun)
    as [(_ & [=] & _)|(dc & Hdc & [Hfree _] & _ & Hsame & _)].
  set (ic := probe (map_facets s) (start_index (map_facets s) e) dc) in *.
  assert (taken (R (map_facets s) !!! ic) = false) as Htc.
  { unfold stop_claim in Hfree. by destruct (taken (R (map_facets s) !!! ic)). }
  assert (j0 ≠ ic) as Hne by (intros ->; congruence).
  destruct Hsame as (_ & _ & _ & Hs).
  assert (∀ j, j ≠ ic → taken (R M2 !!! j) = taken (R (map_facets s) !!! j)
                         ∧ key (R M2 !!! j) = key (R (map_facets s) !!! j)
                         ∧ value (R M2 !!! j) = value (R (map_facets s) !!! j)) as Hold.
  { intros j Hj. destruct (Hs j) as (Ht & _ & Hk & Hvl).
    rewrite write_slot_other in Ht, Hk, Hvl by done. done. }
  assert (key (R M2 !!! ic) = e ∧ value (R M2 !!! ic) = tp
          ∧ taken (R M2 !!! ic) = true) as (Hkc & Hvc & Htc2).
  { destruct (Hs ic) as (Ht & _ & Hk & Hvl).
    assert (ic < length (R (map_facets s))) as Hic.
    { destruct Hwf as [-> ?]. by apply probe_lt. }
    rewrite write_slot_at in Ht, Hk, Hvl by done. done. }
  destruct HInv' as (Hwf' & Hch' & _).
  pose proof (start_index_lt M2 e (proj2 Hwf')) as Hst.
  destruct (Hold j0 Hne) as (Ht0' & Hk0' & Hv0').
  assert (value (R M2 !!! j0) ≠ tp) as Hf0.
  { intros Heq. apply (Hfresh j0 Hj0 Ht0). congruence. }
  rewrite <-Hm' in Hj0. rewrite <-Ht0' in Ht0. rewrite <-Hk0' in Hk0.
  destruct (Hch' j0 Hj0 Ht0) as (d0 & Hd0 & Hp0 & Hb0). rewrite Hk0 in Hp0, Hb0.
  destruct (first_stop_exists M2 (stop_get_value e tp) (start_index M2 e) Hst)
    as (D & HD & HfsD).
  { exists j0. split; [done|]. unfold stop_get_value. rewrite Ht0, Hk0. simpl.
    rewrite bool_decide_true by done. by apply bool_decide_eq_true. }
  assert (taken (slot_of M2 e D) = true) as HtD.
  { destruct (decide (D < d0)) as [?|Hge]; [by apply Hb0|].
    destruct (decide (D = d0)) as [->|HneD].
    - unfold slot_of. by rewrite Hp0.
    - destruct HfsD as [_ Hb']. specialize (Hb' d0 ltac:(lia)). rewrite Hp0 in Hb'.
      unfold stop_get_value in Hb'. rewrite Ht0, Hk0 in Hb'. simpl in Hb'.
      rewrite bool_decide_true in Hb' by done.
      apply bool_decide_eq_false in Hb'. exfalso. by apply Hb'. }
  rewrite (get_value_first M2 e tp D) by done. rewrite HtD.
  destruct HfsD as [HstD _]. fold (slot_of M2 e D) in HstD.
  unfold stop_get_value in HstD. rewrite HtD in HstD. simpl in HstD.
  apply andb_true_iff in HstD as [HkD HvD].
  apply bool_decide_eq_true in HkD. apply bool_decide_eq_true in HvD.
  exists (value (slot_of M2 e D)), M2. split_and!; [done|done|].
  exists (probe M2 (start_index M2 e) D). split_and!; [apply probe_lt, Hwf'|done..].
Qed.

(** ** No throw, bounded depth, well-formed facets *)

Lemma safe_and_then enough (a b : run) s (Q R : state → Prop) :
  safe enough a s Q → (∀ s', Q s' → safe enough b s' R) →
  safe enough (and_then a b) s R.
Proof.
  intros (Hb & Hf & Hr) Hnext. unfold safe, and_then in *.
  destruct (a s) as [[] s']; simpl in *; [by apply Hnext, Hr|done..].
Qed.

Lemma safe_weaken (enough enough' : Prop) (a : run) s (Q Q' : state → Prop) :
  safe enough a s Q → (enough' → enough) → (∀ s', Q s' → Q' s') →
  safe enough' a s Q'.
Proof. intros (Hb & Hf & Hr) He HQ. split_and!; [done|auto|auto]. Qed.

Lemma safe_Returned enough (a : run) s s' (Q : state → Prop) :
  a s = (Returned, s') → Q s' → safe enough a s Q.
Proof. intros Ha HQ. unfold safe. rewrite Ha. simpl. by split_and!. Qed.

Lemma safe_Hang enough (a : run) s s' (Q : state → Prop) : a s = (Hang, s') → safe enough a s Q.
Proof. intros Ha. unfold safe. rewrite Ha. simpl. by split_and!. Qed.

Lemma news_refl Q s : news Q s s.
Proof. split; [done|]. intros j Hj Ht. by left. Qed.

Lemma step_refl Q s : sound s → step Q s s.
Proof. intros Hs. split_and!; [done|apply extends_refl|apply news_refl]. Qed.

Lemma step_trans (Q Q' Q'' : edge → triangle_ptr → Prop) s s' s'' :
  step Q s s' → step Q' s' s'' →
  (∀ k v, Q k v → Q'' k v) → (∀ k v, Q' k v → Q'' k v) →
  step Q'' s s''.
Proof.
  intros (_ & He & Hm & Hn) (Hs & He' & Hm' & Hn') HQ HQ'.
  split_and!; [done|by eapply extends_trans|]. split; [congruence|].
  intros j Hj Ht. destruct (Hn' j ltac:(lia) Ht) as [(Ht' & Hk' & Hv')|Hnew].
  - destruct (Hn j Hj Ht') as [(Ht0 & Hk0 & Hv0)|Hnew].
    + left. split_and!; congruence.
    + right. apply HQ. by rewrite Hk', Hv'.
  - right. by apply HQ'.
Qed.

(** A change of the hull set alone. *)
Lemma sound_set_convex_hull s H out :
  sound s → wf H →
  (∀ j, j < m H → taken (R H !!! j) = true → facet_ok (n s) (key (R H !!! j))) →
  sound (print (set_convex_hull s H) out).
Proof.
  intros (Hg & Hlk & _ & _) Hwf Hok. split_and!; [|done..].
  by apply (good_frame s).
Qed.

Lemma step_set_convex_hull Q s H out :
  sound s → wf H →
  (∀ j, j < m H → taken (R H !!! j) = true → facet_ok (n s) (key (R H !!! j))) →
  step Q s (print (set_convex_hull s H) out).
Proof.
  intros Hs Hwf Hok. split_and!; [by apply sound_set_convex_hull|by apply extends_frame|].
  split; [done|]. intros j Hj Ht. by left.
Qed.

Lemma hull_remove_safe enough Q k s : sound s → safe enough (hull_remove k) s (step Q s).
Proof.
  intros Hs. pose proof Hs as (_ & _ & Hwf & Hok). unfold hull_remove.
  destruct (remove k (convex_hull s)) as [[b H]|] eqn:Hrun;
    [|by apply (safe_Hang _ _ s s); rewrite Hrun].
  apply (safe_Returned _ _ s (set_convex_hull s H)); [by rewrite Hrun|].
  rewrite <-(print_nil (set_convex_hull s H)).
  pose proof (remove_loop_same _ _ _ _ _ _ Hrun) as Hsame.
  apply step_set_convex_hull; [done|by eapply same_but_removed_wf|].
  intros j Hj Ht. destruct (remove_persists _ _ _ _ Hrun j) as (Ht' & Hk' & _).
  destruct Hsame as (Hm & _). rewrite Hk'. apply Hok; congruence.
Qed.

Lemma hull_insert_and_set_safe enough Q k v s :
  sound s → facet_ok (n s) k → safe enough (hull_insert_and_set k v) s (step Q s).
Proof.
  intros Hs Hk. pose proof Hs as (_ & _ & Hwf & Hok). unfold hull_insert_and_set.
  destruct (insert_and_set k v (convex_hull s)) as [[[b out] H]|] eqn:Hrun;
    [|by apply (safe_Hang _ _ s s); rewrite Hrun].
  apply (safe_Returned _ _ s (print (set_convex_hull s H) out)); [by rewrite Hrun|].
  destruct (insert_and_set_entries _ _ _ _ _ Hwf Hrun) as (Hwf' & Hm' & Hent).
  apply step_set_convex_hull; [done|done|].
  intros j Hj Ht. rewrite Hm' in Hj.
  destruct (Hent j Hj Ht) as [(Ht0 & Hk0 & _)|[Hk0 _]]; rewrite Hk0; [by apply Hok|done].
Qed.

Lemma min_conflicts_above s tp (lo : point_id) :
  above lo (deref s tp) → (lo < n s)%Z → (lo < min_conflicts s tp)%Z.
Proof.
  unfold above, min_conflicts. intros Hab Hc.
  destruct (conflicts (deref s tp)) as [|p rest]; [done|].
  by apply Forall_cons in Hab as [? _].
Qed.

Lemma depth_above s t1 t2 (lo : point_id) :
  above lo (deref s t1) → above lo (deref s t2) → (lo < n s)%Z →
  depth s t1 t2 ≤ 2 * Z.to_nat (n s - lo).
Proof.
  intros H1 H2 Hc. pose proof (min_conflicts_above s t1 lo H1 Hc).
  pose proof (min_conflicts_above s t2 lo H2 Hc). unfold depth.
  destruct (_ <? _)%Z; lia.
Qed.

Lemma safe_eq enough (a b : run) s s' (Q : state → Prop) :
  a s = b s' → safe enough b s' Q → safe enough a s Q.
Proof. intros Heq. unfold safe. by rewrite Heq. Qed.

Lemma step_weaken (Q Q' : edge → triangle_ptr → Prop) s s' :
  step Q s s' → (∀ k v, Q k v → Q' k v) → step Q' s s'.
Proof.
  intros (Hs & He & Hm & Hn) HQ. split_and!; [done..|]. split; [done|].
  intros j Hj Ht. destruct (Hn j Hj Ht) as [?|?]; [by left|right; by apply HQ].
Qed.

Lemma check_edge_safe fuel rec (e : edge) tp s :
  ridge_safe fuel rec →
  sound s → (0 ≤ e.1)%Z → (e.1 < e.2)%Z → (e.2 < n s)%Z →
  tp < length (heap s) → above e.2 (deref s tp) →
  (∀ j, j < m (map_facets s) → taken (R (map_facets s) !!! j) = true →
        key (R (map_facets s) !!! j) = e → value (R (map_facets s) !!! j) ≠ tp) →
  safe (2 * Z.to_nat (n s - e.2) ≤ fuel) (check_edge rec e tp) s
       (step (λ k v, (k = e ∧ v = tp) ∨ length (heap s) ≤ v) s).
Proof.
  intros Hrec Hs He0 He Hen Htp Hab Hval.
  pose proof Hs as (Hg & Hlk & Hwfh & Hok). pose proof Hlk as (Hwf & _).
  assert (∀ s0, check_edge rec e tp s0
    = match insert_and_set e tp (map_facets s0) with
      | Spin => (Hang, s0)
      | Val ((b, out), M) =>
          let s1 := print (set_map_facets s0 M) out in
          if b then (Returned, s1)
          else match get_value e tp (map_facets s1) with
               | Spin => (Hang, s1)
               | Val None => (BadOptionalAccess, s1)
               | Val (Some other) => rec tp e other s1
               end
      end) as Hce.
  { intros s0. unfold check_edge. by rewrite (proj2 (Z.ltb_lt _ _)) by lia. }
  destruct (insert_and_set e tp (map_facets s)) as [[[b out] M]|] eqn:Hins;
    [|by apply (safe_Hang _ _ s s); rewrite Hce, Hins].
  destruct (insert_and_set_entries _ _ _ _ _ Hwf Hins) as (Hwf' & Hm' & Hent).
  set (s1 := print (set_map_facets s M) out).
  assert (good s1) as Hg1.
  { destruct Hg as (Hheap & _ & Hslots).
    unfold good, entry_ok, deref, s1 in *.
    cbn [heap n map_facets set_map_facets print].
    split; [done|]. split; [apply Hwf'|].
    intros j Hj Ht. rewrite Hm' in Hj.
    destruct (Hent j Hj Ht) as [(Hto & Hk & Hv)|[Hk Hv]].
    - destruct (Hslots j Hj Hto) as [Hlt Habove]. by rewrite Hk, Hv.
    - by rewrite Hk, Hv. }
  assert (step (λ k v, k = e ∧ v = tp) s s1) as Hstep1.
  { split_and!.
    - split_and!; [done| |done|done]. by eapply insert_and_set_linked.
    - by apply extends_frame.
    - split; [done|]. intros j Hj Ht.
      destruct (Hent j Hj Ht) as [(Hto & Hk & Hv)|[Hk Hv]]; [by left|by right]. }
  destruct b.
  { apply (safe_Returned _ _ s s1); [by rewrite Hce, Hins|].
    eapply step_weaken; [exact Hstep1|]. intros k v ?. by left. }
  destruct (get_value e tp M) as [[other|]|] eqn:Hget.
  - apply (safe_eq _ _ (rec tp e other) s s1).
    { rewrite Hce, Hins. cbn [map_facets set_map_facets print s1]. by rewrite Hget. }
    destruct (get_value_Some_inv _ _ _ _ Hwf' Hget) as (j & Hj & Ht & Hk & Hv).
    pose proof Hg1 as (_ & _ & Hslots1).
    pose proof (Hslots1 j Hj Ht) as Hentry. unfold entry_ok in Hentry.
    change (map_facets s1) with M in Hentry. rewrite Hk, Hv in Hentry.
    destruct Hentry as [Hlt Habove].
    destruct Hstep1 as (Hs1 & He1 & Hn1).
    eapply safe_weaken; [apply (Hrec tp e other s1)| |].
    + done.
    + by split_and!.
    + done.
    + intros Hfuel. etrans; [by apply (depth_above s1 tp other e.2)|exact Hfuel].
    + intros s' Hstep'. eapply (step_trans _ _ _ s s1 s'); [by split_and!|exact Hstep'| |].
      * intros k v ?. by left.
      * intros k v ?. by right.
  - exfalso. by apply (lost_race_lookup _ _ _ _ _ Hlk Hins Hval).
  - apply (safe_Hang _ _ s s1). rewrite Hce, Hins.
    cbn [map_facets set_map_facets print s1]. by rewrite Hget.
Qed.

Lemma sorted_above (q : point ops) rest (lo : point_id) :
  sorted_ids (q :: rest) → (lo < id q)%Z → Forall (λ p, (lo < id p)%Z) (q :: rest).
Proof.
  intros Hsorted Hq. apply StronglySorted_inv in Hsorted as [_ Hall].
  constructor; [done|]. eapply Forall_impl; [exact Hall|].
  unfold id_lt. intros; lia.
Qed.

Lemma step_from_shared Q s s1 s' :
  extends s s1 → map_facets s1 = map_facets s → step Q s1 s' → step Q s s'.
Proof.
  intros He Hm (Hs & He' & Hn). split_and!; [done|by eapply extends_trans|].
  unfold news in *. by rewrite <-Hm.
Qed.

Lemma process_ridge_safe fuel : ridge_safe fuel (process_ridge fuel).
Proof.
  induction fuel as [|fuel IH]; intros t1 r t2 s Hs Hok Hr0.
  { split_and!; [done| |done]. unfold depth. destruct (_ <? _)%Z; lia. }
  pose proof Hs as (Hg & Hlk & Hwfh & Hhull).
  destruct Hok as (Hr & Hv1 & Hv2 & Ha1 & Ha2).
  destruct (deref_good s t1 Hg Hv1) as [Hs1 Hn1].
  destruct (deref_good s t2 Hg Hv2) as [Hs2 Hn2].
  pose proof (process_ridge_S fuel t1 r t2 s) as Hbody.
  destruct (bool_decide (length (conflicts (deref s t1)) = 0)
            && bool_decide (length (conflicts (deref s t2)) = 0)) eqn:Hempty.
  { apply (safe_Returned _ _ s s); [done|by apply step_refl]. }
  destruct (bool_decide (min_conflicts s t2 = min_conflicts s t1)) eqn:Htie.
  { eapply safe_eq; [exact Hbody|].
    apply (safe_and_then _ _ _ _ (step (λ _ _, False) s)); [by apply hull_remove_safe|].
    intros s' Hst. pose proof Hst as (Hs' & _).
    eapply safe_weaken; [by apply (hull_remove_safe _ (λ _ _, False))|done|].
    intros s'' Hst'. by eapply (step_trans _ _ _ s s' s''). }
  apply bool_decide_eq_false in Htie.
  destruct (min_conflicts s t2 <? min_conflicts s t1)%Z eqn:Hlt.
  { eapply safe_eq; [exact Hbody|].
    eapply safe_weaken; [apply (IH t2 r t1 s)| |done]; [done|by split_and!|done|].
    unfold depth. rewrite Hlt. rewrite (Z.min_comm (min_conflicts s t2)).
    apply Z.ltb_lt in Hlt. rewrite (proj2 (Z.ltb_ge _ _)) by lia. lia. }
  assert (depth s t1 t2
          = 2 * Z.to_nat (n s - Z.min (min_conflicts s t1) (min_conflicts s t2)) + 1)
    as Hdepth by (unfold depth; by rewrite Hlt).
  apply Z.ltb_ge in Hlt.
  assert (∃ p c1', conflicts (deref s t1) = p :: c1' ∧ min_conflicts s t1 = id p
                   ∧ ∀ q c2', conflicts (deref s t2) = q :: c2' → (id p < id q)%Z)
    as (p & c1' & Hc1 & Hpd & Hpq).
  { unfold min_conflicts in *.
    destruct (conflicts (deref s t1)) as [|p c1'] eqn:E1.
    - exfalso. destruct (conflicts (deref s t2)) as [|q c2'] eqn:E2; [done|].
      apply Forall_cons in Hn2 as [Hq _]. lia.
    - exists p, c1'. split_and!; [done..|]. intros q c2' E2. rewrite E2 in *. lia. }
  assert (id p < n s)%Z as Hpn.
  { rewrite Hc1 in Hn1. by apply Forall_cons in Hn1 as [? _]. }
  assert (above (id p) (deref s t2)) as Hp2.
  { unfold above. destruct (conflicts (deref s t2)) as [|q c2'] eqn:E2; [done|].
    apply sorted_above; [done|]. by eapply Hpq. }
  assert (depth s t1 t2 = 2 * Z.to_nat (n s - id p) + 1) as Hdp.
  { rewrite Hdepth, Hpd. by rewrite Z.min_l by lia. }
  clear Hdepth.
  rewrite Hpd in Hbody.
  set (trn := new_record s t1 r t2) in *.
  assert (sorted_ids (conflicts trn)
          ∧ Forall (λ q, (id q < n s)%Z) (conflicts trn)
          ∧ Forall (id_lt p) (conflicts trn)) as (Hst & Hnt & Hpt).
  { unfold trn, new_record. cbn [conflicts]. split_and!.
    - by apply get_visible_points_sorted, uni_dedup_sorted.
    - by apply get_visible_points_Forall, uni_dedup_Forall.
    - apply get_visible_points_Forall. rewrite Hc1. rewrite Hc1 in Hs1.
      by apply uni_dedup_above. }
  destruct (make_shared_good trn s Hg Hst Hnt) as (Hg1 & He1 & Hd1 & Hl1).
  set (s1 := (make_shared trn s).2) in *. set (tn := length (heap s)) in *.
  assert (length (heap s1) = S tn) as Hlen1.
  { unfold s1, make_shared. cbn [snd heap]. rewrite length_app. simpl. lia. }
  assert (sound s1) as Hsound1 by (by split_and!).
  assert (r.2 < id p)%Z as Hrp.
  { unfold above in Ha1. rewrite Hc1 in Ha1. by apply Forall_cons in Ha1 as [? _]. }
  assert (∀ s', extends s1 s' →
            tn < length (heap s') ∧ t2 < length (heap s') ∧ S tn ≤ length (heap s')
            ∧ deref s' tn = trn ∧ deref s' t2 = deref s t2 ∧ n s' = n s) as Hfacts.
  { intros s' He'. pose proof (extends_length _ _ He') as Hl'.
    pose proof (extends_length _ _ He1) as Hl. fold tn in Hl.
    split_and!; [lia|lia|lia| | |].
    - by rewrite (deref_extends s1 s') by done.
    - rewrite (deref_extends s1 s') by (done || lia). by rewrite (deref_extends s s1).
    - destruct He' as [_ ->]. by destruct He1 as [_ ->]. }
  assert (∀ Q s', step Q s1 s' →
            ∀ j, j < m (map_facets s') → taken (R (map_facets s') !!! j) = true →
                 value (R (map_facets s') !!! j) < tn
                 ∨ Q (key (R (map_facets s') !!! j)) (value (R (map_facets s') !!! j)))
    as Hentries.
  { intros Q s' (_ & _ & Hm' & Hn') j Hj Ht. rewrite Hm' in Hj.
    destruct (Hn' j Hj Ht) as [(Ht0 & _ & Hv0)|?]; [left|by right].
    destruct Hg as (_ & _ & Hslots). destruct (Hslots j Hj Ht0) as [Hold _].
    unfold triangle_ptr in *. rewrite Hv0. exact Hold. }
  eapply safe_eq; [exact Hbody|].
  eapply safe_weaken; [|done|intros s' Hst'; by apply (step_from_shared _ s s1 s' He1)].
  set (Q0 := λ (_ : edge) (_ : triangle_ptr), False).
  set (Q1 := λ (_ : edge) (v : triangle_ptr), S tn ≤ v).
  set (Q2 := λ (k : edge) (v : triangle_ptr), (k = (r.1, id p) ∧ v = tn) ∨ S tn ≤ v).
  apply (safe_and_then _ _ _ _ (step Q0 s1)); [by apply hull_remove_safe|].
  intros s2 Hst2. pose proof Hst2 as (Hsd2 & He2 & _).
  destruct (Hfacts s2 He2) as (_ & _ & _ & _ & _ & Hn2').
  apply (safe_and_then _ _ _ _ (step Q0 s1)).
  { eapply safe_weaken; [apply (hull_insert_and_set_safe _ Q0); [done|]|done|].
    - rewrite Hn2'. unfold facet_ok. simpl. lia.
    - intros s' Hst'. by eapply (step_trans _ _ _ s1 s2 s'). }
  intros s3 Hst3. pose proof Hst3 as (Hsd3 & He3 & _).
  destruct (Hfacts s3 He3) as (Htn3 & Ht23 & Hlen3 & Hdn3 & Hd23 & Hn3').
  apply (safe_and_then _ _ _ _ (step Q1 s1)).
  { eapply safe_weaken; [apply (IH tn r t2 s3); [done| |done]| |].
    - split_and!; [done..| |].
      + rewrite Hdn3. eapply Forall_impl; [exact Hpt|]. unfold id_lt. intros; lia.
      + by rewrite Hd23.
    - intros Hfuel. etrans; [apply (depth_above s3 tn t2 (id p))|].
      + rewrite Hdn3. exact Hpt.
      + by rewrite Hd23.
      + by rewrite Hn3'.
      + rewrite Hn3'. rewrite Hdp in Hfuel. lia.
    - intros s' Hst'. eapply (step_trans _ _ _ s1 s3 s'); [done|exact Hst'|done|].
      intros k v Hv. unfold Q1. simpl in Hv. lia. }
  intros s4 Hst4. pose proof Hst4 as (Hsd4 & He4 & _).
  destruct (Hfacts s4 He4) as (Htn4 & Ht24 & Hlen4 & Hdn4 & Hd24 & Hn4').
  apply (safe_and_then _ _ _ _ (step Q2 s1)).
  { eapply safe_weaken;
      [apply (check_edge_safe fuel (process_ridge fuel) (r.1, id p) tn s4 IH)| |].
    - done.
    - done.
    - simpl. lia.
    - simpl. by rewrite Hn4'.
    - done.
    - simpl. rewrite Hdn4. exact Hpt.
    - intros j Hj Ht _. destruct (Hentries Q1 s4 Hst4 j Hj Ht) as [?|HQ]; [lia|].
      unfold Q1, triangle_ptr in *. lia.
    - intros Hfuel. rewrite Hdp in Hfuel. cbn [snd]. rewrite Hn4'. lia.
    - intros s' Hst'. eapply (step_trans _ _ _ s1 s4 s'); [done|exact Hst'| |].
      + intros k v Hv. right. exact Hv.
      + intros k v [Hv|Hv]; [by left|right; simpl in Hv; lia]. }
  intros s5 Hst5. pose proof Hst5 as (Hsd5 & He5 & _).
  destruct (Hfacts s5 He5) as (Htn5 & Ht25 & Hlen5 & Hdn5 & Hd25 & Hn5').
  eapply safe_weaken;
    [apply (check_edge_safe fuel (process_ridge fuel) (r.2, id p) tn s5 IH)| |].
  - done.
  - simpl. lia.
  - simpl. lia.
  - simpl. by rewrite Hn5'.
  - done.
  - simpl. rewrite Hdn5. exact Hpt.
  - intros j Hj Ht Hk. unfold triangle_ptr in *.
    destruct (Hentries Q2 s5 Hst5 j Hj Ht) as [?|[[Hk' _]|HQ]]; [lia| |lia].
    rewrite Hk in Hk'. injection Hk' as Heq. lia.
  - intros Hfuel. rewrite Hdp in Hfuel. cbn [snd]. rewrite Hn5'. lia.
  - intros s' Hst'. eapply (step_trans _ _ _ s1 s5 s'); [done|exact Hst'| |].
    + intros k v [[_ ->]|Hv]; lia.
    + intros k v [[_ ->]|Hv]; lia.
Qed.

Lemma ridges_safe enough fuel (l : list (nat * nat * edge)) (Q : state → Prop) :
  stable Q →
  (∀ t1 t2 e s, (t1, t2, e) ∈ l → sound s → Q s →
     ridge_ok s t1 e t2 ∧ (0 ≤ e.1)%Z ∧ (enough → depth s t1 t2 ≤ fuel)) →
  ∀ (a : run) s,
    safe enough a s (λ s', sound s' ∧ Q s') →
    safe enough
      (foldl (λ a '(t1_idx, t2_idx, e), and_then a (process_ridge fuel t1_idx e t2_idx))
             a l)
      s (λ s', sound s' ∧ Q s').
Proof.
  intros HQ. induction l as [|[[t1 t2] e] l IH]; intros Hl a s Ha; [done|].
  simpl. apply IH.
  { intros t1' t2' e' s' Hin. apply Hl. by right. }
  eapply safe_and_then; [exact Ha|]. intros s' [Hs' HQ'].
  destruct (Hl t1 t2 e s' ltac:(left) Hs' HQ') as (Hok & He & Hfuel).
  eapply safe_weaken; [by apply (process_ridge_safe fuel t1 e t2 s')|done|].
  intros s'' (Hs'' & He'' & _). split; [done|]. by eapply HQ.
Qed.

Lemma sound_init hash_edge hash_tri P :
  sound (init_state hash_edge hash_tri P).
Proof.
  split_and!.
  - split_and!; [by constructor|apply (Inv_make (V:=triangle_ptr))..|].
    intros j Hj Ht. unfold init_state in Ht. cbn [map_facets] in Ht.
    by rewrite make_free in Ht.
  - apply linked_make.
  - apply (Inv_make (V:=bool)).
  - intros j Hj Ht. unfold init_state in Ht. cbn [convex_hull] in Ht.
    by rewrite make_free in Ht.
Qed.

(** The constructor on an input with dense identifiers and four points or
    more: no throw, no more than [2 * length P] nested calls, and a hull set
    of well-formed facets. *)
Lemma construct_safe hash_edge hash_tri fuel P :
  dense_ids P → 4 ≤ length P →
  (construct hash_edge hash_tri fuel P).1 ≠ BadOptionalAccess
  ∧ (2 * length P ≤ fuel → (construct hash_edge hash_tri fuel P).1 ≠ OutOfFuel)
  ∧ ((construct hash_edge hash_tri fuel P).1 = Returned →
     sound (construct hash_edge hash_tri fuel P).2
     ∧ n (construct hash_edge hash_tri fuel P).2 = Z.of_nat (length P)).
Proof.
  intros Hd Hlen. unfold construct.
  rewrite pack_after_seed. destruct (dense_target P Hd) as [Htsorted Htids].
  set (target := drop 4 P) in *.
  set (F := λ s : state, sound s ∧ heap s = [] ∧ n s = Z.of_nat (length P)
                         ∧ map_facets s = make (6 * length P) hash_edge).
  set (Post := λ s : state, sound s ∧ n s = Z.of_nat (length P)).
  change (safe (2 * length P ≤ fuel)
    (and_then (hull_insert_and_set (init_tri !!! 0) true)
      (and_then (hull_insert_and_set (init_tri !!! 1) true)
        (and_then (hull_insert_and_set (init_tri !!! 2) true)
          (and_then (hull_insert_and_set (init_tri !!! 3) true)
            (λ s,
              let s4 := foldl (λ s i, make_seed i target s) s (seq 0 4) in
              foldl (λ a '(t1_idx, t2_idx, e),
                       and_then a (process_ridge fuel t1_idx e t2_idx))
                    (λ s, (Returned, s)) share_info s4)))))
    (init_state hash_edge hash_tri P) Post).
  assert (∀ i, i < 4 → ∀ s, F s →
            safe (2 * length P ≤ fuel) (hull_insert_and_set (init_tri !!! i) true) s F)
    as Hins.
  { intros i Hi s (Hs & Hh & Hn & Hm).
    destruct (hull_insert_and_set_frame (init_tri !!! i) true s) as (Hh' & Hn' & Hm').
    destruct (hull_insert_and_set_safe (2 * length P ≤ fuel) (λ _ _, False)
                (init_tri !!! i) true s Hs) as (Hb & Hf & Hr).
    { rewrite Hn. unfold facet_ok. destruct i as [|[|[|[|i]]]]; [simpl; lia..|lia]. }
    split_and!; [done..|]. intros Hret. destruct (Hr Hret) as (Hs' & _).
    unfold F. by rewrite Hh', Hn', Hm'. }
  apply (safe_and_then _ _ _ _ F).
  { apply (Hins 0); [lia|]. split_and!; [apply sound_init|done..]. }
  intros s1 HF1. apply (safe_and_then _ _ _ _ F); [by apply (Hins 1); [lia|]|].
  intros s2 HF2. apply (safe_and_then _ _ _ _ F); [by apply (Hins 2); [lia|]|].
  intros s3 HF3. apply (safe_and_then _ _ _ _ F); [by apply (Hins 3); [lia|]|].
  intros s (Hs & Hh & Hn & Hm). pose proof Hs as (Hg & Hlk & Hwfh & Hhull).
  set (s4 := foldl (λ s i, make_seed i target s) s (seq 0 4)).
  assert (∃ T0 T1 T2 T3,
            heap s4 = [T0; T1; T2; T3]
            ∧ Forall (λ tr, sorted_ids (conflicts tr)
                            ∧ Forall (λ p, (id p < n s)%Z) (conflicts tr)
                            ∧ above 3%Z tr) [T0; T1; T2; T3]
            ∧ n s4 = n s ∧ map_facets s4 = map_facets s
            ∧ convex_hull s4 = convex_hull s)
    as (T0 & T1 & T2 & T3 & Hheap & Hseeds & Hn4 & Hm4 & Hc4).
  { unfold s4. cbn [foldl seq]. unfold make_seed, make_shared.
    cbn [snd heap n map_facets convex_hull]. rewrite Hh. eexists _, _, _, _.
    split; [reflexivity|]. split; [|done].
    repeat constructor; cbn [conflicts]; unfold above; cbn [conflicts];
      try (by apply get_visible_points_sorted);
      apply get_visible_points_Forall; eapply Forall_impl; try exact Htids;
      intros q [? ?]; simpl; lia. }
  assert (sound s4) as Hs4.
  { unfold sound, good, hull_ok. rewrite Hheap, Hn4, Hm4, Hc4.
    split_and!; [| | | |done..].
    - eapply Forall_impl; [exact Hseeds|]. by intros tr (? & ? & _).
    - apply Hlk.
    - apply Hlk.
    - intros j Hj Ht. exfalso. rewrite Hm in Ht. unfold make in Ht. cbn [m R] in *.
      rewrite Hm in Hj. cbn [m] in Hj.
      rewrite lookup_total_replicate_2 in Ht; done. }
  assert (∀ i s', i < 4 → extends s4 s' →
            i < length (heap s') ∧ above 3%Z (deref s' i) ∧ n s' = Z.of_nat (length P))
    as Hseed.
  { intros i s' Hi He. pose proof (extends_length _ _ He) as Hl. rewrite Hheap in Hl.
    simpl in Hl. split_and!; [lia| |].
    - rewrite (deref_extends s4 s') by (done || (rewrite Hheap; simpl; lia)).
      unfold deref. rewrite Hheap.
      apply (Forall_lookup_1 _ _ i _ Hseeds).
      apply list_lookup_lookup_total_lt. simpl. lia.
    - destruct He as [_ ->]. by rewrite Hn4. }
  apply (safe_eq _ _
    (foldl (λ a '(t1_idx, t2_idx, e), and_then a (process_ridge fuel t1_idx e t2_idx))
           (λ s, (Returned, s)) share_info) s s4); [done|].
  eapply safe_weaken;
    [apply (ridges_safe _ fuel share_info (extends s4))|done|].
  - intros ? ? ? ?. by eapply extends_trans.
  - intros t1 t2 e s' Hin Hs' He'.
    assert (t1 < 4 ∧ t2 < 4 ∧ (0 ≤ e.1)%Z ∧ (e.1 < e.2)%Z ∧ (e.2 ≤ 3)%Z)
      as (Ht1 & Ht2 & He0 & He1 & He2).
    { unfold share_info in Hin.
      repeat (apply elem_of_cons in Hin as [[= -> -> ->]|Hin]; [simpl; lia|]).
      by apply elem_of_nil in Hin. }
    destruct (Hseed t1 s' Ht1 He') as (? & Hab1 & Hn').
    destruct (Hseed t2 s' Ht2 He') as (? & Hab2 & _).
    assert (above e.2 (deref s' t1) ∧ above e.2 (deref s' t2)) as [Hab1' Hab2'].
    { split; (eapply Forall_impl; [eassumption|]); simpl; intros; lia. }
    split_and!; [done..|]. intros Hfuel.
    etrans; [by apply (depth_above s' t1 t2 e.2); [..|lia]|]. lia.
  - apply (safe_Returned _ _ s4 s4); [done|]. split; [done|apply extends_refl].
  - intros s' [Hs' He']. split; [done|]. destruct He' as [_ ->]. by rewrite Hn4.
Qed.

(** ** More fuel changes nothing once the recursion has ended *)

Lemma and_then_more (a a' b b' : run) s :
  (and_then a b s).1 ≠ OutOfFuel →
  ((a s).1 ≠ OutOfFuel → a' s = a s) →
  (∀ s', a s = (Returned, s') → (b s').1 ≠ OutOfFuel → b' s' = b s') →
  and_then a' b' s = and_then a b s.
Proof.
  unfold and_then. intros Hst Ha Hb.
  destruct (a s) as [[] s'] eqn:E; simpl in *; rewrite Ha by done; [|done..].
  by apply Hb.
Qed.

Lemma check_edge_more (rec rec' : triangle_ptr → edge → triangle_ptr → run) e tp s :
  (∀ t1 r t2 s', (rec t1 r t2 s').1 ≠ OutOfFuel → rec' t1 r t2 s' = rec t1 r t2 s') →
  (check_edge rec e tp s).1 ≠ OutOfFuel →
  check_edge rec' e tp s = check_edge rec e tp s.
Proof.
  intros Hrec. unfold check_edge.
  destruct (insert_and_set _ _ _) as [[[b out] M]|]; [|done].
  destruct b; [done|]. destruct (get_value _ _ _) as [[other|]|]; [|done..].
  apply Hrec.
Qed.

Lemma process_ridge_more_fuel fuel t1 r t2 s :
  (process_ridge fuel t1 r t2 s).1 ≠ OutOfFuel →
  process_ridge (S fuel) t1 r t2 s = process_ridge fuel t1 r t2 s.
Proof.
  revert t1 r t2 s. induction fuel as [|fuel IH]; intros t1 r t2 s; [done|].
  rewrite (process_ridge_S (S fuel)), (process_ridge_S fuel).
  destruct (_ && _); [done|]. destruct (bool_decide _); [done|].
  destruct (_ <? _)%Z; [apply IH|].
  intros Hst. apply and_then_more; [done|done|]. intros s2 _ Hst2.
  apply and_then_more; [done|done|]. intros s3 _ Hst3.
  apply and_then_more; [done|apply IH|]. intros s4 _ Hst4.
  apply and_then_more; [done|by apply check_edge_more|]. intros s5 _ Hst5.
  by apply check_edge_more.
Qed.

Lemma process_ridge_add_fuel fuel extra t1 r t2 s :
  (process_ridge fuel t1 r t2 s).1 ≠ OutOfFuel →
  process_ridge (fuel + extra) t1 r t2 s = process_ridge fuel t1 r t2 s.
Proof.
  intros Hst. induction extra as [|extra IH]; [by rewrite Nat.add_0_r|].
  rewrite Nat.add_succ_r, process_ridge_more_fuel; [done|]. by rewrite IH.
Qed.

Lemma ridges_add_fuel fuel extra (l : list (nat * nat * edge)) (a a' : run) s :
  (foldl (λ a '(t1_idx, t2_idx, e), and_then a (process_ridge fuel t1_idx e t2_idx))
         a l s).1 ≠ OutOfFuel →
  ((a s).1 ≠ OutOfFuel → a' s = a s) →
  foldl (λ a '(t1_idx, t2_idx, e),
           and_then a (process_ridge (fuel + extra) t1_idx e t2_idx)) a' l s
  = foldl (λ a '(t1_idx, t2_idx, e), and_then a (process_ridge fuel t1_idx e t2_idx))
          a l s.
Proof.
  revert a a'. induction l as [|[[t1 t2] e] l IH]; intros a a' Hst Ha; simpl in *.
  { by apply Ha. }
  apply IH; [done|]. intros Hst'. apply and_then_more; [done|done|].
  intros s' _ Hst''. by apply process_ridge_add_fuel.
Qed.

Lemma construct_add_fuel hash_edge hash_tri fuel extra P :
  (construct hash_edge hash_tri fuel P).1 ≠ OutOfFuel →
  construct hash_edge hash_tri (fuel + extra) P = construct hash_edge hash_tri fuel P.
Proof.
  unfold construct. intros Hst.
  apply and_then_more; [done|done|]. intros s1 _ Hst1.
  apply and_then_more; [done|done|]. intros s2 _ Hst2.
  apply and_then_more; [done|done|]. intros s3 _ Hst3.
  apply and_then_more; [done|done|]. intros s4 _ Hst4.
  by apply ridges_add_fuel.
Qed.

(** ** Records are made once and never changed *)

Lemma grows_refl s : grows s s.
Proof. by split_and!. Qed.

Lemma grows_trans s1 s2 s3 : grows s1 s2 → grows s2 s3 → grows s1 s3.
Proof. intros (? & ? & ?) (? & ? & ?). split_and!; [by etrans|congruence..]. Qed.

Lemma and_then_grows (a b : run) :
  (∀ s, grows s (a s).2) → (∀ s, grows s (b s).2) → ∀ s, grows s (and_then a b s).2.
Proof.
  intros Ha Hb s. unfold and_then. specialize (Ha s).
  destruct (a s) as [[] s']; simpl in *; [|done..].
  eapply grows_trans; [exact Ha|apply Hb].
Qed.

Lemma hull_remove_grows k s : grows s (hull_remove k s).2.
Proof.
  unfold hull_remove. destruct (remove _ _) as [[? ?]|]; simpl; by split_and!.
Qed.

Lemma hull_insert_and_set_grows k v s : grows s (hull_insert_and_set k v s).2.
Proof.
  unfold hull_insert_and_set. destruct (insert_and_set _ _ _) as [[[? ?] ?]|]; simpl;
    by split_and!.
Qed.

Lemma make_shared_grows tr s : grows s (make_shared tr s).2.
Proof. unfold make_shared. simpl. split_and!; [by apply prefix_app_r|done..]. Qed.

Lemma check_edge_grows rec e tp :
  (∀ t1 r t2 s, grows s (rec t1 r t2 s).2) → ∀ s, grows s (check_edge rec e tp s).2.
Proof.
  intros Hrec s. unfold check_edge.
  destruct (insert_and_set _ _ _) as [[[b out] M]|]; [|apply grows_refl].
  destruct b; [by split_and!|].
  destruct (get_value _ _ _) as [[other|]|]; [|by split_and!..].
  eapply grows_trans; [|apply Hrec]. by split_and!.
Qed.

Lemma process_ridge_grows fuel t1 r t2 s : grows s (process_ridge fuel t1 r t2 s).2.
Proof.
  revert t1 r t2 s. induction fuel as [|fuel IH]; intros t1 r t2 s; [apply grows_refl|].
  rewrite process_ridge_S.
  destruct (_ && _); [apply grows_refl|].
  destruct (bool_decide _).
  { apply and_then_grows; intros ?; apply hull_remove_grows. }
  destruct (_ <? _)%Z; [apply IH|].
  eapply grows_trans; [apply make_shared_grows|].
  apply and_then_grows; [intros ?; apply hull_remove_grows|].
  apply and_then_grows; [intros ?; apply hull_insert_and_set_grows|].
  apply and_then_grows; [intros ?; apply IH|].
  apply and_then_grows; apply check_edge_grows; intros; apply IH.
Qed.


End facts.

Import HullExamples.

(** Outside the contract.  [check_edge] inserts under the sorted key and
    looks up with the edge as given; the two differ when the larger
    identifier comes first, which dense identifiers rule out.  With the
    edge [{5, 4}] and the ridge map already holding [{4, 5}], the insertion
    loses and the lookup comes back empty; with the edge given as [{4, 5}]
    the same call finds the peer and goes on.  The whole function throws in
    the same way on six points whose last two identifiers are out of
    order. *)
Lemma reversed_edge_is_not_found :
  check_edge (process_ridge 1) (5, 4)%Z 0 empty6 = (Returned, one_edge)
  ∧ get_value (4, 5)%Z 1 (map_facets one_edge) = Val (Some 0)
  ∧ (check_edge (process_ridge 1) (5, 4)%Z 1 one_edge).1 = BadOptionalAccess
  ∧ (check_edge (process_ridge 1) (4, 5)%Z 1 one_edge).1 = Returned
  ∧ convex_hull_3d hash_edge hash_tri 7 Pswapped = (BadOptionalAccess, []).
Proof. split_and!; vm_compute; reflexivity. Qed.

(** The rounding of [round_to]: values of up to 24 bits are kept, a value
    half-way between two neighbours goes to the even one. *)
Lemma round_to_examples :
  round_to 24 16777215 = 16777215%Z ∧ round_to 24 16777217 = 16777216%Z
  ∧ round_to 24 16777219 = 16777220%Z ∧ round_to 24 (-16777217) = (-16777216)%Z
  ∧ round_to 24 33554431 = 33554432%Z ∧ round_to 24 33554434 = 33554432%Z
  ∧ round_to 24 33554438 = 33554440%Z
  ∧ round_to 24 (488831 * 3745109) = 1830725353472%Z
  ∧ round_to 53 9007199254740993 = 9007199254740992%Z.
Proof. split_and!; vm_compute; reflexivity. Qed.

(** On the small coordinates of [P6] no operation rounds: the arithmetic
    of the machine and exact arithmetic build the same hull. *)
Lemma machine_arithmetic_is_exact_on_P6 :
  convex_hull_3d hash_edge hash_tri 20 (machine_points_of [0; 1; 2; 3; 4; 5]%Z xyz6)
  = convex_hull_3d hash_edge hash_tri 20 P6.
Proof. vm_compute. reflexivity. Qed.



Lemma sorted_P6 : sorted_ids P6.
Proof. unfold sorted_ids, id_lt. repeat constructor; vm_compute; reflexivity. Qed.

Lemma dense_P6 : dense_ids P6.
Proof.
  intros i p Hi. do 6 (destruct i as [|i]; [by injection Hi as <-|]). done.
Qed.

(** The six-point input has dense identifiers, so the lookup by the raw
    edge and the lookup by key build the same hull on it. *)
Lemma construct_agree_P6 :
  construct hash_edge hash_tri 20 P6 = construct_by_key hash_edge hash_tri 20 P6.
Proof. apply (construct_agree (ops:=ZOps)), dense_P6. Defined.


Lemma conflict_lists_sorted_witness :
  heap_sorted (process_ridge 5 2 (0, 3)%Z 3 seeded6).2
  ∧ heap_sorted (construct hash_edge hash_tri 20 P6).2
  ∧ (∀ q, q ∈ conflicts (deref (construct hash_edge hash_tri 20 P6).2 0) →
          (min_conflicts (construct hash_edge hash_tri 20 P6).2 0%nat ≤ id q)%Z).
Proof.
  destruct (conflict_lists_sorted (ops:=ZOps) hash_edge hash_tri) as [Hstep Hrun].
  split_and!.
  - apply Hstep. unfold heap_sorted, sorted_ids, id_lt.
    repeat constructor; vm_compute; reflexivity.
  - apply (Hrun 20 P6 sorted_P6).
  - apply (Hrun 20 P6 sorted_P6).
Defined.

Lemma process_ridge_tie_only_removes_witness :
  ∃ H2, process_ridge 1 2 (0, 3)%Z 3 seeded6 = (Returned, set_convex_hull seeded6 H2)
        ∧ same_but_removed (convex_hull seeded6) H2.
Proof.
  destruct (process_ridge_tie_only_removes 0 2 (0, 3)%Z 3 seeded6)
    as (b1 & b2 & H1 & H2 & _ & _ & Hrun & Hsame & _).
  - vm_compute. discriminate.
  - vm_compute. discriminate.
  - vm_compute. reflexivity.
  - split; vm_compute; [reflexivity|lia].
  - exists 0. split; vm_compute; [lia|reflexivity].
  - by exists H2.
Defined.

Lemma four_points_give_seed_facets_witness :
  ∃ l, convex_hull_3d hash_edge hash_tri 1 P4 = (Returned, l)
       ∧ l ≡ₚ [(0, 1, 2); (1, 2, 3); (0, 2, 3); (0, 1, 3)]%Z.
Proof.
  apply (four_points_give_seed_facets hash_edge hash_tri P4 0). vm_compute. reflexivity.
Defined.

End HullFacts.

(** * The hull builder on inputs with dense identifiers *)

Module HullLaws.
Import convex_hash_map MapSpec MapFacts Convex_Hull_3d HullSpec HullFacts.
Section laws.
Context `{ops : FloatOps}.
Variable hash_edge : edge → nat.
Variable hash_tri : tri → nat.

(** X11.  On an input of four points or more whose identifiers are dense,
    with the closures run one after the other, the constructor never
    applies [.value()] to an empty optional: after a lost race the lookup
    of [check_edge] finds the record of the peer. *)
Theorem dense_input_never_throws fuel P :
  dense_ids P → 4 ≤ length P →
  (construct hash_edge hash_tri fuel P).1 ≠ BadOptionalAccess.
Proof. intros Hd Hlen. by destruct (construct_safe hash_edge hash_tri fuel P Hd Hlen). Qed.

(** X12.  On such an input the calls of [process_ridge] are nested at most
    [2 * n] deep, [n] the number of points: with that much fuel the
    constructor does not run out of it, and more fuel gives the same status
    and the same state. *)
Theorem recursion_depth_is_bounded fuel P :
  dense_ids P → 4 ≤ length P → 2 * length P ≤ fuel →
  (construct hash_edge hash_tri fuel P).1 ≠ OutOfFuel
  ∧ construct hash_edge hash_tri fuel P
    = construct hash_edge hash_tri (2 * length P) P.
Proof.
  intros Hd Hlen Hfuel.
  destruct (construct_safe hash_edge hash_tri fuel P Hd Hlen) as (_ & Hf & _).
  destruct (construct_safe hash_edge hash_tri (2 * length P) P Hd Hlen) as (_ & Hf' & _).
  split; [by apply Hf|].
  replace fuel with (2 * length P + (fuel - 2 * length P)) by lia.
  apply construct_add_fuel. by apply Hf'.
Qed.

(** X13.  On such an input every facet that [convex_hull_3d] returns is a
    triple of identifiers of the input in strictly increasing order. *)
Theorem facets_are_increasing_triples fuel P l :
  dense_ids P → 4 ≤ length P →
  convex_hull_3d hash_edge hash_tri fuel P = (Returned, l) →
  Forall (facet_ok (Z.of_nat (length P))) l.
Proof.
  intros Hd Hlen. unfold convex_hull_3d.
  destruct (construct_safe hash_edge hash_tri fuel P Hd Hlen) as (_ & _ & Hret).
  destruct (construct hash_edge hash_tri fuel P) as [st s]. intros [= -> <-].
  destruct (Hret eq_refl) as ((_ & _ & Hwf & Hhull) & Hn). simpl in *.
  apply Forall_forall. intros f Hin.
  apply keys_elem in Hin as (j & Hj & Hlive & Hk); [|done].
  rewrite <-Hn, <-Hk. apply Hhull; [done|].
  unfold live in Hlive. by apply andb_true_iff in Hlive as [? _].
Qed.

(** X14.  The conflict list of a new facet.  In the last branch of
    [process_ridge] the first record's list starts with the apex [p], and
    the other list holds larger identifiers only.  The list of the new
    record, the visible points of the deduplicated merge, is then sorted,
    holds points of the two lists only, and every identifier in it is
    larger than the apex: the apex is used up. *)
Theorem new_conflicts_lie_above_the_apex s (tr : tri) (pd : point_id) p c1' c2 :
  sorted_ids (p :: c1') → sorted_ids c2 → Forall (λ q, (id p < id q)%Z) c2 →
  sorted_ids (get_visible_points s tr pd (uni_dedup (p :: c1') c2))
  ∧ Forall (λ q, (id p < id q)%Z ∧ (q ∈ c1' ∨ q ∈ c2))
           (get_visible_points s tr pd (uni_dedup (p :: c1') c2)).
Proof.
  intros Hs1 Hs2 Hab. split.
  - by apply get_visible_points_sorted, uni_dedup_sorted.
  - apply get_visible_points_Forall.
    assert (Forall (id_lt p) (uni_dedup (p :: c1') c2)) as Hlt.
    { apply uni_dedup_above; [done..|]. intros q c2' ->.
      by apply Forall_cons in Hab as [? _]. }
    assert (Forall (λ q, q ∈ p :: c1' ∨ q ∈ c2) (uni_dedup (p :: c1') c2)) as Hin.
    { apply uni_dedup_Forall; apply Forall_forall; intros q Hq; [by left|by right]. }
    apply Forall_forall. intros q Hq.
    pose proof (proj1 (Forall_forall _ _) Hlt q Hq) as Hq1.
    pose proof (proj1 (Forall_forall _ _) Hin q Hq) as [Hq2|Hq2].
    + apply elem_of_cons in Hq2 as [->|Hq2]; [unfold id_lt in Hq1; lia|].
      split; [done|by left].
    + split; [done|by right].
Qed.

(** X19.  Triangle records are made once and never changed: whatever its
    arguments and however it ends, a call of [process_ridge] leaves every
    record of the free store as it was (it only adds records), and it
    leaves the points and their number as they were. *)
Theorem records_are_never_changed fuel t1 r t2 s tp :
  tp < length (heap s) →
  deref (process_ridge fuel t1 r t2 s).2 tp = deref s tp
  ∧ length (heap s) ≤ length (heap (process_ridge fuel t1 r t2 s).2)
  ∧ points (process_ridge fuel t1 r t2 s).2 = points s
  ∧ n (process_ridge fuel t1 r t2 s).2 = n s.
Proof.
  intros Htp. destruct (process_ridge_grows fuel t1 r t2 s) as (Hpre & Hn & Hp).
  split_and!; [|by apply prefix_length|done..].
  unfold deref. destruct Hpre as [k ->]. by rewrite lookup_total_app_l.
Qed.

End laws.

Import HullExamples.

Lemma records_are_never_changed_witness :
  deref (process_ridge 5 2 (0, 3)%Z 3 seeded6).2 0 = deref seeded6 0
  ∧ length (heap seeded6) ≤ length (heap (process_ridge 5 2 (0, 3)%Z 3 seeded6).2)
  ∧ points (process_ridge 5 2 (0, 3)%Z 3 seeded6).2 = points seeded6
  ∧ n (process_ridge 5 2 (0, 3)%Z 3 seeded6).2 = n seeded6.
Proof.
  apply (records_are_never_changed (ops:=ZOps) 5 2 (0, 3)%Z 3 seeded6 0).
  vm_compute. lia.
Defined.

Lemma long_enough_P6 : 4 ≤ length P6.
Proof. vm_compute. lia. Qed.

Lemma dense_input_never_throws_witness :
  (construct hash_edge hash_tri 20 P6).1 ≠ BadOptionalAccess.
Proof.
  apply (dense_input_never_throws (ops:=ZOps) hash_edge hash_tri 20 P6);
    [apply dense_P6|apply long_enough_P6].
Defined.

Lemma recursion_depth_is_bounded_witness :
  (construct hash_edge hash_tri 20 P6).1 ≠ OutOfFuel
  ∧ construct hash_edge hash_tri 20 P6 = construct hash_edge hash_tri (2 * length P6) P6.
Proof.
  apply (recursion_depth_is_bounded (ops:=ZOps) hash_edge hash_tri 20 P6);
    [apply dense_P6|apply long_enough_P6|vm_compute; lia].
Defined.

Lemma facets_are_increasing_triples_witness :
  ∃ l, convex_hull_3d hash_edge hash_tri 20 P6 = (Returned, l)
       ∧ Forall (facet_ok 6%Z) l.
Proof.
  eexists. split; [vm_compute; reflexivity|].
  apply (facets_are_increasing_triples (ops:=ZOps) hash_edge hash_tri 20 P6);
    [apply dense_P6|apply long_enough_P6|vm_compute; reflexivity].
Defined.

Lemma new_conflicts_lie_above_the_apex_witness :
  let p := @Point ZOps 4%Z 9%Z 8%Z 7%Z in
  let q := @Point ZOps 5%Z (-3)%Z (-4)%Z (-5)%Z in
  sorted_ids (get_visible_points seeded6 (0, 3, 4)%Z 1%Z (uni_dedup [p; q] [q]))
  ∧ Forall (λ x, (id p < id x)%Z ∧ (x ∈ [q] ∨ x ∈ [q]))
           (get_visible_points seeded6 (0, 3, 4)%Z 1%Z (uni_dedup [p; q] [q])).
Proof.
  intros p q.
  apply (new_conflicts_lie_above_the_apex (ops:=ZOps) seeded6 (0, 3, 4)%Z 1%Z p [q] [q]).
  - unfold sorted_ids, id_lt. repeat constructor; vm_compute; reflexivity.
  - unfold sorted_ids, id_lt. repeat constructor.
  - repeat constructor; vm_compute; reflexivity.
Defined.

End HullLaws.

(** * Properties of the driver *)

Module DriverFacts.
Import Driver.

(** C10 (the code does otherwise).  Without the argument [main] prints the
    usage message and reaches the end of [main]: the exit status is 0.  The
    sibling branch, for an argument that [std::stoi] rejects, prints the
    usage message and returns 1. *)
Theorem main_without_argument_exits_zero stoi body prog arg :
  main stoi body [prog] = (["Usage: <n>"%string], 0%Z)
  ∧ main (λ _, None) body [prog; arg] = (["Usage: <n>"%string], 1%Z).
Proof. by split. Qed.

End DriverFacts.

(** * Properties of the example applications *)

Module BenchFacts.
Import Bench BenchSpec.

(** ** Reduce with a monoid *)

Section monoids.
Context {T : Type} (mo : monoid T).
Hypothesis assoc : ∀ a b c, f mo a (f mo b c) = f mo (f mo a b) c.
Hypothesis left_id : ∀ a, f mo (identity mo) a = a.
Hypothesis right_id : ∀ a, f mo a (identity mo) = a.

Lemma foldr_monoid_acc (l : list T) (y : T) :
  foldr (f mo) y l = f mo (foldr (f mo) (identity mo) l) y.
Proof.
  induction l as [|x l IH]; simpl; [by rewrite left_id|].
  by rewrite IH, assoc.
Qed.

(** With a monoid in the proper sense every grouping gives the same. *)
Lemma grouped_fold (l : list T) (x : T) :
  grouped mo l x → x = foldr (f mo) (identity mo) l.
Proof.
  induction 1 as [|x|l1 l2 x1 x2 _ _ _ IH1 _ IH2]; simpl; [done|by rewrite right_id|].
  by rewrite foldr_app, foldr_monoid_acc, <-IH1, <-IH2.
Qed.

End monoids.

(** The reduce from left to right is one of the groupings. *)
Lemma reduce_serial_grouped (T : Type) (l : list T) (mo : monoid T) :
  grouped mo l (reduce_serial T l mo).
Proof.
  destruct l as [|x l]; [constructor|]. simpl.
  induction l as [|y l IH] using rev_ind; [constructor|].
  rewrite foldl_app. simpl. rewrite app_comm_cons.
  by apply grouped_split; [done|done|exact IH|constructor].
Qed.

Lemma dseq_S {T} n (g : nat → T) : dseq (S n) g = g 0 :: dseq n (g ∘ S).
Proof. unfold dseq. simpl. by rewrite <-fmap_S_seq, <-list_fmap_compose. Qed.

Lemma dseq_ext {T} n (g h : nat → T) :
  (∀ i, i < n → g i = h i) → dseq n g = dseq n h.
Proof.
  intros Hgh. unfold dseq. apply list_eq. intros i. rewrite !list_lookup_fmap.
  destruct (seq 0 n !! i) as [k|] eqn:Hk; [|done]. simpl.
  apply lookup_seq in Hk as [-> ?]. f_equal. by apply Hgh.
Qed.

(** ** Word count *)

Lemma dseq_marks (prev : bool) (s : list char) :
  dseq (length s) (λ i,
    (of_bool (bool_decide (s !!! i = newline)),
     of_bool ((if decide (i = 0) then prev else isspace (s !!! (i - 1)))
              && negb (isspace (s !!! i)))))
  = marks prev s.
Proof.
  revert prev. induction s as [|c s IH]; intros prev; [done|].
  cbn [length]. rewrite dseq_S. simpl. f_equal. rewrite <-IH.
  apply dseq_ext. intros i Hi. simpl. rewrite Nat.sub_0_r.
  destruct i as [|i]; simpl; [done|]. by rewrite Nat.sub_0_r.
Qed.

Lemma fold_pairs (l : list (nat * nat)) :
  foldr (f (pair_monoid addm addm)) (identity (pair_monoid addm addm)) l
  = (sum_list (l.*1), sum_list (l.*2)).
Proof. induction l as [|[a b] l IH]; [done|]. simpl in *. by rewrite IH. Qed.

Lemma marks_line_breaks prev s : sum_list ((marks prev s).*1) = length (line_breaks s).
Proof.
  revert prev. induction s as [|c s IH]; intros prev; [done|]. simpl.
  unfold line_breaks in *. rewrite filter_cons, IH.
  case_bool_decide; by case_decide.
Qed.

Lemma marks_words cur s :
  length (split_words cur s)
  = of_bool (negb (bool_decide (cur = [])))
    + sum_list ((marks (bool_decide (cur = [])) s).*2).
Proof.
  assert (∀ (c : char) l, bool_decide (c :: l = []) = false) as Hcons.
  { intros c l. by apply bool_decide_false. }
  assert (bool_decide (@nil char = []) = true) as Hnil by by apply bool_decide_true.
  revert cur. induction s as [|c s IH]; intros cur; simpl.
  - destruct cur; [rewrite Hnil|rewrite Hcons]; simpl; lia.
  - destruct (isspace c) eqn:Hc; simpl.
    + rewrite andb_false_r. simpl.
      destruct cur as [|c' cur]; simpl; rewrite (IH []), Hnil; done.
    + rewrite andb_true_r. rewrite (IH (c :: cur)), Hcons.
      destruct cur; [rewrite Hnil|rewrite Hcons]; done.
Qed.

(** [wc] with any reduce of the runtime. *)
Lemma wc_spec (reduce : ∀ T : Type, list T → monoid T → T) s :
  (∀ T l mo, grouped mo l (reduce T l mo)) →
  wc reduce s = (length (line_breaks s), length (words s), length s).
Proof.
  intros Hred. unfold wc.
  set (g := λ i : nat,
    (of_bool (bool_decide (s !!! i = newline)),
     of_bool ((bool_decide (i = 0) || isspace (s !!! (i - 1))) && negb (isspace (s !!! i))))).
  rewrite (grouped_fold (pair_monoid addm addm)) with (l := dseq (length s) g)
                                                      (x := reduce _ (dseq (length s) g) _).
  - rewrite (dseq_ext _ g (λ i,
      (of_bool (bool_decide (s !!! i = newline)),
       of_bool ((if decide (i = 0) then true else isspace (s !!! (i - 1)))
                && negb (isspace (s !!! i)))))).
    + rewrite dseq_marks, fold_pairs. simpl.
      rewrite marks_line_breaks. unfold words.
      by rewrite (marks_words [] s).
    + intros i _. unfold g. by destruct i.
  - intros [a1 a2] [b1 b2] [c1 c2]. simpl. f_equal; lia.
  - by intros [a1 a2].
  - intros [a1 a2]. simpl. f_equal; lia.
  - apply Hred.
Qed.

(** ** Maximum contiguous subsequence sum *)

Lemma sum_app l1 l2 : sum (l1 ++ l2) = (sum l1 + sum l2)%Z.
Proof. induction l1 as [|x l1 IH]; simpl; [done|]. rewrite IH. lia. Qed.

Lemma dseq_tuples (A : list Z) :
  dseq (length A) (λ i, (A !!! i, A !!! i, A !!! i, A !!! i)) = tuple_of <$> A.
Proof.
  induction A as [|a A IH]; [done|]. cbn [length]. rewrite dseq_S, fmap_cons.
  f_equal. rewrite <-IH. by apply dseq_ext.
Qed.

Lemma covers_one x : covers [x] (tuple_of x).
Proof.
  unfold covers, tuple_of. simpl. split_and!.
  - lia.
  - intros [|[|k]] ? ?; simpl in *; lia.
  - intros [|k] ?; simpl in *; lia.
  - intros [|i] [|[|len]] ? ?; simpl in *; lia.
Qed.

Lemma covers_split l1 l2 x1 x2 :
  l1 ≠ [] → l2 ≠ [] → covers l1 x1 → covers l2 x2 → covers (l1 ++ l2) (combine x1 x2).
Proof.
  destruct x1 as [[[aa pa] sa] ta], x2 as [[[ab pb] sb] tb].
  intros Hne1 Hne2 (Ht1 & Hp1 & Hs1 & Ha1) (Ht2 & Hp2 & Hs2 & Ha2).
  assert (0 < length l1) as Hl1 by (destruct l1; [done|simpl; lia]).
  assert (0 < length l2) as Hl2 by (destruct l2; [done|simpl; lia]).
  assert (tb ≤ ab)%Z as Htb.
  { specialize (Ha2 0 (length l2) Hl2 ltac:(lia)).
    rewrite drop_0, take_ge in Ha2 by lia. lia. }
  unfold covers, combine. rewrite length_app. split_and!.
  - rewrite sum_app. lia.
  - intros k Hk Hkl. rewrite take_app, sum_app.
    destruct (decide (k ≤ length l1)) as [Hle|Hgt].
    + replace (k - length l1) with 0 by lia. rewrite take_0. simpl.
      specialize (Hp1 k Hk Hle). lia.
    + rewrite (take_ge l1) by lia.
      specialize (Hp2 (k - length l1) ltac:(lia) ltac:(lia)). lia.
  - intros k Hk. rewrite drop_app, sum_app.
    destruct (decide (k < length l1)) as [Hlt|Hge].
    + replace (k - length l1) with 0 by lia. rewrite drop_0.
      specialize (Hs1 k Hlt). lia.
    + rewrite (drop_ge l1) by lia. simpl.
      specialize (Hs2 (k - length l1) ltac:(lia)). lia.
  - intros i len Hlen Hil. rewrite drop_app, take_app, sum_app, length_drop.
    destruct (decide (i + len ≤ length l1)) as [Hin1|Hout1].
    + replace (len - (length l1 - i)) with 0 by lia. rewrite take_0. simpl.
      specialize (Ha1 i len Hlen Hin1). lia.
    + destruct (decide (length l1 ≤ i)) as [Hin2|Hout2].
      * rewrite (drop_ge l1) by lia. rewrite take_nil. simpl.
        replace (len - (length l1 - i)) with len by lia.
        specialize (Ha2 (i - length l1) len Hlen ltac:(lia)). lia.
      * rewrite (take_ge (drop i l1)) by (rewrite length_drop; lia).
        replace (i - length l1) with 0 by lia. rewrite drop_0.
        specialize (Hs1 i ltac:(lia)).
        specialize (Hp2 (len - (length l1 - i)) ltac:(lia) ltac:(lia)). lia.
Qed.

Lemma wrap_id z : in_int z → wrap z = z.
Proof.
  unfold in_int, int_min, int_max, wrap. intros ?. rewrite Z.mod_small; lia.
Qed.

(** When the four sums fit, no addition of the combining function wraps. *)
Lemma mcss_f_combine aa pa sa ta ab pb sb tb :
  in_int (sa + pb) → in_int (ta + pb) → in_int (sa + ab) → in_int (ta + tb) →
  mcss_f (aa, pa, sa, ta) (ab, pb, sb, tb) = combine (aa, pa, sa, ta) (ab, pb, sb, tb).
Proof. intros. unfold mcss_f, combine, add_int. by rewrite !wrap_id. Qed.

Lemma sum_abs_app l1 l2 : sum_abs (l1 ++ l2) = (sum_abs l1 + sum_abs l2)%Z.
Proof. unfold sum_abs. by rewrite fmap_app, sum_app. Qed.

Lemma sum_abs_cons x l : sum_abs (x :: l) = (Z.abs x + sum_abs l)%Z.
Proof. reflexivity. Qed.

Lemma sum_abs_nonneg l : (0 ≤ sum_abs l)%Z.
Proof. induction l as [|x l IH]; [done|]. rewrite sum_abs_cons. lia. Qed.

Lemma abs_sum l : (Z.abs (sum l) ≤ sum_abs l)%Z.
Proof.
  induction l as [|x l IH]; [done|]. rewrite sum_abs_cons.
  change (sum (x :: l)) with (x + sum l)%Z. lia.
Qed.

Lemma sum_abs_take_drop k l : sum_abs l = (sum_abs (take k l) + sum_abs (drop k l))%Z.
Proof. by rewrite <-sum_abs_app, take_drop. Qed.

(** A sequence whose magnitudes add up to a value of [int] has run sums
    that fit. *)
Lemma run_sums_fit A w : (sum_abs A ≤ int_max)%Z → run_sum A w → in_int w.
Proof.
  intros HA (i & len & _ & _ & ->).
  pose proof (abs_sum (take len (drop i A))) as H1.
  pose proof (sum_abs_take_drop len (drop i A)) as H2.
  pose proof (sum_abs_take_drop i A) as H3.
  pose proof (sum_abs_nonneg (drop len (drop i A))).
  pose proof (sum_abs_nonneg (take i A)).
  unfold in_int, int_min, int_max in *. lia.
Qed.

Lemma within_one a : within (Z.abs a) (tuple_of a).
Proof. unfold within, tuple_of. lia. Qed.

Lemma combine_within B1 B2 x1 x2 :
  within B1 x1 → within B2 x2 → within (B1 + B2) (combine x1 x2).
Proof.
  destruct x1 as [[[aa pa] sa] ta], x2 as [[[ab pb] sb] tb].
  unfold within, combine. lia.
Qed.

Lemma within_fits B1 B2 x1 x2 :
  within B1 x1 → within B2 x2 → (B1 + B2 ≤ int_max)%Z → mcss_f x1 x2 = combine x1 x2.
Proof.
  destruct x1 as [[[aa pa] sa] ta], x2 as [[[ab pb] sb] tb].
  unfold within. intros ? ? ?.
  apply mcss_f_combine; unfold in_int, int_min, int_max in *; lia.
Qed.

(** Any grouping of a sequence whose magnitudes add up to a value of [int]
    yields, without a wrap, a tuple that bounds the sums from above. *)
Lemma grouped_covers (l : list (Z * Z * Z * Z)) x :
  grouped mcss_monoid l x →
  ∀ A, l = tuple_of <$> A → A ≠ [] → (sum_abs A ≤ int_max)%Z →
       covers A x ∧ within (sum_abs A) x.
Proof.
  induction 1 as [|x|l1 l2 x1 x2 Hne1 Hne2 _ IH1 _ IH2]; intros A HA HAne Hfit.
  - by destruct A.
  - destruct A as [|a [|b A]]; [done| |done]. injection HA as ->.
    split; [apply covers_one|].
    replace (sum_abs [a]) with (Z.abs a) by (unfold sum_abs; simpl; lia).
    apply within_one.
  - symmetry in HA. apply fmap_app_inv in HA as (A1 & A2 & -> & -> & ->).
    rewrite sum_abs_app in *.
    pose proof (sum_abs_nonneg A1). pose proof (sum_abs_nonneg A2).
    assert (A1 ≠ []) as HA1 by (by destruct A1).
    assert (A2 ≠ []) as HA2 by (by destruct A2).
    destruct (IH1 A1 eq_refl HA1 ltac:(lia)) as [Hc1 Hw1].
    destruct (IH2 A2 eq_refl HA2 ltac:(lia)) as [Hc2 Hw2].
    cbn [f mcss_monoid]. rewrite (within_fits _ _ _ _ Hw1 Hw2 Hfit).
    split; [by apply covers_split|by apply combine_within].
Qed.

Lemma run_sum_app_l l x v : run_sum l v → run_sum (l ++ [x]) v.
Proof.
  intros (i & len & Hlen & Hil & ->). exists i, len. rewrite length_app.
  split_and!; [done|lia|]. rewrite drop_app, take_app, length_drop.
  replace (len - (length l - i)) with 0 by lia. by rewrite take_0, app_nil_r.
Qed.

(** One more element on the right, with the bounds still attained. *)
Lemma exact_snoc l x t1 :
  l ≠ [] → exact l t1 → exact (l ++ [x]) (combine t1 (tuple_of x)).
Proof.
  destruct t1 as [[[aa pa] sa] ta]. intros Hne (Hcov & Hp & Hs & Ha).
  assert (0 < length l) as Hl by (destruct l; [done|simpl; lia]).
  pose proof (covers_split l [x] _ _ Hne ltac:(done) Hcov (covers_one x)) as Hcov'.
  destruct Hcov as (Ht & _).
  destruct Hp as (kp & Hkp & Hkpl & ->). destruct Hs as (ks & Hks & ->).
  unfold exact, tuple_of, combine in *. split; [exact Hcov'|].
  rewrite length_app. simpl. split_and!.
  - destruct (Z.max_spec (sum (take kp l)) (ta + x)) as [[_ ->]|[_ ->]].
    + exists (length l + 1). split_and!; [lia|lia|].
      rewrite take_ge by (rewrite length_app; simpl; lia). rewrite sum_app, Ht. simpl. lia.
    + exists kp. split_and!; [lia|lia|]. by rewrite take_app_le by lia.
  - destruct (Z.max_spec (sum (drop ks l) + x) x) as [[_ ->]|[_ ->]].
    + exists (length l). split; [lia|]. rewrite drop_app_length. simpl. lia.
    + exists ks. split; [lia|]. rewrite drop_app_le by lia. rewrite sum_app. simpl. lia.
  - destruct (Z.max_spec x (sum (drop ks l) + x)) as [[_ Hm]|[_ Hm]]; rewrite Hm.
    + destruct (Z.max_spec aa (sum (drop ks l) + x)) as [[_ ->]|[_ ->]];
        [|by apply run_sum_app_l].
      exists ks, (length l - ks + 1). rewrite length_app. simpl.
      split_and!; [lia|lia|]. rewrite drop_app_le by lia.
      rewrite take_ge by (rewrite length_app, length_drop; simpl; lia).
      rewrite sum_app. simpl. lia.
    + destruct (Z.max_spec aa x) as [[_ ->]|[_ ->]]; [|by apply run_sum_app_l].
      exists (length l), 1. rewrite length_app. simpl. split_and!; [lia|lia|].
      rewrite drop_app_length. simpl. lia.
Qed.

Lemma exact_one x : exact [x] (tuple_of x).
Proof.
  unfold exact. split_and!; [apply covers_one| | |].
  - exists 1. simpl. split_and!; lia.
  - exists 0. simpl. split_and!; lia.
  - exists 0, 1. simpl. split_and!; lia.
Qed.

(** One more element on the right: the sums that are formed are sums of
    runs, so that nothing wraps when the run sums fit. *)
Lemma exact_fits l x t1 :
  l ≠ [] → exact l t1 → (∀ w, run_sum (l ++ [x]) w → in_int w) →
  mcss_f t1 (tuple_of x) = combine t1 (tuple_of x).
Proof.
  destruct t1 as [[[aa pa] sa] ta]. intros Hne ((Ht & _) & _ & (ks & Hks & ->) & _) Hfit.
  assert (in_int (sum (drop ks l) + x)).
  { apply Hfit. exists ks, (length l - ks + 1). rewrite length_app. simpl.
    split_and!; [lia|lia|]. rewrite drop_app_le by lia.
    rewrite take_ge by (rewrite length_app, length_drop; simpl; lia).
    rewrite sum_app. simpl. lia. }
  assert (in_int (ta + x)).
  { apply Hfit. exists 0, (length l + 1). rewrite length_app. simpl.
    split_and!; [lia|lia|]. rewrite drop_0, take_ge by (rewrite length_app; simpl; lia).
    rewrite sum_app, Ht. simpl. lia. }
  by apply mcss_f_combine.
Qed.

(** From left to right the tuple is the exact one, when the run sums fit. *)
Lemma foldl_exact a l :
  (∀ w, run_sum (a :: l) w → in_int w) →
  exact (a :: l) (foldl mcss_f (tuple_of a) (tuple_of <$> l)).
Proof.
  induction l as [|x l IH] using rev_ind; intros Hfit; [apply exact_one|].
  rewrite fmap_app, foldl_app. simpl. rewrite app_comm_cons.
  assert (exact (a :: l) (foldl mcss_f (tuple_of a) (tuple_of <$> l))) as Hex.
  { apply IH. intros w Hw. apply Hfit. rewrite app_comm_cons. by apply run_sum_app_l. }
  rewrite (exact_fits (a :: l) x _ ltac:(done) Hex) by (by rewrite <-app_comm_cons).
  by apply exact_snoc.
Qed.

(** ** Prime sieve *)

Lemma clear_flags (ks : list nat) (flags : list bool) i :
  i < length flags →
  foldl (λ flags k, <[k := false]> flags) flags ks !!! i = true
  ↔ flags !!! i = true ∧ i ∉ ks.
Proof.
  revert flags. induction ks as [|k ks IH]; intros flags Hi; simpl.
  - split; [intros ?; split; [done|apply not_elem_of_nil]|by intros [? _]].
  - rewrite IH by by rewrite length_insert.
    rewrite not_elem_of_cons. destruct (decide (i = k)) as [->|Hne].
    + rewrite list_lookup_total_insert_eq by done.
      split; [by intros [? _]|by intros (_ & ? & _)].
    + rewrite list_lookup_total_insert_ne by done. tauto.
Qed.

Lemma sieve_out_multiples n primes_sqrt flags :
  sieve_out n primes_sqrt flags
  = foldl (λ flags k, <[k := false]> flags) flags (multiples n primes_sqrt).
Proof.
  unfold sieve_out, multiples. revert flags.
  induction primes_sqrt as [|p ps IH]; intros flags; [done|].
  cbn [foldl mbind list_bind]. rewrite foldl_app, IH. f_equal.
  generalize (seq 2 (n / p + 1 - 2)). intros js. revert flags.
  induction js as [|j js IHj]; intros flags; [done|]. simpl. by rewrite IHj.
Qed.

Lemma elem_of_multiples n primes_sqrt i :
  i ∈ multiples n primes_sqrt
  ↔ ∃ p j, p ∈ primes_sqrt ∧ 2 ≤ j ∧ j ≤ n / p ∧ i = p * j.
Proof.
  unfold multiples. rewrite list_elem_of_bind. split.
  - intros (p & Hi & Hp). apply list_elem_of_fmap in Hi as (j & -> & Hj).
    apply elem_of_seq in Hj. exists p, j. split_and!; [done|lia|lia|done].
  - intros (p & j & Hp & Hj2 & Hjn & ->). exists p. split; [|done].
    apply list_elem_of_fmap. exists j. split; [done|]. apply elem_of_seq. lia.
Qed.

Lemma elem_of_pack_index_from k flags i :
  i ∈ pack_index_from k flags ↔ k ≤ i ∧ flags !! (i - k) = Some true.
Proof.
  revert k. induction flags as [|b flags IH]; intros k; simpl.
  - rewrite elem_of_nil. split; [done|]. by intros [_ ?].
  - destruct b.
    + rewrite elem_of_cons, IH. split.
      * intros [->|[Hk Hi]]; [by rewrite Nat.sub_diag|].
        split; [lia|]. by replace (i - k) with (S (i - S k)) by lia.
      * intros [Hk Hi]. destruct (decide (i = k)) as [->|Hne]; [by left|right].
        split; [lia|]. by replace (i - k) with (S (i - S k)) in Hi by lia.
    + rewrite IH. split.
      * intros [Hk Hi]. split; [lia|]. by replace (i - k) with (S (i - S k)) by lia.
      * intros [Hk Hi]. destruct (decide (i = k)) as [->|Hne].
        { by rewrite Nat.sub_diag in Hi. }
        split; [lia|]. by replace (i - k) with (S (i - S k)) in Hi by lia.
Qed.

Lemma pack_index_from_sorted k flags :
  StronglySorted lt (pack_index_from k flags)
  ∧ Forall (λ i, k ≤ i) (pack_index_from k flags).
Proof.
  revert k. induction flags as [|b flags IH]; intros k; simpl; [by split; constructor|].
  destruct (IH (S k)) as [Hs Hb]. destruct b.
  - split.
    + constructor; [done|]. eapply Forall_impl; [exact Hb|]. simpl. lia.
    + constructor; [lia|]. eapply Forall_impl; [exact Hb|]. simpl. lia.
  - split; [done|]. eapply Forall_impl; [exact Hb|]. simpl. lia.
Qed.

(** *** Divisors *)

Lemma prime_divisor n : 2 ≤ n → ∃ p, is_prime p ∧ (p | n).
Proof.
  induction (lt_wf n) as [n _ IH]. intros Hn.
  destruct (MapFacts.least_or_none (λ d, bool_decide (2 ≤ d ∧ (d | n))) n)
    as [Hnone|(d & Hd & Hdiv & Hleast)].
  - exists n. split; [|done]. split; [done|]. intros d Hd2 Hdn Hdiv.
    specialize (Hnone d Hdn). by rewrite bool_decide_true in Hnone.
  - apply bool_decide_eq_true in Hdiv as [Hd2 Hdiv].
    destruct (IH d Hd Hd2) as (p & Hp & Hpd). exists p. split; [done|].
    by etrans.
Qed.

Lemma is_prime_dec n : is_prime n ∨ ¬ is_prime n.
Proof.
  destruct (decide (2 ≤ n)) as [Hn|Hn]; [|right; by intros [? _]].
  destruct (MapFacts.least_or_none (λ d, bool_decide (2 ≤ d ∧ (d | n))) n)
    as [Hnone|(d & Hd & Hdiv & _)].
  - left. split; [done|]. intros d Hd2 Hdn Hdiv.
    specialize (Hnone d Hdn). by rewrite bool_decide_true in Hnone.
  - right. apply bool_decide_eq_true in Hdiv as [Hd2 Hdiv]. intros [_ Hp].
    by apply (Hp d).
Qed.

(** A number from 2 on that is not prime has a prime divisor whose square
    does not exceed it. *)
Lemma small_prime_divisor n :
  2 ≤ n → ¬ is_prime n → ∃ p, is_prime p ∧ (p | n) ∧ p * p ≤ n.
Proof.
  intros Hn Hnp.
  destruct (MapFacts.least_or_none (λ d, bool_decide (2 ≤ d ∧ (d | n))) n)
    as [Hnone|(d & Hd & Hdiv & Hleast)].
  { exfalso. apply Hnp. split; [done|]. intros d Hd2 Hdn Hdiv.
    specialize (Hnone d Hdn). by rewrite bool_decide_true in Hnone. }
  apply bool_decide_eq_true in Hdiv as [Hd2 Hdiv].
  assert (∀ e, 2 ≤ e → (e | n) → d ≤ e) as Hmin.
  { intros e He2 Hen. destruct (decide (d ≤ e)); [done|]. exfalso.
    specialize (Hleast e ltac:(lia)). by rewrite bool_decide_true in Hleast. }
  exists d. split_and!; [|done|].
  - split; [done|]. intros e He2 Hed Hdive.
    assert (d ≤ e) by (apply Hmin; [done|by etrans]). lia.
  - destruct Hdiv as [q Hq]. assert (2 ≤ q) as Hq2 by nia.
    assert (d ≤ q) by (apply Hmin; [done|]; exists d; lia). nia.
Qed.

(** The flags that stay set are the primes. *)
Lemma sieve_flags n primes_sqrt i :
  2 ≤ n → (∀ p, p ∈ primes_sqrt ↔ p ≤ Nat.sqrt n ∧ is_prime p) → i ≤ n →
  (2 ≤ i ∧ i ∉ multiples n primes_sqrt) ↔ is_prime i.
Proof.
  intros Hn Hps Hi. rewrite elem_of_multiples. split.
  - intros [Hi2 Hno]. destruct (is_prime_dec i) as [?|Hnp]; [done|]. exfalso.
    destruct (small_prime_divisor i Hi2 Hnp) as (p & Hp & [j Hj] & Hsq).
    apply Hno. exists p, j. pose proof Hp as [Hp2 _].
    split_and!.
    + apply Hps. split; [|done]. apply Nat.sqrt_le_square. nia.
    + nia.
    + apply Nat.div_le_lower_bound; [lia|]. nia.
    + lia.
  - intros [Hi2 Hprime]. split; [done|]. intros (p & j & Hp & Hj2 & Hjn & ->).
    apply Hps in Hp as [_ [Hp2 _]]. apply (Hprime p); [done|nia|]. exists j. lia.
Qed.

Lemma initial_flags n p :
  p ≤ n →
  <[0 := false]> (<[1 := false]> (replicate (n + 1) true)) !!! p = true ↔ 2 ≤ p.
Proof.
  intros Hp. destruct p as [|[|p]].
  - rewrite list_lookup_total_insert_eq by (rewrite length_insert, length_replicate; lia).
    split; [done|lia].
  - rewrite list_lookup_total_insert_ne by done.
    rewrite list_lookup_total_insert_eq by (rewrite length_replicate; lia).
    split; [done|lia].
  - rewrite !list_lookup_total_insert_ne by done.
    rewrite lookup_total_replicate_2 by lia. split; [lia|done].
Qed.

Lemma length_clear (ks : list nat) (flags : list bool) :
  length (foldl (λ flags k, <[k := false]> flags) flags ks) = length flags.
Proof.
  revert flags. induction ks as [|k ks IH]; intros flags; [done|]. simpl.
  by rewrite IH, length_insert.
Qed.

Lemma prime_sieve_rec_spec n fuel :
  n < fuel →
  ∃ l, prime_sieve_rec fuel n = Val l ∧ StronglySorted lt l
       ∧ ∀ p, p ∈ l ↔ p ≤ n ∧ is_prime p.
Proof.
  revert fuel. induction (lt_wf n) as [n _ IH]. intros [|fuel] Hfuel; [lia|]. simpl.
  destruct (n <? 2) eqn:Hn2.
  { apply Nat.ltb_lt in Hn2. exists []. split_and!; [done|constructor|].
    intros p. rewrite elem_of_nil. split; [done|]. intros [? [? _]]. lia. }
  apply Nat.ltb_ge in Hn2.
  assert (Nat.sqrt n < n) as Hsqrt by (apply Nat.sqrt_lt_lin; lia).
  destruct (IH (Nat.sqrt n) Hsqrt fuel ltac:(lia)) as (ps & -> & _ & Hps).
  eexists. split; [done|]. split; [apply pack_index_from_sorted|].
  intros p. unfold pack_index. rewrite elem_of_pack_index_from, Nat.sub_0_r.
  rewrite sieve_out_multiples.
  set (flags0 := <[0 := false]> (<[1 := false]> (replicate (n + 1) true))).
  assert (length flags0 = n + 1) as Hlen.
  { unfold flags0. by rewrite !length_insert, length_replicate. }
  split.
  - intros [_ Hp]. assert (p ≤ n) as Hpn.
    { apply lookup_lt_Some in Hp. rewrite length_clear, Hlen in Hp. lia. }
    split; [done|]. apply (sieve_flags n ps p Hn2 Hps Hpn).
    apply list_lookup_total_correct in Hp.
    apply clear_flags in Hp as [Hp0 Hpm]; [|lia].
    split; [by apply (initial_flags n p Hpn)|done].
  - intros [Hpn Hp]. split; [lia|].
    apply (sieve_flags n ps p Hn2 Hps Hpn) in Hp as [Hp2 Hpm].
    rewrite list_lookup_lookup_total_lt by (rewrite length_clear, Hlen; lia).
    f_equal. apply clear_flags; [lia|]. split; [by apply (initial_flags n p Hpn)|done].
Qed.

Lemma split_words_ok cur s :
  Forall (λ c, isspace c = false) cur →
  Forall (λ w, w ≠ [] ∧ Forall (λ c, isspace c = false) w) (split_words cur s).
Proof.
  revert cur. induction s as [|c s IH]; intros cur Hcur; simpl.
  - destruct cur as [|c' cur]; [constructor|]. constructor; [|constructor].
    split; [|by apply Forall_reverse].
    intros Hnil. apply (f_equal length) in Hnil. rewrite length_reverse in Hnil. done.
  - destruct (isspace c) eqn:Hc.
    + destruct cur as [|c' cur]; [by apply IH|]. constructor; [|by apply IH].
      split; [|by apply Forall_reverse].
      intros Hnil. apply (f_equal length) in Hnil. rewrite length_reverse in Hnil. done.
    + apply IH. by constructor.
Qed.

(** X15.  [wc] returns the number of line breaks, the number of words (the
    maximal runs of characters that are not spaces) and the number of
    characters of the text, however the runtime groups the elements in
    [reduce]. *)
Theorem wc_counts_lines_words_and_characters
    (reduce : ∀ T : Type, list T → monoid T → T) (s : list char) :
  (∀ T l mo, grouped mo l (reduce T l mo)) →
  wc reduce s = (length (line_breaks s), length (words s), length s)
  ∧ Forall (λ w, w ≠ [] ∧ Forall (λ c, isspace c = false) w) (words s).
Proof.
  intros Hred. split; [by apply wc_spec|]. by apply split_words_ok.
Qed.

(** X16.  [prime_sieve n] ends and returns, in increasing order, exactly
    the primes up to [n], [n] included (the comment in the source says
    "less than n"). *)
Theorem prime_sieve_lists_the_primes (n : nat) :
  ∃ l, prime_sieve n = Val l ∧ StronglySorted lt l
       ∧ ∀ p, p ∈ l ↔ p ≤ n ∧ is_prime p.
Proof. apply prime_sieve_rec_spec. lia. Qed.

(** X17.  Take a sequence of [int]s in which the sum of every run fits in
    [int], so that no addition wraps.  [mcss] with a reduce that combines
    from left to right returns 0 when the sequence is empty and otherwise
    the largest sum of a run that is not empty. *)
Theorem mcss_from_left_to_right
    (reduce : ∀ T : Type, list T → monoid T → T) (A : list Z) :
  (∀ T l mo, reduce T l mo = reduce_serial T l mo) →
  (∀ w, run_sum A w → in_int w) →
  (A = [] → mcss reduce A = 0%Z) ∧ (A ≠ [] → max_run_sum A (mcss reduce A)).
Proof.
  intros Hred Hfit. unfold mcss. rewrite dseq_tuples, Hred. split.
  - by intros ->.
  - intros HA. destruct A as [|a A]; [done|].
    rewrite fmap_cons. unfold reduce_serial. cbn [f].
    pose proof (foldl_exact a A Hfit) as Hex.
    destruct (foldl mcss_f (tuple_of a) (tuple_of <$> A)) as [[[b p] s] t].
    destruct Hex as ((_ & _ & _ & Hb) & _ & _ & Hrun). simpl.
    split; [done|]. intros w (i & len & Hlen & Hil & ->). by apply Hb.
Qed.

(** X18.  The combining function of [mcss] adds the best run of the right
    part to the suffix of the left part, where the total of the right part
    belongs.  Take a sequence of [int]s whose magnitudes add up to a value
    of [int], so that no addition wraps in any grouping.  With any grouping
    of [reduce] the result of [mcss] is still at least the sum of every
    run, but it can be larger than all of them: grouped as
    [((5 (3 -10)) 4)] the sequence [5, 3, -10, 4] gives 12, its largest run
    sum being 8. *)
Theorem mcss_is_an_upper_bound :
  (∀ (reduce : ∀ T : Type, list T → monoid T → T) (A : list Z) (w : Z),
     (∀ T l mo, grouped mo l (reduce T l mo)) →
     (sum_abs A ≤ int_max)%Z →
     run_sum A w → (w ≤ mcss reduce A)%Z)
  ∧ ∃ x, grouped mcss_monoid (tuple_of <$> [5; 3; -10; 4]%Z) x
         ∧ x.1.1.1 = 12%Z ∧ max_run_sum [5; 3; -10; 4]%Z 8%Z.
Proof.
  split.
  - intros reduce A w Hred Hfit (i & len & Hlen & Hil & ->). unfold mcss.
    rewrite dseq_tuples.
    assert (A ≠ []) as HA by (intros ->; simpl in Hil; lia).
    destruct (grouped_covers _ _ (Hred _ (tuple_of <$> A) mcss_monoid) A eq_refl HA Hfit)
      as [Hcov _].
    change (Monoid mcss_f (0, 0, 0, 0)%Z) with mcss_monoid.
    destruct (reduce _ (tuple_of <$> A) mcss_monoid) as [[[b p] s] t].
    destruct Hcov as (_ & _ & _ & Hb). simpl. by apply Hb.
  - eexists. split_and!.
    + apply (grouped_split mcss_monoid [tuple_of 5; tuple_of 3; tuple_of (-10)]
               [tuple_of 4])%Z; [done|done| |constructor].
      apply (grouped_split mcss_monoid [tuple_of 5] [tuple_of 3; tuple_of (-10)])%Z;
        [done|done|constructor|].
      apply (grouped_split mcss_monoid [tuple_of 3] [tuple_of (-10)])%Z;
        [done|done|constructor|constructor].
    + reflexivity.
    + assert (∀ w, run_sum [5; 3; -10; 4]%Z w → in_int w) as Hfit.
      { intros w. apply run_sums_fit. unfold sum_abs, int_max. simpl. lia. }
      pose proof (foldl_exact 5 [3; -10; 4]%Z Hfit) as ((_ & _ & _ & Hb) & _ & _ & Hrun).
      split; [exact Hrun|]. intros w (i & len & Hlen & Hil & ->). by apply Hb.
Qed.

(** Without the condition the additions wrap: the sum 2147483648 of the
    sequence [2147483647, 1] is no value of [int], the suffix of the left
    part and the prefix of the right part add up to -2147483648, and
    [mcss] returns 2147483647. *)
Lemma mcss_wraps : mcss reduce_serial [2147483647; 1]%Z = 2147483647%Z.
Proof. reflexivity. Qed.

Lemma wc_counts_lines_words_and_characters_witness :
  wc reduce_serial [104; 105; 32; 32; 119; 10; 102; 32; 98; 32]%Z
  = (length (line_breaks [104; 105; 32; 32; 119; 10; 102; 32; 98; 32]%Z),
     length (words [104; 105; 32; 32; 119; 10; 102; 32; 98; 32]%Z), 10)
  ∧ Forall (λ w, w ≠ [] ∧ Forall (λ c, isspace c = false) w)
           (words [104; 105; 32; 32; 119; 10; 102; 32; 98; 32]%Z).
Proof.
  apply (wc_counts_lines_words_and_characters reduce_serial
           [104; 105; 32; 32; 119; 10; 102; 32; 98; 32]%Z).
  apply reduce_serial_grouped.
Defined.

Lemma mcss_from_left_to_right_witness :
  ([5; 3; -10; 4]%Z = [] → mcss reduce_serial [5; 3; -10; 4]%Z = 0%Z)
  ∧ ([5; 3; -10; 4]%Z ≠ [] → max_run_sum [5; 3; -10; 4]%Z (mcss reduce_serial [5; 3; -10; 4]%Z)).
Proof.
  apply (mcss_from_left_to_right reduce_serial [5; 3; -10; 4]%Z); [reflexivity|].
  intros w. apply run_sums_fit. unfold sum_abs, int_max. simpl. lia.
Defined.

Lemma mcss_is_an_upper_bound_witness :
  (5 + 3 ≤ mcss reduce_serial [5; 3; -10; 4]%Z)%Z.
Proof.
  apply (proj1 mcss_is_an_upper_bound reduce_serial [5; 3; -10; 4]%Z (5 + 3)%Z).
  - apply reduce_serial_grouped.
  - unfold sum_abs, int_max. simpl. lia.
  - exists 0, 2. split_and!; [lia|simpl; lia|reflexivity].
Defined.

(** X21.  The writes of [prime_sieve] stay inside [flags]: with
    [primes_sqrt] the primes that the recursive call returns, every index
    [prime * j] that the two loops write is at most [n], the last index of
    the [n + 1] flags. *)
Theorem prime_sieve_writes_in_range (n : nat) (primes_sqrt : list nat) :
  2 ≤ n → prime_sieve (Nat.sqrt n) = Val primes_sqrt →
  Forall (λ k, k < length (replicate (n + 1) true)) (multiples n primes_sqrt).
Proof.
  intros Hn Hrun. rewrite length_replicate. apply Forall_forall. intros k Hk.
  apply elem_of_multiples in Hk as (p & j & Hp & Hj2 & Hjn & ->).
  destruct (prime_sieve_rec_spec (Nat.sqrt n) (S (Nat.sqrt n)) ltac:(lia))
    as (l & Hl & _ & Hspec).
  unfold prime_sieve in Hrun. rewrite Hl in Hrun. injection Hrun as ->.
  apply Hspec in Hp as [_ [Hp2 _]].
  pose proof (Nat.Div0.mul_div_le n p). nia.
Qed.

Lemma prime_sieve_writes_in_range_witness :
  Forall (λ k, k < length (replicate (50 + 1) true)) (multiples 50 [2; 3; 5; 7]).
Proof.
  apply (prime_sieve_writes_in_range 50 [2; 3; 5; 7]); [lia|vm_compute; reflexivity].
Defined.

End BenchFacts.
